(** * Field-level cryptography of sraha-app: encryptData / decryptData,
      hashPassword / comparePassword, the phone field transform of the user
      schema, and the signup / login services.

    The repository code is a thin layer over two libraries, node:crypto
    (AES-256-GCM, Buffer hex and utf8 codecs) and bcrypt.  The library
    functions the source calls are written out here from their published
    specifications (FIPS-197, NIST SP 800-38D, the WHATWG UTF-8 decoder, the
    Node.js Buffer and crypto documentation, the bcrypt package), and the
    functions of the repository are translated on top of them. *)

From Stdlib Require Import NArith ZArith Lia List.
From Stdlib Require Uint63 PArray.
From Stdlib.Strings Require Import Byte.
From stdpp Require Import base strings list gmap.
Import ListNotations.

Local Open Scope N_scope.

(** ** Bytes *)

Module Bytes.

(** A Buffer is a list of bytes; arithmetic on a byte goes through [N]. *)
Definition byte_of_N (n : N) : byte :=
  match Byte.of_N (n mod 256) with
  | Some b => b
  | None => x00
  end.

#[export] Instance byte_eq_dec : EqDecision byte := Byte.byte_eq_dec.

Definition xor_byte (a b : byte) : byte :=
  byte_of_N (N.lxor (Byte.to_N a) (Byte.to_N b)).

(** [xor_bytes d k] is as long as the shorter of the two. *)
Definition xor_bytes (d k : list byte) : list byte := zip_with xor_byte d k.

End Bytes.

(** ** AES-256 (FIPS-197), the block cipher behind 'aes-256-gcm' *)

Module AES.
Import Bytes.

Definition sbox : list N :=
[ 99; 124; 119; 123; 242; 107; 111; 197; 48; 1; 103; 43; 254; 215; 171; 118;
  202; 130; 201; 125; 250; 89; 71; 240; 173; 212; 162; 175; 156; 164; 114; 192;
  183; 253; 147; 38; 54; 63; 247; 204; 52; 165; 229; 241; 113; 216; 49; 21;
  4; 199; 35; 195; 24; 150; 5; 154; 7; 18; 128; 226; 235; 39; 178; 117;
  9; 131; 44; 26; 27; 110; 90; 160; 82; 59; 214; 179; 41; 227; 47; 132;
  83; 209; 0; 237; 32; 252; 177; 91; 106; 203; 190; 57; 74; 76; 88; 207;
  208; 239; 170; 251; 67; 77; 51; 133; 69; 249; 2; 127; 80; 60; 159; 168;
  81; 163; 64; 143; 146; 157; 56; 245; 188; 182; 218; 33; 16; 255; 243; 210;
  205; 12; 19; 236; 95; 151; 68; 23; 196; 167; 126; 61; 100; 93; 25; 115;
  96; 129; 79; 220; 34; 42; 144; 136; 70; 238; 184; 20; 222; 94; 11; 219;
  224; 50; 58; 10; 73; 6; 36; 92; 194; 211; 172; 98; 145; 149; 228; 121;
  231; 200; 55; 109; 141; 213; 78; 169; 108; 86; 244; 234; 101; 122; 174; 8;
  186; 120; 37; 46; 28; 166; 180; 198; 232; 221; 116; 31; 75; 189; 139; 138;
  112; 62; 181; 102; 72; 3; 246; 14; 97; 53; 87; 185; 134; 193; 29; 158;
  225; 248; 152; 17; 105; 217; 142; 148; 155; 30; 135; 233; 206; 85; 40; 223;
  140; 161; 137; 13; 191; 230; 66; 104; 65; 153; 45; 15; 176; 84; 187; 22 ].

Definition sub_byte (b : N) : N := nth (N.to_nat b) sbox 0.

(** Multiplication by x in GF(2^8) modulo x^8+x^4+x^3+x+1. *)
Definition xtime (b : N) : N :=
  let s := N.land (N.shiftl b 1) 255 in
  if N.testbit b 7 then N.lxor s 27 else s.

Definition at16 (st : list N) (i : nat) : N := nth i st 0.

Definition sub_bytes (st : list N) : list N := map sub_byte st.

(** The state is kept in input order, column after column: byte r of column
    c is entry r + 4c.  Row r is rotated left by r columns. *)
Definition shift_rows (st : list N) : list N :=
  map (at16 st) [0; 5; 10; 15; 4; 9; 14; 3; 8; 13; 2; 7; 12; 1; 6; 11]%nat.

Definition mix_column (a0 a1 a2 a3 : N) : list N :=
  [ N.lxor (N.lxor (xtime a0) (N.lxor (xtime a1) a1)) (N.lxor a2 a3);
    N.lxor (N.lxor a0 (xtime a1)) (N.lxor (N.lxor (xtime a2) a2) a3);
    N.lxor (N.lxor a0 a1) (N.lxor (xtime a2) (N.lxor (xtime a3) a3));
    N.lxor (N.lxor (N.lxor (xtime a0) a0) a1) (N.lxor a2 (xtime a3)) ].

Definition mix_columns (st : list N) : list N :=
  flat_map (fun c => mix_column (at16 st (4 * c)) (at16 st (4 * c + 1))
                                (at16 st (4 * c + 2)) (at16 st (4 * c + 3)))
           [0; 1; 2; 3]%nat.

Definition add_round_key (st rk : list N) : list N := zip_with N.lxor st rk.

(** Key expansion for Nk = 8: 60 words, kept as one list of 240 bytes.
    [expand_words n i w] appends words i, i+1, ... , i+n-1 to [w]. *)
Definition rcon : list N := [1; 2; 4; 8; 16; 32; 64].

Definition word_at (w : list N) (i : nat) : list N :=
  map (fun j => nth (4 * i + j) w 0) [0; 1; 2; 3]%nat.

Definition rot_word (t : list N) : list N :=
  match t with
  | a :: rest => rest ++ [a]
  | [] => []
  end.

Definition next_word (w : list N) (i : nat) : list N :=
  let temp := word_at w (i - 1) in
  let temp :=
    if Nat.eqb (i mod 8) 0 then
      zip_with N.lxor (map sub_byte (rot_word temp))
               [nth (i / 8 - 1) rcon 0; 0; 0; 0]
    else if Nat.eqb (i mod 8) 4 then map sub_byte temp
    else temp in
  zip_with N.lxor (word_at w (i - 8)) temp.

Fixpoint expand_words (n i : nat) (w : list N) : list N :=
  match n with
  | O => w
  | S n' => expand_words n' (S i) (w ++ next_word w i)
  end.

Definition key_expansion (key : list N) : list N := expand_words 52 8 key.

Definition round_key (w : list N) (r : nat) : list N :=
  firstn 16 (skipn (16 * r) w).

Fixpoint rounds (n r : nat) (w st : list N) : list N :=
  match n with
  | O => st
  | S n' =>
    rounds n' (S r) w
           (add_round_key (mix_columns (shift_rows (sub_bytes st))) (round_key w r))
  end.

Definition cipher (key input : list N) : list N :=
  let w := key_expansion key in
  let st := add_round_key input (round_key w 0) in
  let st := rounds 13 1 w st in
  add_round_key (shift_rows (sub_bytes st)) (round_key w 14).

(** One block: 32 key bytes, 16 input bytes, 16 output bytes. *)
Definition encrypt_block (key block : list byte) : list byte :=
  let out := cipher (map Byte.to_N key) (map Byte.to_N block) in
  map (fun i => byte_of_N (at16 out i)) (seq 0 16).

End AES.

(** ** JavaScript values, strings and exceptions *)

Module JS.

(** A JavaScript string is a sequence of UTF-16 code units. *)
Abbreviation jsstring := (list N).

Definition js (s : string) : jsstring :=
  map Ascii.N_of_ascii (String.list_ascii_of_string s).

Inductive value :=
| VUndefined
| VNull
| VBool (b : bool)
| VNumber (n : Z)
| VNaN
| VString (s : jsstring).

#[export] Instance value_eq_dec : EqDecision value.
Proof. solve_decision. Defined.

(** [!v] *)
Definition falsy (v : value) : bool :=
  match v with
  | VUndefined | VNull | VNaN => true
  | VBool b => negb b
  | VNumber n => Z.eqb n 0
  | VString s => match s with [] => true | _ => false end
  end.

(** What the functions of this program can throw.  The first group are the
    errors of node:crypto and Buffer, [BcryptError] is an error of the
    bcrypt package, [ValidationError] one of the schema validators,
    [ConfigurationError] the startup failure the spec names, and [ApiError]
    the repository's own (thrown by throwError). *)
Inductive exn :=
| TypeError                 (* ERR_INVALID_ARG_TYPE, or a method of undefined *)
| InvalidArgValue           (* ERR_INVALID_ARG_VALUE: hex input of odd length *)
| InvalidKeyLength          (* ERR_CRYPTO_INVALID_KEYLEN *)
| InvalidIV                 (* ERR_CRYPTO_INVALID_IV *)
| InvalidAuthTagLength      (* ERR_CRYPTO_INVALID_AUTH_TAG *)
| UnableToAuthenticate      (* "Unsupported state or unable to authenticate data" *)
| BcryptError (message : string)
| ValidationError (path : string)
| DuplicateKey (path : string)
| ConfigurationError
| ApiError (message : string) (statusCode : Z).

Inductive result (A : Type) :=
| Ok (a : A)
| Throw (e : exn).
Arguments Ok {A} a.
Arguments Throw {A} e.

(** Sequencing: a thrown exception skips the rest ([x ← r; k]). *)
#[export] Instance result_bind : MBind result := fun A B k r =>
  match r with
  | Ok a => k a
  | Throw e => Throw e
  end.

(** [s.split(sep)] for a one-character separator. *)
Fixpoint split (sep : N) (s : jsstring) : list jsstring :=
  match s with
  | [] => [[]]
  | c :: rest =>
    if c =? sep then [] :: split sep rest
    else match split sep rest with
         | seg :: segs => (c :: seg) :: segs
         | [] => [[c]]
         end
  end.

Definition colon : N := 58.

End JS.

(** ** Buffer hex codec *)

Module Hex.
Import Bytes JS.

Definition digit (n : N) : N := if n <? 10 then 48 + n else 87 + n.

(** [buf.toString('hex')]: two lower-case digits per byte. *)
Definition encode (bs : list byte) : jsstring :=
  flat_map (fun b => [digit (Byte.to_N b / 16); digit (Byte.to_N b mod 16)]) bs.

Definition unhex (c : N) : option N :=
  if (48 <=? c) && (c <=? 57) then Some (c - 48)
  else if (97 <=? c) && (c <=? 102) then Some (c - 87)
  else if (65 <=? c) && (c <=? 70) then Some (c - 55)
  else None.

(** [Buffer.from(s, 'hex')]: pairs of digits are decoded until the first
    pair that is not two hexadecimal digits; a trailing single character is
    dropped. *)
Fixpoint decode (s : jsstring) : list byte :=
  match s with
  | a :: b :: rest =>
    match unhex a, unhex b with
    | Some h, Some l => byte_of_N (16 * h + l) :: decode rest
    | _, _ => []
    end
  | _ => []
  end.

Definition is_hex_digit (c : N) : bool :=
  match unhex c with Some _ => true | None => false end.

(** A string that consists of hexadecimal digits only, an even number of them. *)
Definition is_hex (s : jsstring) : bool :=
  forallb is_hex_digit s && Nat.even (length s).

End Hex.

(** ** UTF-8 codec *)

Module Utf8.
Import Bytes JS.

Definition is_high (c : N) : bool := (0xD800 <=? c) && (c <=? 0xDBFF).
Definition is_low (c : N) : bool := (0xDC00 <=? c) && (c <=? 0xDFFF).

(** The bytes of one code point.  Shifts and masks are written as division
    and remainder by powers of two. *)
Definition encode_cp (cp : N) : list N :=
  if cp <? 0x80 then [cp]
  else if cp <? 0x800 then [0xC0 + cp / 64; 0x80 + cp mod 64]
  else if cp <? 0x10000 then
    [0xE0 + cp / 4096; 0x80 + (cp / 64) mod 64; 0x80 + cp mod 64]
  else
    [0xF0 + cp / 262144; 0x80 + (cp / 4096) mod 64;
     0x80 + (cp / 64) mod 64; 0x80 + cp mod 64].

(** Encoding of a string: a surrogate pair is one code point, a lone
    surrogate is written as U+FFFD. *)
Fixpoint encode_units (s : jsstring) : list N :=
  match s with
  | [] => []
  | c :: rest =>
    if is_high c then
      match rest with
      | d :: rest' =>
        if is_low d then
          encode_cp (0x10000 + (c - 0xD800) * 0x400 + (d - 0xDC00))
            ++ encode_units rest'
        else encode_cp 0xFFFD ++ encode_units rest
      | [] => encode_cp 0xFFFD
      end
    else if is_low c then encode_cp 0xFFFD ++ encode_units rest
    else encode_cp c ++ encode_units rest
  end.

Definition encode (s : jsstring) : list byte := map byte_of_N (encode_units s).

Definition surrogate (c : N) : Prop := 0xD800 <= c <= 0xDFFF.

(** No lone surrogate, every code unit below 2^16. *)
Fixpoint well_formed (s : jsstring) : bool :=
  match s with
  | [] => true
  | c :: rest =>
    if is_high c then
      match rest with
      | d :: rest' => is_low d && well_formed rest'
      | [] => false
      end
    else negb (is_low c) && (c <? 0x10000) && well_formed rest
  end.

(** The decoder of the WHATWG Encoding Standard: [remaining] continuation
    bytes are still expected, the next one within [lower .. upper]. *)
Record dstate := { cp : N; remaining : nat; lower : N; upper : N }.

Definition idle : dstate := {| cp := 0; remaining := 0; lower := 0x80; upper := 0xBF |}.

Definition units_of_cp (c : N) : list N :=
  if c <? 0x10000 then [c]
  else [0xD800 + (c - 0x10000) / 0x400; 0xDC00 + (c - 0x10000) mod 0x400].

Definition start (b : N) : list N * dstate :=
  if b <=? 0x7F then ([b], idle)
  else if (0xC2 <=? b) && (b <=? 0xDF) then
    ([], {| cp := b - 0xC0; remaining := 1; lower := 0x80; upper := 0xBF |})
  else if (0xE0 <=? b) && (b <=? 0xEF) then
    ([], {| cp := b - 0xE0; remaining := 2;
            lower := if b =? 0xE0 then 0xA0 else 0x80;
            upper := if b =? 0xED then 0x9F else 0xBF |})
  else if (0xF0 <=? b) && (b <=? 0xF4) then
    ([], {| cp := b - 0xF0; remaining := 3;
            lower := if b =? 0xF0 then 0x90 else 0x80;
            upper := if b =? 0xF4 then 0x8F else 0xBF |})
  else ([0xFFFD], idle).

Definition step (st : dstate) (b : N) : list N * dstate :=
  match remaining st with
  | O => start b
  | S r =>
    if (lower st <=? b) && (b <=? upper st) then
      let c := cp st * 64 + (b - 0x80) in
      match r with
      | O => (units_of_cp c, idle)
      | S _ => ([], {| cp := c; remaining := r; lower := 0x80; upper := 0xBF |})
      end
    else
      let '(out, st') := start b in (0xFFFD :: out, st')
  end.

(** The decoder run over a chunk: the text it emits and the state it is
    left in (a StringDecoder keeps that state between write and end). *)
Fixpoint run (st : dstate) (bs : list N) : jsstring * dstate :=
  match bs with
  | [] => ([], st)
  | b :: rest =>
    let '(out, st') := step st b in
    let '(more, st'') := run st' rest in
    (out ++ more, st'')
  end.

(** End of input: an unfinished sequence is one U+FFFD. *)
Definition flush (st : dstate) : jsstring :=
  match remaining st with
  | O => []
  | S _ => [0xFFFD]
  end.

Definition decode (bs : list byte) : jsstring :=
  let '(out, st) := run idle (map Byte.to_N bs) in out ++ flush st.

End Utf8.

(** ** Galois/Counter Mode (NIST SP 800-38D) over AES-256, no additional data *)

Module GCM.
Import Bytes.

(** Big-endian numbers: [be_bytes k n] is n modulo 256^k in k bytes. *)
Fixpoint be_bytes (k : nat) (n : N) : list byte :=
  match k with
  | O => []
  | S k' => be_bytes k' (n / 256) ++ [byte_of_N n]
  end.

Definition be_value (bs : list byte) : N :=
  fold_left (fun acc b => acc * 256 + Byte.to_N b) bs 0.

(** A block is a 128-bit number; bit 0 of the standard is bit 127 here. *)
Definition R : N := N.shiftl 0xE1 120.

Definition mulx (v : N) : N :=
  if N.testbit v 0 then N.lxor (N.shiftr v 1) R else N.shiftr v 1.

(** Multiplication in GF(2^128): [gmul_loop n x z v] handles bits
    n-1, ..., 0 of x, with the product so far in z. *)
Fixpoint gmul_loop (n : nat) (x z v : N) : N :=
  match n with
  | O => z
  | S n' =>
    gmul_loop n' x (if N.testbit x (N.of_nat n') then N.lxor z v else z) (mulx v)
  end.

Definition gmul (x y : N) : N := gmul_loop 128 x 0 y.

Definition ghash (h : N) (blocks : list N) : N :=
  fold_left (fun y x => gmul (N.lxor y x) h) blocks 0.

(** The unit of the field, and h^(2^128 - 2) by repeated squaring. *)
Definition one : N := N.shiftl 1 127.

Fixpoint ginv_loop (n : nat) (s acc : N) : N :=
  match n with
  | O => acc
  | S n' => let s' := gmul s s in ginv_loop n' s' (gmul acc s')
  end.

Definition ginv (h : N) : N := ginv_loop 127 h one.

(** [hinv] undoes the multiplication by [h] on the unit vectors below n;
    for n = 128 that is on every block, the product being additive. *)
Definition unit_vector (i : nat) : N := N.shiftl 1 (N.of_nat i).

Definition undoes (h hinv : N) (i : nat) : bool :=
  gmul (gmul (unit_vector i) h) hinv =? unit_vector i.

Fixpoint undoes_below (n : nat) (h hinv : N) : bool :=
  match n with
  | O => true
  | S n' => undoes h hinv n' && undoes_below n' h hinv
  end.

(** [h] has an inverse in the field. *)
Abbreviation invertible h := (undoes_below 128 h (ginv h)).

(** The 16-byte blocks of [data], the last one filled up with zeros. *)
Definition block_count (len : nat) : nat := (len + 15) / 16.

Definition chunk (data : list byte) (j : nat) : list byte :=
  take 16 (drop (16 * j) (data ++ replicate 15 x00)).

Definition blocks (data : list byte) : list N :=
  map (fun j => be_value (chunk data j)) (seq 0 (block_count (length data))).

(** Blocks are numbers below [w128]. *)
Definition w128 : N := 2 ^ 128.

(** The closing block with no additional data: 64 zero bits and the bit
    length of the data in 64 bits. *)
Definition bit_length (data : list byte) : N := (8 * N.of_nat (length data)) mod 2 ^ 64.

Section WithKey.
Variable key : list byte.

Definition hash_subkey : N := be_value (AES.encrypt_block key (replicate 16 x00)).

(** The pre-counter block J0. *)
Definition j0 (iv : list byte) : list byte :=
  if Nat.eqb (length iv) 12 then iv ++ [x00; x00; x00; x01]
  else be_bytes 16 (ghash hash_subkey (blocks iv ++ [bit_length iv])).

(** Counter block number i after J0: the last 32 bits are incremented
    modulo 2^32. *)
Definition counter_block (j : list byte) (i : nat) : list byte :=
  take 12 j ++ be_bytes 4 (be_value (drop 12 j) + N.of_nat i).

Definition keystream (j : list byte) (n : nat) : list byte :=
  flat_map (fun i => AES.encrypt_block key (counter_block j (S i))) (seq 0 n).

Definition gctr (iv data : list byte) : list byte :=
  xor_bytes data (keystream (j0 iv) (block_count (length data))).

(** The full 16-byte tag of a ciphertext. *)
Definition auth_tag (iv ct : list byte) : list byte :=
  xor_bytes (AES.encrypt_block key (j0 iv))
            (be_bytes 16 (ghash hash_subkey
                                (blocks ct ++ [bit_length ct]))).
End WithKey.

End GCM.

(** ** The world outside the program: the random source and the users collection *)

Module Runtime.
Import JS.

(** A stored user document: field name to value. *)
Abbreviation document := (gmap string value).

(** [pool] is the operating system's supply of random bytes, [cursor] how
    many of them have been handed out. *)
Record world := {
  pool : nat -> byte;
  cursor : nat;
  users : list document
}.

(** A computation that may throw and may use the world. *)
Definition M (A : Type) : Type := world -> result A * world.

#[export] Instance M_ret : MRet M := fun A a w => (Ok a, w).

#[export] Instance M_bind : MBind M := fun A B k m w =>
  match m w with
  | (Ok a, w') => k a w'
  | (Throw e, w') => (Throw e, w')
  end.

Definition lift {A} (r : result A) : M A := fun w => (r, w).

Definition throw {A} (e : exn) : M A := fun w => (Throw e, w).

(** The next n bytes of the pool, and the world after they were handed out. *)
Definition drawn (w : world) (n : nat) : list byte :=
  map (fun i => pool w (cursor w + i)%nat) (seq 0 n).

Definition advance (w : world) (n : nat) : world :=
  {| pool := pool w; cursor := (cursor w + n)%nat; users := users w |}.

(** [crypto.randomBytes(n)] *)
Definition randomBytes (n : nat) : M (list byte) := fun w =>
  (Ok (drawn w n), advance w n).

End Runtime.

(** ** node:crypto, as far as the program uses it *)

Module NodeCrypto.
Import Bytes JS.

(** [Buffer.from(v, 'hex')] *)
Definition Buffer_from_hex (v : value) : result (list byte) :=
  match v with
  | VString s => Ok (Hex.decode s)
  | _ => Throw TypeError
  end.

(** The one cipher of this program. *)
Definition aes_256_gcm : jsstring := js "aes-256-gcm".

(** A Cipher object: key, IV and the ciphertext produced so far. *)
Record Cipher := { c_key : list byte; c_iv : list byte; c_out : list byte }.

(** A Decipher object: key, IV, the tag given by setAuthTag, the ciphertext
    consumed so far and the state of the utf8 output decoder. *)
Record Decipher := {
  d_key : list byte;
  d_iv : list byte;
  d_tag : option (list byte);
  d_in : list byte;
  d_text : Utf8.dstate
}.

(** The checks of createCipheriv and createDecipheriv: the cipher's name,
    then the IV, then the length of the key. *)
Definition check_cipher_args (alg : jsstring) (key iv : list byte) : result unit :=
  if negb (bool_decide (alg = aes_256_gcm)) then Throw TypeError
  else if Nat.eqb (length iv) 0 then Throw InvalidIV
  else if negb (Nat.eqb (length key) 32) then Throw InvalidKeyLength
  else Ok tt.

Definition createCipheriv (alg : jsstring) (key iv : list byte) : result Cipher :=
  _ ← check_cipher_args alg key iv;
  Ok {| c_key := key; c_iv := iv; c_out := [] |}.

Definition createDecipheriv (alg : jsstring) (key iv : list byte) : result Decipher :=
  _ ← check_cipher_args alg key iv;
  Ok {| d_key := key; d_iv := iv; d_tag := None; d_in := []; d_text := Utf8.idle |}.

(** The key stream for bytes [from, from + n) of the message. *)
Definition stream (key iv : list byte) (from n : nat) : list byte :=
  drop from (GCM.keystream key (GCM.j0 key iv) (GCM.block_count (from + n))).

(** [cipher.update(data, 'utf8', 'hex')] *)
Definition cipher_update_utf8_hex (c : Cipher) (data : value)
  : result (jsstring * Cipher) :=
  match data with
  | VString s =>
    let pt := Utf8.encode s in
    let ct := xor_bytes pt (stream (c_key c) (c_iv c) (length (c_out c)) (length pt)) in
    Ok (Hex.encode ct,
        {| c_key := c_key c; c_iv := c_iv c; c_out := c_out c ++ ct |})
  | _ => Throw TypeError
  end.

(** [cipher.final('hex')]: a stream mode holds nothing back. *)
Definition cipher_final_hex (c : Cipher) : jsstring * Cipher := (Hex.encode [], c).

(** [cipher.getAuthTag()] *)
Definition getAuthTag (c : Cipher) : list byte :=
  GCM.auth_tag (c_key c) (c_iv c) (c_out c).

(** [decipher.setAuthTag(tag)]: the tag lengths of NIST SP 800-38D. *)
Definition valid_tag_length (n : nat) : bool :=
  bool_decide (n ∈ [4; 8; 12; 13; 14; 15; 16]%nat).

Definition setAuthTag (d : Decipher) (tag : list byte) : result Decipher :=
  if valid_tag_length (length tag) then
    Ok {| d_key := d_key d; d_iv := d_iv d; d_tag := Some tag;
          d_in := d_in d; d_text := d_text d |}
  else Throw InvalidAuthTagLength.

(** [decipher.update(data, 'hex', 'utf8')] *)
Definition decipher_update_hex_utf8 (d : Decipher) (data : value)
  : result (jsstring * Decipher) :=
  match data with
  | VString s =>
    if Nat.odd (length s) then Throw InvalidArgValue
    else
      let ct := Hex.decode s in
      let pt := xor_bytes ct (stream (d_key d) (d_iv d) (length (d_in d)) (length ct)) in
      let '(text, st) := Utf8.run (d_text d) (map Byte.to_N pt) in
      Ok (text, {| d_key := d_key d; d_iv := d_iv d; d_tag := d_tag d;
                   d_in := d_in d ++ ct; d_text := st |})
  | _ => Throw TypeError
  end.

(** [decipher.final('utf8')]: the tag set before must be the tag of the
    ciphertext, cut to the length of the tag given. *)
Definition decipher_final_utf8 (d : Decipher) : result jsstring :=
  match d_tag d with
  | Some tag =>
    if bool_decide (tag = take (length tag) (GCM.auth_tag (d_key d) (d_iv d) (d_in d)))
    then Ok (Utf8.flush (d_text d))
    else Throw UnableToAuthenticate
  | None => Throw UnableToAuthenticate
  end.

End NodeCrypto.

(** ** src/common/security/encryption.security.js *)

Module EncryptionSecurity.
Import Bytes JS Runtime NodeCrypto.

(** Modelled from the spec: the constant [algorithm] of
    config/config.service.js, a file that is not among the sources.  The
    header comment of encryption.security.js and the spec both name
    AES-256-GCM. *)
Definition algorithm : jsstring := aes_256_gcm.

Section WithConfig.
(** [securityKey] of config/config.service.js, whatever the process
    environment made it. *)
Variable securityKey : value.

(** The key that createCipheriv accepts: a string whose hex decoding has
    32 bytes. *)
Definition usable_key : bool :=
  match securityKey with
  | VString k => Nat.eqb (length (Hex.decode k)) 32
  | _ => false
  end.

Definition encryptData (data : value) : M jsstring :=
  IV ← randomBytes 12;
  lift (key ← Buffer_from_hex securityKey;
        cipher ← createCipheriv algorithm key IV;
        '(encrypted, cipher) ← cipher_update_utf8_hex cipher data;
        let '(last, cipher) := cipher_final_hex cipher in
        let encrypted := encrypted ++ last in
        let tag := Hex.encode (getAuthTag cipher) in
        Ok (Hex.encode IV ++ [colon] ++ tag ++ [colon] ++ encrypted)).

(** The destructuring [[iv, tag, content] = parts]: a missing element is
    undefined, elements after the third are not looked at. *)
Definition element (parts : list jsstring) (i : nat) : value :=
  match parts !! i with
  | Some s => VString s
  | None => VUndefined
  end.

Definition decryptData (encryptedData : value) : result jsstring :=
  match encryptedData with
  | VString s =>
    let parts := split colon s in
    let iv := element parts 0 in
    let tag := element parts 1 in
    let content := element parts 2 in
    key ← Buffer_from_hex securityKey;
    ivb ← Buffer_from_hex iv;
    decipher ← createDecipheriv algorithm key ivb;
    tagb ← Buffer_from_hex tag;
    decipher ← setAuthTag decipher tagb;
    '(decrypted, decipher) ← decipher_update_hex_utf8 decipher content;
    last ← decipher_final_utf8 decipher;
    Ok (decrypted ++ last)
  | _ => Throw TypeError
  end.

End WithConfig.

End EncryptionSecurity.

(** ** The encoded form IV:TAG:CIPHERTEXT, for stating the properties *)

Module Wire.
Import Bytes JS.

Definition key_bytes (securityKey : value) : list byte :=
  match securityKey with
  | VString k => Hex.decode k
  | _ => []
  end.

(** What encryption of [x] under [key] with the IV [iv] is expected to be. *)
Definition ciphertext (key iv : list byte) (x : jsstring) : list byte :=
  GCM.gctr key iv (Utf8.encode x).

Definition encoded (key iv : list byte) (x : jsstring) : jsstring :=
  Hex.encode iv ++ [colon]
    ++ Hex.encode (GCM.auth_tag key iv (ciphertext key iv x)) ++ [colon]
    ++ Hex.encode (ciphertext key iv x).

(** Positions of the TAG and of the CIPHERTEXT segment in an encoded string
    with a 12-byte IV and a 16-byte tag. *)
Definition in_tag (p : nat) : Prop := (25 <= p < 57)%nat.
Definition in_content (s : jsstring) (p : nat) : Prop := (58 <= p < length s)%nat.

(** [c] is a hexadecimal digit, and not the value of the digit at
    position p of s. *)
Definition other_digit (s : jsstring) (p : nat) (c : N) : bool :=
  match Hex.unhex c, s !! p with
  | Some v, Some c0 => negb (bool_decide (Hex.unhex c0 = Some v))
  | _, _ => false
  end.

(** [c] is a hexadecimal digit of the value of the digit at position p of
    s: that digit itself, or a letter in the other case. *)
Definition same_digit (s : jsstring) (p : nat) (c : N) : bool :=
  match Hex.unhex c, s !! p with
  | Some v, Some c0 => bool_decide (Hex.unhex c0 = Some v)
  | _, _ => false
  end.

(** [c] is a hexadecimal digit different from the one at position p. *)
Definition other_character (s : jsstring) (p : nat) (c : N) : bool :=
  match s !! p with
  | Some c0 => Hex.is_hex_digit c && negb (c =? c0)
  | None => false
  end.

Definition count_colons (s : jsstring) : nat :=
  length (filter (fun c => c = colon) s).

(** The outcome of the checks of node:crypto on an IV, a tag and a
    ciphertext, of which the text had an odd number of characters or not,
    under a key of 32 bytes, in the order in which decryptData meets them. *)
Definition authenticate (key iv tag ct : list byte) (odd : bool) : result jsstring :=
  if Nat.eqb (length iv) 0 then Throw InvalidIV
  else if negb (NodeCrypto.valid_tag_length (length tag)) then Throw InvalidAuthTagLength
  else if odd then Throw InvalidArgValue
  else if bool_decide (tag = take (length tag) (GCM.auth_tag key iv ct))
       then Ok (Utf8.decode (GCM.gctr key iv ct))
       else Throw UnableToAuthenticate.

End Wire.

(** ** The bcrypt package *)

Module Bcrypt.
Import Bytes JS Runtime.

(** What most of this development leaves open: the Blowfish key schedule
    and encryption of bcrypt (log2 of the rounds, the 16 salt bytes, the key
    length and the key bytes it may read; 23 bytes of output are used), and
    the StringToNumber conversion of ECMAScript.  The Blowfish of the
    package is [Blf.eksblowfish] below. *)
Class Primitives := {
  eksblowfish : N -> list byte -> N -> list byte -> list byte;
  StringToNumber : jsstring -> value
}.

Definition Base64Code : jsstring :=
  js "./ABCDEFGHIJKLMNOPQRSTUVWXYZabcdefghijklmnopqrstuvwxyz0123456789".

Definition code (n : N) : N := nth (N.to_nat n) Base64Code 0.

Fixpoint index_of (c : N) (l : list N) (i : N) : option N :=
  match l with
  | [] => None
  | x :: rest => if x =? c then Some i else index_of c rest (i + 1)
  end.

(** CHAR64 *)
Definition char64 (c : N) : option N := index_of c Base64Code 0.

Fixpoint encode_base64 (data : list byte) : jsstring :=
  match data with
  | [] => []
  | [a] => let a := Byte.to_N a in [code (a / 4); code (a mod 4 * 16)]
  | [a; b] =>
    let a := Byte.to_N a in
    let b := Byte.to_N b in
    [code (a / 4); code (a mod 4 * 16 + b / 16); code (b mod 16 * 4)]
  | a :: b :: c :: rest =>
    let a := Byte.to_N a in
    let b := Byte.to_N b in
    let c := Byte.to_N c in
    [code (a / 4); code (a mod 4 * 16 + b / 16);
     code (b mod 16 * 4 + c / 64); code (c mod 64)] ++ encode_base64 rest
  end.

(** At most [len] bytes; decoding stops at a character outside the alphabet. *)
Fixpoint decode_base64 (len : nat) (s : jsstring) {struct s} : list byte :=
  match len, s with
  | S len1, c1 :: c2 :: rest2 =>
    match char64 c1, char64 c2 with
    | Some v1, Some v2 =>
      byte_of_N (v1 * 4 + v2 / 16) ::
      match len1, rest2 with
      | S len2, c3 :: rest3 =>
        match char64 c3 with
        | Some v3 =>
          byte_of_N (v2 mod 16 * 16 + v3 / 4) ::
          match len2, rest3 with
          | S len3, c4 :: rest4 =>
            match char64 c4 with
            | Some v4 => byte_of_N (v3 mod 4 * 64 + v4) :: decode_base64 len3 rest4
            | None => []
            end
          | _, _ => []
          end
        | None => []
        end
      | _, _ => []
      end
    | _, _ => []
    end
  | _, _ => []
  end.

Definition is_digit (c : N) : bool := (48 <=? c) && (c <=? 57).
Definition is_space (c : N) : bool := (c =? 32) || ((9 <=? c) && (c <=? 13)).

(** [atoi] on a string whose third character is '$'. *)
Definition atoi2 (c0 c1 : N) : Z :=
  let d (c : N) : Z := Z.of_N (c - 48) in
  if is_digit c0 then (if is_digit c1 then 10 * d c0 + d c1 else d c0)%Z
  else if is_space c0 || (c0 =? 43) then (if is_digit c1 then d c1 else 0%Z)
  else if c0 =? 45 then (if is_digit c1 then - d c1 else 0)%Z
  else 0%Z.

(** The fields of a salt or hash string "$2b$NN$...", given as a C
    string: the minor version (0 when there is none), log2 of the rounds,
    and the text after the third '$'.  [None] where ValidateSalt refuses the
    string; for the cost n it asks that 1 << n, an int of C, is not below
    16, which leaves 4 to 30. *)
Definition parse_salt (s : jsstring) : option (N * N * jsstring) :=
  match s with
  | 36 :: v :: rest =>
    if 50 <? v then None
    else
      let fields (minor : N) (r : jsstring) :=
        match r with
        | c0 :: c1 :: 36 :: salt =>
          let n := atoi2 c0 c1 in
          if ((n <? 4) || (30 <? n))%Z then None
          else if (length salt * 3 / 4 <? 16)%nat then None
          else Some (minor, Z.to_N n, salt)
        | _ => None
        end in
      match rest with
      | 36 :: r => fields 0 r
      | m :: _ :: r => if (m =? 97) || (m =? 98) then fields m r else None
      | _ => None
      end
  | _ => None
  end.

Definition valid_salt (s : jsstring) : bool :=
  match parse_salt s with Some _ => true | None => false end.

(** "%2.2u" *)
Definition two_digits (n : N) : jsstring := [48 + n / 10; 48 + n mod 10].

(** The key length the key schedule is given: version b reads at most 72
    bytes and the terminating zero, version a counts modulo 256. *)
Definition key_length (minor : N) (len : N) : N :=
  if minor =? 98 then N.min len 72 + 1
  else if minor =? 97 then (len + 1) mod 256
  else len mod 256.

(** A JavaScript string as the native code gets it: the bytes of its
    UTF-8 encoding, read as a C string, that is up to the first zero byte. *)
Fixpoint until_zero (bs : list N) : list N :=
  match bs with
  | [] => []
  | b :: rest => if b =? 0 then [] else b :: until_zero rest
  end.

Definition c_str (s : jsstring) : jsstring :=
  until_zero (map Byte.to_N (Utf8.encode s)).

(** A string of ASCII characters other than NUL, which is its own C string. *)
Definition plain_ascii (s : jsstring) : Prop := Forall (fun c => 0 < c < 128) s.

(** The structure of a hash string: "$2", a minor version a or b or none,
    "$", a cost of two digits between 4 and 30, "$", and 22 characters of
    salt with the digest behind them. *)
Definition hash_structure (s : jsstring) : Prop :=
  exists (minor : jsstring) (cost : N) (salt encrypted : jsstring),
    s = [36; 50] ++ minor ++ [36] ++ two_digits cost ++ [36] ++ salt ++ encrypted /\
    minor ∈ [[]; [97]; [98]] /\ 4 <= cost <= 30 /\ length salt = 22%nat.

Section WithPrimitives.
Context `{Primitives}.

(** [bcrypt(key, salt)] of the C code, for a salt string that
    ValidateSalt accepts: the hash string. *)
Definition bcrypt (key : list byte) (salt : jsstring) : option jsstring :=
  match parse_salt salt with
  | Some (minor, logr, text) =>
    let csalt := take 16 (decode_base64 16 text ++ replicate 16 x00) in
    let klen := key_length minor (N.of_nat (length key)) in
    let visible := take (N.to_nat (N.max 1 klen)) (key ++ [x00]) in
    let ciphertext := take 23 (eksblowfish logr csalt klen visible) in
    Some ([36; 50] ++ (if minor =? 0 then [] else [minor]) ++ [36]
            ++ two_digits logr ++ [36]
            ++ encode_base64 csalt ++ encode_base64 ciphertext)
  | None => None
  end.

(** [bcrypt_gensalt('b', rounds, seed)] *)
Definition gen_salt (rounds : N) (seed : list byte) : jsstring :=
  let logr := N.min 31 (N.max 4 rounds) in
  [36; 50; 98; 36] ++ two_digits logr ++ [36] ++ encode_base64 seed.

(** [bcrypt.genSalt(rounds)], rounds a number: none given is 10; the
    native code takes the number as an unsigned byte. *)
Definition genSalt (rounds : value) : M jsstring :=
  let r := match rounds with
           | VNumber n => if Z.eqb n 0 then 10 else Z.to_N (n mod 256)
           | _ => 10
           end in
  seed ← randomBytes 16;
  mret (gen_salt r seed).

(** [bcrypt.hash(data, rounds)] with a number of rounds, as a promise
    that is awaited.  The salt made by genSalt goes through ValidateSalt
    like any other, so with a cost of 31 no hash comes back. *)
Definition hash (data rounds : value) : M jsstring :=
  match data with
  | VUndefined | VNull => throw (BcryptError "data and salt arguments required")
  | VString s =>
    salt ← genSalt rounds;
    match bcrypt (Utf8.encode s) (c_str salt) with
    | Some h => mret h
    | None => throw (BcryptError "Invalid salt. Salt must be in the form of: $Vers$log2(NumRounds)$saltvalue")
    end
  | _ => throw (BcryptError "data must be a string or Buffer and salt must either be a salt string or a number of rounds")
  end.

(** [bcrypt.compare(data, hash)]: the hash computed anew is compared
    with the hash given, both as C strings. *)
Definition compare (data hash : value) : result bool :=
  match data, hash with
  | (VUndefined | VNull), _ | _, (VUndefined | VNull) =>
    Throw (BcryptError "data and hash arguments required")
  | VString d, VString h =>
    let encrypted := c_str h in
    match bcrypt (Utf8.encode d) encrypted with
    | Some bcrypted => Ok (bool_decide (bcrypted = encrypted))
    | None => Ok false
    end
  | _, _ => Throw (BcryptError "data and hash must be strings")
  end.

(** For stating the properties: the cost hashing runs with, the digest of
    a key under a salt (version b), and the hash string the two make. *)
Definition log_rounds (rounds : value) : N :=
  N.min 31 (N.max 4 (match rounds with
                     | VNumber n => if Z.eqb n 0 then 10 else Z.to_N (n mod 256)
                     | _ => 10
                     end)).

Definition digest (logr : N) (seed key : list byte) : list byte :=
  let klen := key_length 98 (N.of_nat (length key)) in
  take 23 (eksblowfish logr seed klen (take (N.to_nat (N.max 1 klen)) (key ++ [x00]))).

Definition hash_string (logr : N) (seed key : list byte) : jsstring :=
  [36; 50; 98; 36] ++ two_digits logr ++ [36]
    ++ encode_base64 seed ++ encode_base64 (digest logr seed key).

End WithPrimitives.

(** What version b reads of a key: its first 72 bytes and one more, which
    is the terminating zero when the key has no more than 72. *)
Definition key_read (key : list byte) : list byte := take 73 (key ++ [x00]).

End Bcrypt.

(** ** Blowfish as the bcrypt package has it (src/blowfish.cc, src/bcrypt.cc)

    Words of 32 bits are machine integers kept below 2^32 by [u32]; the
    P-array and the S-boxes are arrays, updated in place by the C code. *)

Module Blf.
Import Uint63 PArray.
Local Open Scope uint63_scope.
Local Open Scope array_scope.

(** The fractional part of pi in hexadecimal: the 18 words of the initial
    P-array, then the four S-boxes of 256 words each. *)
Definition pi_words : list int :=
  [
   0x243f6a88; 0x85a308d3; 0x13198a2e; 0x03707344; 0xa4093822; 0x299f31d0;
   0x082efa98; 0xec4e6c89; 0x452821e6; 0x38d01377; 0xbe5466cf; 0x34e90c6c;
   0xc0ac29b7; 0xc97c50dd; 0x3f84d5b5; 0xb5470917; 0x9216d5d9; 0x8979fb1b;
   0xd1310ba6; 0x98dfb5ac; 0x2ffd72db; 0xd01adfb7; 0xb8e1afed; 0x6a267e96;
   0xba7c9045; 0xf12c7f99; 0x24a19947; 0xb3916cf7; 0x0801f2e2; 0x858efc16;
   0x636920d8; 0x71574e69; 0xa458fea3; 0xf4933d7e; 0x0d95748f; 0x728eb658;
   0x718bcd58; 0x82154aee; 0x7b54a41d; 0xc25a59b5; 0x9c30d539; 0x2af26013;
   0xc5d1b023; 0x286085f0; 0xca417918; 0xb8db38ef; 0x8e79dcb0; 0x603a180e;
   0x6c9e0e8b; 0xb01e8a3e; 0xd71577c1; 0xbd314b27; 0x78af2fda; 0x55605c60;
   0xe65525f3; 0xaa55ab94; 0x57489862; 0x63e81440; 0x55ca396a; 0x2aab10b6;
   0xb4cc5c34; 0x1141e8ce; 0xa15486af; 0x7c72e993; 0xb3ee1411; 0x636fbc2a;
   0x2ba9c55d; 0x741831f6; 0xce5c3e16; 0x9b87931e; 0xafd6ba33; 0x6c24cf5c;
   0x7a325381; 0x28958677; 0x3b8f4898; 0x6b4bb9af; 0xc4bfe81b; 0x66282193;
   0x61d809cc; 0xfb21a991; 0x487cac60; 0x5dec8032; 0xef845d5d; 0xe98575b1;
   0xdc262302; 0xeb651b88; 0x23893e81; 0xd396acc5; 0x0f6d6ff3; 0x83f44239;
   0x2e0b4482; 0xa4842004; 0x69c8f04a; 0x9e1f9b5e; 0x21c66842; 0xf6e96c9a;
   0x670c9c61; 0xabd388f0; 0x6a51a0d2; 0xd8542f68; 0x960fa728; 0xab5133a3;
   0x6eef0b6c; 0x137a3be4; 0xba3bf050; 0x7efb2a98; 0xa1f1651d; 0x39af0176;
   0x66ca593e; 0x82430e88; 0x8cee8619; 0x456f9fb4; 0x7d84a5c3; 0x3b8b5ebe;
   0xe06f75d8; 0x85c12073; 0x401a449f; 0x56c16aa6; 0x4ed3aa62; 0x363f7706;
   0x1bfedf72; 0x429b023d; 0x37d0d724; 0xd00a1248; 0xdb0fead3; 0x49f1c09b;
   0x075372c9; 0x80991b7b; 0x25d479d8; 0xf6e8def7; 0xe3fe501a; 0xb6794c3b;
   0x976ce0bd; 0x04c006ba; 0xc1a94fb6; 0x409f60c4; 0x5e5c9ec2; 0x196a2463;
   0x68fb6faf; 0x3e6c53b5; 0x1339b2eb; 0x3b52ec6f; 0x6dfc511f; 0x9b30952c;
   0xcc814544; 0xaf5ebd09; 0xbee3d004; 0xde334afd; 0x660f2807; 0x192e4bb3;
   0xc0cba857; 0x45c8740f; 0xd20b5f39; 0xb9d3fbdb; 0x5579c0bd; 0x1a60320a;
   0xd6a100c6; 0x402c7279; 0x679f25fe; 0xfb1fa3cc; 0x8ea5e9f8; 0xdb3222f8;
   0x3c7516df; 0xfd616b15; 0x2f501ec8; 0xad0552ab; 0x323db5fa; 0xfd238760;
   0x53317b48; 0x3e00df82; 0x9e5c57bb; 0xca6f8ca0; 0x1a87562e; 0xdf1769db;
   0xd542a8f6; 0x287effc3; 0xac6732c6; 0x8c4f5573; 0x695b27b0; 0xbbca58c8;
   0xe1ffa35d; 0xb8f011a0; 0x10fa3d98; 0xfd2183b8; 0x4afcb56c; 0x2dd1d35b;
   0x9a53e479; 0xb6f84565; 0xd28e49bc; 0x4bfb9790; 0xe1ddf2da; 0xa4cb7e33;
   0x62fb1341; 0xcee4c6e8; 0xef20cada; 0x36774c01; 0xd07e9efe; 0x2bf11fb4;
   0x95dbda4d; 0xae909198; 0xeaad8e71; 0x6b93d5a0; 0xd08ed1d0; 0xafc725e0;
   0x8e3c5b2f; 0x8e7594b7; 0x8ff6e2fb; 0xf2122b64; 0x8888b812; 0x900df01c;
   0x4fad5ea0; 0x688fc31c; 0xd1cff191; 0xb3a8c1ad; 0x2f2f2218; 0xbe0e1777;
   0xea752dfe; 0x8b021fa1; 0xe5a0cc0f; 0xb56f74e8; 0x18acf3d6; 0xce89e299;
   0xb4a84fe0; 0xfd13e0b7; 0x7cc43b81; 0xd2ada8d9; 0x165fa266; 0x80957705;
   0x93cc7314; 0x211a1477; 0xe6ad2065; 0x77b5fa86; 0xc75442f5; 0xfb9d35cf;
   0xebcdaf0c; 0x7b3e89a0; 0xd6411bd3; 0xae1e7e49; 0x00250e2d; 0x2071b35e;
   0x226800bb; 0x57b8e0af; 0x2464369b; 0xf009b91e; 0x5563911d; 0x59dfa6aa;
   0x78c14389; 0xd95a537f; 0x207d5ba2; 0x02e5b9c5; 0x83260376; 0x6295cfa9;
   0x11c81968; 0x4e734a41; 0xb3472dca; 0x7b14a94a; 0x1b510052; 0x9a532915;
   0xd60f573f; 0xbc9bc6e4; 0x2b60a476; 0x81e67400; 0x08ba6fb5; 0x571be91f;
   0xf296ec6b; 0x2a0dd915; 0xb6636521; 0xe7b9f9b6; 0xff34052e; 0xc5855664;
   0x53b02d5d; 0xa99f8fa1; 0x08ba4799; 0x6e85076a; 0x4b7a70e9; 0xb5b32944;
   0xdb75092e; 0xc4192623; 0xad6ea6b0; 0x49a7df7d; 0x9cee60b8; 0x8fedb266;
   0xecaa8c71; 0x699a17ff; 0x5664526c; 0xc2b19ee1; 0x193602a5; 0x75094c29;
   0xa0591340; 0xe4183a3e; 0x3f54989a; 0x5b429d65; 0x6b8fe4d6; 0x99f73fd6;
   0xa1d29c07; 0xefe830f5; 0x4d2d38e6; 0xf0255dc1; 0x4cdd2086; 0x8470eb26;
   0x6382e9c6; 0x021ecc5e; 0x09686b3f; 0x3ebaefc9; 0x3c971814; 0x6b6a70a1;
   0x687f3584; 0x52a0e286; 0xb79c5305; 0xaa500737; 0x3e07841c; 0x7fdeae5c;
   0x8e7d44ec; 0x5716f2b8; 0xb03ada37; 0xf0500c0d; 0xf01c1f04; 0x0200b3ff;
   0xae0cf51a; 0x3cb574b2; 0x25837a58; 0xdc0921bd; 0xd19113f9; 0x7ca92ff6;
   0x94324773; 0x22f54701; 0x3ae5e581; 0x37c2dadc; 0xc8b57634; 0x9af3dda7;
   0xa9446146; 0x0fd0030e; 0xecc8c73e; 0xa4751e41; 0xe238cd99; 0x3bea0e2f;
   0x3280bba1; 0x183eb331; 0x4e548b38; 0x4f6db908; 0x6f420d03; 0xf60a04bf;
   0x2cb81290; 0x24977c79; 0x5679b072; 0xbcaf89af; 0xde9a771f; 0xd9930810;
   0xb38bae12; 0xdccf3f2e; 0x5512721f; 0x2e6b7124; 0x501adde6; 0x9f84cd87;
   0x7a584718; 0x7408da17; 0xbc9f9abc; 0xe94b7d8c; 0xec7aec3a; 0xdb851dfa;
   0x63094366; 0xc464c3d2; 0xef1c1847; 0x3215d908; 0xdd433b37; 0x24c2ba16;
   0x12a14d43; 0x2a65c451; 0x50940002; 0x133ae4dd; 0x71dff89e; 0x10314e55;
   0x81ac77d6; 0x5f11199b; 0x043556f1; 0xd7a3c76b; 0x3c11183b; 0x5924a509;
   0xf28fe6ed; 0x97f1fbfa; 0x9ebabf2c; 0x1e153c6e; 0x86e34570; 0xeae96fb1;
   0x860e5e0a; 0x5a3e2ab3; 0x771fe71c; 0x4e3d06fa; 0x2965dcb9; 0x99e71d0f;
   0x803e89d6; 0x5266c825; 0x2e4cc978; 0x9c10b36a; 0xc6150eba; 0x94e2ea78;
   0xa5fc3c53; 0x1e0a2df4; 0xf2f74ea7; 0x361d2b3d; 0x1939260f; 0x19c27960;
   0x5223a708; 0xf71312b6; 0xebadfe6e; 0xeac31f66; 0xe3bc4595; 0xa67bc883;
   0xb17f37d1; 0x018cff28; 0xc332ddef; 0xbe6c5aa5; 0x65582185; 0x68ab9802;
   0xeecea50f; 0xdb2f953b; 0x2aef7dad; 0x5b6e2f84; 0x1521b628; 0x29076170;
   0xecdd4775; 0x619f1510; 0x13cca830; 0xeb61bd96; 0x0334fe1e; 0xaa0363cf;
   0xb5735c90; 0x4c70a239; 0xd59e9e0b; 0xcbaade14; 0xeecc86bc; 0x60622ca7;
   0x9cab5cab; 0xb2f3846e; 0x648b1eaf; 0x19bdf0ca; 0xa02369b9; 0x655abb50;
   0x40685a32; 0x3c2ab4b3; 0x319ee9d5; 0xc021b8f7; 0x9b540b19; 0x875fa099;
   0x95f7997e; 0x623d7da8; 0xf837889a; 0x97e32d77; 0x11ed935f; 0x16681281;
   0x0e358829; 0xc7e61fd6; 0x96dedfa1; 0x7858ba99; 0x57f584a5; 0x1b227263;
   0x9b83c3ff; 0x1ac24696; 0xcdb30aeb; 0x532e3054; 0x8fd948e4; 0x6dbc3128;
   0x58ebf2ef; 0x34c6ffea; 0xfe28ed61; 0xee7c3c73; 0x5d4a14d9; 0xe864b7e3;
   0x42105d14; 0x203e13e0; 0x45eee2b6; 0xa3aaabea; 0xdb6c4f15; 0xfacb4fd0;
   0xc742f442; 0xef6abbb5; 0x654f3b1d; 0x41cd2105; 0xd81e799e; 0x86854dc7;
   0xe44b476a; 0x3d816250; 0xcf62a1f2; 0x5b8d2646; 0xfc8883a0; 0xc1c7b6a3;
   0x7f1524c3; 0x69cb7492; 0x47848a0b; 0x5692b285; 0x095bbf00; 0xad19489d;
   0x1462b174; 0x23820e00; 0x58428d2a; 0x0c55f5ea; 0x1dadf43e; 0x233f7061;
   0x3372f092; 0x8d937e41; 0xd65fecf1; 0x6c223bdb; 0x7cde3759; 0xcbee7460;
   0x4085f2a7; 0xce77326e; 0xa6078084; 0x19f8509e; 0xe8efd855; 0x61d99735;
   0xa969a7aa; 0xc50c06c2; 0x5a04abfc; 0x800bcadc; 0x9e447a2e; 0xc3453484;
   0xfdd56705; 0x0e1e9ec9; 0xdb73dbd3; 0x105588cd; 0x675fda79; 0xe3674340;
   0xc5c43465; 0x713e38d8; 0x3d28f89e; 0xf16dff20; 0x153e21e7; 0x8fb03d4a;
   0xe6e39f2b; 0xdb83adf7; 0xe93d5a68; 0x948140f7; 0xf64c261c; 0x94692934;
   0x411520f7; 0x7602d4f7; 0xbcf46b2e; 0xd4a20068; 0xd4082471; 0x3320f46a;
   0x43b7d4b7; 0x500061af; 0x1e39f62e; 0x97244546; 0x14214f74; 0xbf8b8840;
   0x4d95fc1d; 0x96b591af; 0x70f4ddd3; 0x66a02f45; 0xbfbc09ec; 0x03bd9785;
   0x7fac6dd0; 0x31cb8504; 0x96eb27b3; 0x55fd3941; 0xda2547e6; 0xabca0a9a;
   0x28507825; 0x530429f4; 0x0a2c86da; 0xe9b66dfb; 0x68dc1462; 0xd7486900;
   0x680ec0a4; 0x27a18dee; 0x4f3ffea2; 0xe887ad8c; 0xb58ce006; 0x7af4d6b6;
   0xaace1e7c; 0xd3375fec; 0xce78a399; 0x406b2a42; 0x20fe9e35; 0xd9f385b9;
   0xee39d7ab; 0x3b124e8b; 0x1dc9faf7; 0x4b6d1856; 0x26a36631; 0xeae397b2;
   0x3a6efa74; 0xdd5b4332; 0x6841e7f7; 0xca7820fb; 0xfb0af54e; 0xd8feb397;
   0x454056ac; 0xba489527; 0x55533a3a; 0x20838d87; 0xfe6ba9b7; 0xd096954b;
   0x55a867bc; 0xa1159a58; 0xcca92963; 0x99e1db33; 0xa62a4a56; 0x3f3125f9;
   0x5ef47e1c; 0x9029317c; 0xfdf8e802; 0x04272f70; 0x80bb155c; 0x05282ce3;
   0x95c11548; 0xe4c66d22; 0x48c1133f; 0xc70f86dc; 0x07f9c9ee; 0x41041f0f;
   0x404779a4; 0x5d886e17; 0x325f51eb; 0xd59bc0d1; 0xf2bcc18f; 0x41113564;
   0x257b7834; 0x602a9c60; 0xdff8e8a3; 0x1f636c1b; 0x0e12b4c2; 0x02e1329e;
   0xaf664fd1; 0xcad18115; 0x6b2395e0; 0x333e92e1; 0x3b240b62; 0xeebeb922;
   0x85b2a20e; 0xe6ba0d99; 0xde720c8c; 0x2da2f728; 0xd0127845; 0x95b794fd;
   0x647d0862; 0xe7ccf5f0; 0x5449a36f; 0x877d48fa; 0xc39dfd27; 0xf33e8d1e;
   0x0a476341; 0x992eff74; 0x3a6f6eab; 0xf4f8fd37; 0xa812dc60; 0xa1ebddf8;
   0x991be14c; 0xdb6e6b0d; 0xc67b5510; 0x6d672c37; 0x2765d43b; 0xdcd0e804;
   0xf1290dc7; 0xcc00ffa3; 0xb5390f92; 0x690fed0b; 0x667b9ffb; 0xcedb7d9c;
   0xa091cf0b; 0xd9155ea3; 0xbb132f88; 0x515bad24; 0x7b9479bf; 0x763bd6eb;
   0x37392eb3; 0xcc115979; 0x8026e297; 0xf42e312d; 0x6842ada7; 0xc66a2b3b;
   0x12754ccc; 0x782ef11c; 0x6a124237; 0xb79251e7; 0x06a1bbe6; 0x4bfb6350;
   0x1a6b1018; 0x11caedfa; 0x3d25bdd8; 0xe2e1c3c9; 0x44421659; 0x0a121386;
   0xd90cec6e; 0xd5abea2a; 0x64af674e; 0xda86a85f; 0xbebfe988; 0x64e4c3fe;
   0x9dbc8057; 0xf0f7c086; 0x60787bf8; 0x6003604d; 0xd1fd8346; 0xf6381fb0;
   0x7745ae04; 0xd736fccc; 0x83426b33; 0xf01eab71; 0xb0804187; 0x3c005e5f;
   0x77a057be; 0xbde8ae24; 0x55464299; 0xbf582e61; 0x4e58f48f; 0xf2ddfda2;
   0xf474ef38; 0x8789bdc2; 0x5366f9c3; 0xc8b38e74; 0xb475f255; 0x46fcd9b9;
   0x7aeb2661; 0x8b1ddf84; 0x846a0e79; 0x915f95e2; 0x466e598e; 0x20b45770;
   0x8cd55591; 0xc902de4c; 0xb90bace1; 0xbb8205d0; 0x11a86248; 0x7574a99e;
   0xb77f19b6; 0xe0a9dc09; 0x662d09a1; 0xc4324633; 0xe85a1f02; 0x09f0be8c;
   0x4a99a025; 0x1d6efe10; 0x1ab93d1d; 0x0ba5a4df; 0xa186f20f; 0x2868f169;
   0xdcb7da83; 0x573906fe; 0xa1e2ce9b; 0x4fcd7f52; 0x50115e01; 0xa70683fa;
   0xa002b5c4; 0x0de6d027; 0x9af88c27; 0x773f8641; 0xc3604c06; 0x61a806b5;
   0xf0177a28; 0xc0f586e0; 0x006058aa; 0x30dc7d62; 0x11e69ed7; 0x2338ea63;
   0x53c2dd94; 0xc2c21634; 0xbbcbee56; 0x90bcb6de; 0xebfc7da1; 0xce591d76;
   0x6f05e409; 0x4b7c0188; 0x39720a3d; 0x7c927c24; 0x86e3725f; 0x724d9db9;
   0x1ac15bb4; 0xd39eb8fc; 0xed545578; 0x08fca5b5; 0xd83d7cd3; 0x4dad0fc4;
   0x1e50ef5e; 0xb161e6f8; 0xa28514d9; 0x6c51133c; 0x6fd5c7e7; 0x56e14ec4;
   0x362abfce; 0xddc6c837; 0xd79a3234; 0x92638212; 0x670efa8e; 0x406000e0;
   0x3a39ce37; 0xd3faf5cf; 0xabc27737; 0x5ac52d1b; 0x5cb0679e; 0x4fa33742;
   0xd3822740; 0x99bc9bbe; 0xd5118e9d; 0xbf0f7315; 0xd62d1c7e; 0xc700c47b;
   0xb78c1b6b; 0x21a19045; 0xb26eb1be; 0x6a366eb4; 0x5748ab2f; 0xbc946e79;
   0xc6a376d2; 0x6549c2c8; 0x530ff8ee; 0x468dde7d; 0xd5730a1d; 0x4cd04dc6;
   0x2939bbdb; 0xa9ba4650; 0xac9526e8; 0xbe5ee304; 0xa1fad5f0; 0x6a2d519a;
   0x63ef8ce2; 0x9a86ee22; 0xc089c2b8; 0x43242ef6; 0xa51e03aa; 0x9cf2d0a4;
   0x83c061ba; 0x9be96a4d; 0x8fe51550; 0xba645bd6; 0x2826a2f9; 0xa73a3ae1;
   0x4ba99586; 0xef5562e9; 0xc72fefd3; 0xf752f7da; 0x3f046f69; 0x77fa0a59;
   0x80e4a915; 0x87b08601; 0x9b09e6ad; 0x3b3ee593; 0xe990fd5a; 0x9e34d797;
   0x2cf0b7d9; 0x022b8b51; 0x96d5ac3a; 0x017da67d; 0xd1cf3ed6; 0x7c7d2d28;
   0x1f9f25cf; 0xadf2b89b; 0x5ad6b472; 0x5a88f54c; 0xe029ac71; 0xe019a5e6;
   0x47b0acfd; 0xed93fa9b; 0xe8d3c48d; 0x283b57cc; 0xf8d56629; 0x79132e28;
   0x785f0191; 0xed756055; 0xf7960e44; 0xe3d35e8c; 0x15056dd4; 0x88f46dba;
   0x03a16125; 0x0564f0bd; 0xc3eb9e15; 0x3c9057a2; 0x97271aec; 0xa93a072a;
   0x1b3f6d9b; 0x1e6321f5; 0xf59c66fb; 0x26dcf319; 0x7533d928; 0xb155fdf5;
   0x03563482; 0x8aba3cbb; 0x28517711; 0xc20ad9f8; 0xabcc5167; 0xccad925f;
   0x4de81751; 0x3830dc8e; 0x379d5862; 0x9320f991; 0xea7a90c2; 0xfb3e7bce;
   0x5121ce64; 0x774fbe32; 0xa8b6e37e; 0xc3293d46; 0x48de5369; 0x6413e680;
   0xa2ae0810; 0xdd6db224; 0x69852dfd; 0x09072166; 0xb39a460a; 0x6445c0dd;
   0x586cdecf; 0x1c20c8ae; 0x5bbef7dd; 0x1b588d40; 0xccd2017f; 0x6bb4e3bb;
   0xdda26a7e; 0x3a59ff45; 0x3e350a44; 0xbcb4cdd5; 0x72eacea8; 0xfa6484bb;
   0x8d6612ae; 0xbf3c6f47; 0xd29be463; 0x542f5d9e; 0xaec2771b; 0xf64e6370;
   0x740e0d8d; 0xe75b1357; 0xf8721671; 0xaf537d5d; 0x4040cb08; 0x4eb4e2cc;
   0x34d2466a; 0x0115af84; 0xe1b00428; 0x95983a1d; 0x06b89fb4; 0xce6ea048;
   0x6f3f3b82; 0x3520ab82; 0x011a1d4b; 0x277227f8; 0x611560b1; 0xe7933fdc;
   0xbb3a792b; 0x344525bd; 0xa08839e1; 0x51ce794b; 0x2f32c9b7; 0xa01fbac9;
   0xe01cc87e; 0xbcc7d1f6; 0xcf0111c3; 0xa1e8aac7; 0x1a908749; 0xd44fbd9a;
   0xd0dadecb; 0xd50ada38; 0x0339c32a; 0xc6913667; 0x8df9317c; 0xe0b12b4f;
   0xf79e59b7; 0x43f5bb3a; 0xf2d519ff; 0x27d9459c; 0xbf97222c; 0x15e6fc2a;
   0x0f91fc71; 0x9b941525; 0xfae59361; 0xceb69ceb; 0xc2a86459; 0x12baa8d1;
   0xb6c1075e; 0xe3056a0c; 0x10d25065; 0xcb03a442; 0xe0ec6e0e; 0x1698db3b;
   0x4c98a0be; 0x3278e964; 0x9f1f9532; 0xe0d392df; 0xd3a0342b; 0x8971f21e;
   0x1b0a7441; 0x4ba3348c; 0xc5be7120; 0xc37632d8; 0xdf359f8d; 0x9b992f2e;
   0xe60b6f47; 0x0fe3f11d; 0xe54cda54; 0x1edad891; 0xce6279cf; 0xcd3e7e6f;
   0x1618b166; 0xfd2c1d05; 0x848fd2c5; 0xf6fb2299; 0xf523f357; 0xa6327623;
   0x93a83531; 0x56cccd02; 0xacf08162; 0x5a75ebb5; 0x6e163697; 0x88d273cc;
   0xde966292; 0x81b949d0; 0x4c50901b; 0x71c65614; 0xe6c6c7bd; 0x327a140a;
   0x45e1d006; 0xc3f27b9a; 0xc9aa53fd; 0x62a80f00; 0xbb25bfe2; 0x35bdd2f6;
   0x71126905; 0xb2040222; 0xb6cbcf7c; 0xcd769c2b; 0x53113ec0; 0x1640e3d3;
   0x38abbd60; 0x2547adf0; 0xba38209c; 0xf746ce76; 0x77afa1c5; 0x20756060;
   0x85cbfe4e; 0x8ae88dd8; 0x7aaaf9b0; 0x4cf9aa7e; 0x1948c25c; 0x02fb8a8c;
   0x01c36ae4; 0xd6ebe1f9; 0x90d4f869; 0xa65cdea0; 0x3f09252d; 0xc208e69f;
   0xb74e6132; 0xce77e25b; 0x578fdfe3; 0x3ac372e6
  ].

(** blf_ctx: [S[i][k]] is kept at index 256 * i + k. *)
Record blf_ctx := { P : array int; S : array int }.

Definition u32 (n : int) : int := n land 0xFFFFFFFF.

Definition idx (i : nat) : int := Uint63.of_Z (Z.of_nat i).

Definition fill (a : array int) (l : list int) : array int :=
  snd (fold_left (fun '(i, a) w => (i + 1, a.[i <- w])) l (0, a)).

Definition Blowfish_initstate : blf_ctx :=
  {| P := fill (make 18 0) (take 18 pi_words);
     S := fill (make 1024 0) (drop 18 pi_words) |}.

(** The macro F *)
Definition F (c : blf_ctx) (x : int) : int :=
  u32 ((u32 ((S c).[x >> 24] + (S c).[0x100 + ((x >> 16) land 0xFF)])
        lxor (S c).[0x200 + ((x >> 8) land 0xFF)])
       + (S c).[0x300 + (x land 0xFF)]).

(** Blowfish_encipher: sixteen rounds, two to a step. *)
Definition Blowfish_encipher (c : blf_ctx) (x : int * int) : int * int :=
  let '(xl, xr) := x in
  let '(xl, xr) :=
    fold_left (fun '(xl, xr) i =>
                 let xr := xr lxor (F c xl lxor (P c).[i]) in
                 let xl := xl lxor (F c xr lxor (P c).[i + 1]) in
                 (xl, xr))
              [1; 3; 5; 7; 9; 11; 13; 15] (xl lxor (P c).[0], xr) in
  (xr lxor (P c).[17], xl).

Definition byte_int (b : byte) : int := Uint63.of_Z (Z.of_N (Byte.to_N b)).

Definition int_byte (w : int) : byte :=
  match Byte.of_N (Z.to_N (Uint63.to_Z (w land 0xFF))) with
  | Some b => b
  | None => x00
  end.

(** Blowfish_stream2word at position j: four bytes of the data, which is
    read in a circle. *)
Definition Blowfish_stream2word (data : list byte) (j : nat) : int :=
  fold_left (fun temp i =>
               (temp << 8)
                 lor byte_int (nth ((j + i) mod List.length data)%nat data x00))
            (seq 0 4) 0.

(** The body that Blowfish_expandstate and Blowfish_expand0state share:
    the key is mixed into the P-array, then the P-array and the S-boxes are
    replaced two words at a time by the encipherment of the two words
    before, with the data, if there is one, mixed in. *)
Definition expand (data : option (list byte)) (key : list byte) (c : blf_ctx)
  : blf_ctx :=
  let mix (t : nat) (x : int * int) : int * int :=
    match data with
    | Some d => (fst x lxor Blowfish_stream2word d (8 * t)%nat,
                 snd x lxor Blowfish_stream2word d (8 * t + 4)%nat)
    | None => x
    end in
  let c := {| P := fold_left (fun p i =>
                      p.[idx i <- p.[idx i] lxor Blowfish_stream2word key (4 * i)%nat])
                    (seq 0 18) (P c);
              S := S c |} in
  let '(c, x) :=
    fold_left (fun '(c, x) (t : nat) =>
                 let x := Blowfish_encipher c (mix t x) in
                 let i := idx (2 * t) in
                 ({| P := (P c).[i <- fst x].[i + 1 <- snd x]; S := S c |}, x))
              (seq 0 9) (c, (0, 0)) in
  fst (fold_left (fun '(c, x) (t : nat) =>
                    let x := Blowfish_encipher c (mix (9 + t)%nat x) in
                    let k := idx (2 * t) in
                    ({| P := P c; S := (S c).[k <- fst x].[k + 1 <- snd x] |}, x))
                 (seq 0 512) (c, x)).

Definition Blowfish_expandstate (c : blf_ctx) (data key : list byte) : blf_ctx :=
  expand (Some data) key c.

Definition Blowfish_expand0state (c : blf_ctx) (key : list byte) : blf_ctx :=
  expand None key c.

(** blf_enc *)
Definition blf_enc (c : blf_ctx) (data : list (int * int)) : list (int * int) :=
  map (Blowfish_encipher c) data.

Definition word_bytes (w : int) : list byte :=
  [int_byte (w >> 24); int_byte (w >> 16); int_byte (w >> 8); int_byte w].

(** "OrpheanBeholderScryDoubt" *)
Definition magic : list byte :=
  [x4f; x72; x70; x68; x65; x61; x6e; x42; x65; x68; x6f; x6c;
   x64; x65; x72; x53; x63; x72; x79; x44; x6f; x75; x62; x74].

(** The part of [bcrypt] between the reading of the salt string and the
    writing of the hash string: the key schedule with 2^logr rounds of
    expansion by the key and by the salt, and the magic text enciphered 64
    times; 24 bytes.  The key is what [bcrypt] may read of it. *)
Definition eksblowfish (logr : N) (csalt : list byte) (key_len : N) (key : list byte)
  : list byte :=
  let state := Blowfish_expandstate Blowfish_initstate csalt key in
  let state :=
    N.iter (2 ^ logr)
           (fun state => Blowfish_expand0state (Blowfish_expand0state state key) csalt)
           state in
  let cdata := map (fun i => (Blowfish_stream2word magic (8 * i)%nat,
                              Blowfish_stream2word magic (8 * i + 4)%nat))
                   (seq 0 3) in
  let cdata := N.iter 64 (blf_enc state) cdata in
  flat_map (fun x => word_bytes (fst x) ++ word_bytes (snd x)) cdata.

(** The primitives with this Blowfish; the conversion of strings to
    numbers stays open. *)
Definition primitives (StringToNumber : JS.jsstring -> JS.value) : Bcrypt.Primitives :=
  {| Bcrypt.eksblowfish := eksblowfish; Bcrypt.StringToNumber := StringToNumber |}.

End Blf.

(** ** src/common/security/hash.security.js *)

Module HashSecurity.
Import JS Runtime Bcrypt.

Section WithConfig.
Context `{Primitives}.
(** [SALT_ROUND] of config/config.service.js. *)
Variable SALT_ROUND : value.

(** [Number(v)] *)
Definition Number (v : value) : value :=
  match v with
  | VUndefined => VNaN
  | VNull => VNumber 0
  | VBool b => VNumber (if b then 1 else 0)
  | VNumber _ | VNaN => v
  | VString s => StringToNumber s
  end.

Definition hashPassword (password : value) : M jsstring :=
  Bcrypt.hash password (Number SALT_ROUND).

Definition comparePassword (password hashedPassword : value) : result bool :=
  Bcrypt.compare password hashedPassword.

End WithConfig.

End HashSecurity.

(** ** The user model and the repository functions (src/db)

    Of the schema, the paths the services deal with are
    modelled: the four required strings and the optional phone with its
    setter and getter.  Casting of values that are not strings, the remaining
    optional paths, defaults, virtuals, _id and timestamps are left out:
    [new_document] is what the model does with data whose fields are among
    these five and hold strings, and what is said of the document stored for
    a request is said of such data. *)

Module UserModel.
Import JS Runtime EncryptionSecurity.

(** [obj.name] *)
Definition prop (obj : document) (name : string) : value :=
  default VUndefined (obj !! name).

(** WhiteSpace and LineTerminator of ECMAScript: what the trim option of a
    String path, which is String.prototype.trim, removes. *)
Definition is_white (c : N) : bool :=
  bool_decide (c ∈ [0x9; 0xA; 0xB; 0xC; 0xD; 0x20; 0xA0; 0x1680; 0x2028; 0x2029;
                    0x202F; 0x205F; 0x3000; 0xFEFF])
  || ((0x2000 <=? c) && (c <=? 0x200A)).

Fixpoint trim_start (s : jsstring) : jsstring :=
  match s with
  | c :: rest => if is_white c then trim_start rest else s
  | [] => []
  end.

(** [s.trim()] *)
Definition trim (s : jsstring) : jsstring :=
  reverse (trim_start (reverse (trim_start s))).

Section WithConfig.
Variable securityKey : value.

(** [phone.set] *)
Definition phone_set (value : value) : M JS.value :=
  if falsy value then mret value
  else s ← encryptData securityKey value; mret (VString s).

(** [phone.get] *)
Definition phone_get (value : value) : result JS.value :=
  s ← decryptData securityKey value; Ok (VString s).

(** firstName and lastName: trim, required, 2 to 25 characters. *)
Definition name_path (data : document) (path : string) : result value :=
  match data !! path with
  | Some (VString s) =>
    let s := trim s in
    if ((length s <? 2) || (25 <? length s))%nat then Throw (ValidationError path)
    else Ok (VString s)
  | _ => Throw (ValidationError path)
  end.

(** email and password: required. *)
Definition required_path (data : document) (path : string) : result value :=
  match data !! path with
  | Some (VString (c :: s)) => Ok (VString (c :: s))
  | _ => Throw (ValidationError path)
  end.

(** [new UserModel(data)] and its validation: only paths of the schema
    are kept, a phone that is given goes through the setter. *)
Definition new_document (data : document) : M document :=
  phone ← match data !! "phone" with
          | Some v => v' ← phone_set v; mret (Some v')
          | None => mret None
          end;
  lift (firstName ← name_path data "firstName";
        lastName ← name_path data "lastName";
        email ← required_path data "email";
        password ← required_path data "password";
        let doc : document :=
          <["firstName" := firstName]>
            (<["lastName" := lastName]>
               (<["email" := email]> (<["password" := password]> ∅))) in
        Ok (match phone with
            | Some v => <["phone" := v]> doc
            | None => doc
            end)).

(** [doc.toObject()] with getters: every path with a getter is read
    through it, also when the document has no value there. *)
Definition toObject (doc : document) : result document :=
  phone ← phone_get (prop doc "phone");
  Ok (<["phone" := phone]> doc).

(** [findOne(UserModel, { email })] *)
Definition findOne (email : value) : M (option document) := fun w =>
  (Ok (List.find (fun d => bool_decide (prop d "email" = email)) (users w)), w).

(** [create(UserModel, data)], that is [UserModel.create([data])]: the
    created documents.  The index on email is unique. *)
Definition create (data : document) : M (list document) :=
  doc ← new_document data;
  taken ← findOne (prop doc "email");
  match taken with
  | Some _ => throw (DuplicateKey "email")
  | None => fun w =>
    (Ok [doc],
     {| pool := pool w; cursor := cursor w; users := users w ++ [doc] |})
  end.

End WithConfig.

End UserModel.

(** ** src/modules/user/user.service.js *)

Module UserService.
Import JS Runtime Bcrypt HashSecurity UserModel.

(** [throwError] of common/utils/throwError.utils.js *)
Definition throwError {A} (errorMessage : string) (statusCode : Z) : M A :=
  throw (ApiError errorMessage statusCode).

Section WithConfig.
Context `{Primitives}.
Variables securityKey SALT_ROUND : value.

Definition signup (inputs : document) : M (list document) :=
  checkUserExist ← findOne (prop inputs "email");
  _ ← match checkUserExist with
      | Some _ => throwError "email already exist" 409
      | None => mret tt
      end;
  hashedPassword ← hashPassword SALT_ROUND (prop inputs "password");
  let inputs := <["password" := VString hashedPassword]> inputs in
  user ← create securityKey inputs;
  mret user.

Definition login (inputs : document) : M document :=
  found ← findOne (prop inputs "email");
  match found with
  | None => throwError "Invalid email or password" 404
  | Some user =>
    isPasswordValid ← lift (comparePassword (prop inputs "password")
                                            (prop user "password"));
    if negb isPasswordValid then throwError "Invalid email or password" 401
    else
      userObject ← lift (toObject securityKey user);
      mret (delete "password" userObject)
  end.

End WithConfig.

End UserService.

(** ** Configuration *)

Module Config.
Import JS.

Record config := { securityKey : value; SALT_ROUND : value }.

Definition is_digit (c : N) : bool := (48 <=? c) && (c <=? 57).

Definition decimal (s : jsstring) : Z :=
  fold_left (fun acc c => acc * 10 + Z.of_N (c - 48))%Z s 0%Z.

(** A decimal numeral of a positive integer. *)
Definition positive_integer (s : jsstring) : option Z :=
  match s with
  | [] => None
  | _ => if forallb is_digit s && (0 <? decimal s)%Z then Some (decimal s) else None
  end.

(** 64 hexadecimal characters, that is 32 bytes. *)
Definition valid_key (k : jsstring) : bool :=
  Hex.is_hex k && Nat.eqb (length (Hex.decode k)) 32.

(** Modelled from the spec: the loading of config/config.service.js, a
    file that is not among the sources.  The spec (sections 3, 6 and 7)
    has ENCRYPTION_KEY be 64 hexadecimal characters and HASH_COST_FACTOR a
    positive integer, and has an absent or malformed value fail with
    ConfigurationError before the dependent component exists. *)
Definition loadConfiguration (env : gmap string jsstring) : result config :=
  match env !! "ENCRYPTION_KEY", env !! "HASH_COST_FACTOR" with
  | Some k, Some c =>
    if valid_key k then
      match positive_integer c with
      | Some n => Ok {| securityKey := VString k; SALT_ROUND := VNumber n |}
      | None => Throw ConfigurationError
      end
    else Throw ConfigurationError
  | _, _ => Throw ConfigurationError
  end.

(** The two components that depend on the configuration, as they exist
    after startup: the source functions applied to the loaded values. *)
Record services `{Bcrypt.Primitives} := {
  encrypt : value -> Runtime.M jsstring;
  decrypt : value -> result jsstring;
  hash : value -> Runtime.M jsstring;
  verify : value -> value -> result bool
}.

Definition initialize `{Bcrypt.Primitives} (env : gmap string jsstring)
  : result services :=
  cfg ← loadConfiguration env;
  Ok {| encrypt := EncryptionSecurity.encryptData (securityKey cfg);
        decrypt := EncryptionSecurity.decryptData (securityKey cfg);
        hash := HashSecurity.hashPassword (SALT_ROUND cfg);
        verify := HashSecurity.comparePassword |}.

End Config.

(** ** Sample values

    The key of the spec's concrete scenario, a supply of random bytes, and
    simple stand-ins for the two primitives left open. *)

Module Sample.
Import Bytes JS Runtime.

Definition key : value :=
  VString (js "0000000000000000000000000000000000000000000000000000000000000001").

Definition world0 : world :=
  {| pool := fun i => byte_of_N (N.of_nat (7 * i + 3)); cursor := 0; users := [] |}.

Definition primitives : Bcrypt.Primitives :=
  {| Bcrypt.eksblowfish := fun logr salt klen key =>
       take 23 (xor_bytes (key ++ replicate 23 x00) (salt ++ salt));
     Bcrypt.StringToNumber := fun s =>
       match Config.positive_integer s with
       | Some n => VNumber n
       | None => VNaN
       end |}.

(** The primitives with the Blowfish of the bcrypt package. *)
Definition blowfish : Bcrypt.Primitives :=
  Blf.primitives (@Bcrypt.StringToNumber primitives).

Definition phone : jsstring := js "+15551234567".

(** The body of a signup request, and of the login that follows it. *)
Definition registration : document :=
  <["firstName" := VString (js "Mina")]>
    (<["lastName" := VString (js "Nasr")]>
       (<["email" := VString (js "mina@example.com")]>
          (<["password" := VString (js "secret")]> ∅))).


(** The environment of a process that is configured as the spec asks. *)
Definition environment : gmap string jsstring :=
  <["ENCRYPTION_KEY" :=
      js "0000000000000000000000000000000000000000000000000000000000000001"]>
    (<["HASH_COST_FACTOR" := js "10"]> ∅).

(** Two passwords of 74 bytes that differ in the last one. *)
Definition long_password (last : N) : jsstring := replicate 73 97 ++ [last].

(** encryptData of [phone] under [key] in [world0]. *)
Definition encoded_phone : jsstring :=
  js "030a11181f262d343b424950:ca59b663075706d8b900a2bdc2ce43f4:b403c40972fa2a772c8bfb7d".

(** A text of 32 characters, and encryptData of it under [key] in [world0]:
    the tag of its 32 bytes of content is also the tag of the first 16. *)
Definition chosen_text : jsstring := js "kvudxgwhqzznaixx0Prn4F`8-2ZC-`?3".

Definition encoded_chosen_text : jsstring :=
  js "030a11181f262d343b424950:110b9b3f5f25a9b6df50a05545918543:f44484583fac6f2c69c4b7246b97d97f72199ae0df41d7f5c9fd08e0dbfea076".

End Sample.

(** ** Enumerations, for counting passwords and digests *)

Module Counting.
Import Bytes JS.

(** All the lists of length n over an alphabet, and all those of length at
    most m. *)
Fixpoint words {A} (alphabet : list A) (n : nat) : list (list A) :=
  match n with
  | O => [[]]
  | S n' => flat_map (fun c => map (cons c) (words alphabet n')) alphabet
  end.

Fixpoint words_upto {A} (alphabet : list A) (m : nat) : list (list A) :=
  match m with
  | O => words alphabet 0
  | S m' => words_upto alphabet m' ++ words alphabet (S m')
  end.

Definition all_bytes : list byte := map (fun i => byte_of_N (N.of_nat i)) (seq 0 256).

(** The letters a to p. *)
Definition letters : list N := map (fun i => 97 + N.of_nat i) (seq 0 16).

End Counting.

(** ** Strings with lone surrogates *)

Module WellFormed.
Import JS.

(** [s.toWellFormed()]: every lone surrogate replaced by U+FFFD. *)
Fixpoint toWellFormed (s : jsstring) : jsstring :=
  match s with
  | [] => []
  | c :: rest =>
    if Utf8.is_high c then
      match rest with
      | d :: rest' =>
        if Utf8.is_low d then c :: d :: toWellFormed rest'
        else 0xFFFD :: toWellFormed rest
      | [] => [0xFFFD]
      end
    else if Utf8.is_low c then 0xFFFD :: toWellFormed rest
    else c :: toWellFormed rest
  end.

(** The code units of a string are below 2^16. *)
Definition code_units (s : jsstring) : Prop := Forall (fun c => c < 0x10000) s.

End WellFormed.

(** ** Variants of an encoded string, for stating the properties *)

Module Variants.
Import JS.

(** The hexadecimal digits a to f written as A to F. *)
Definition upper_digit (c : N) : N :=
  if (97 <=? c) && (c <=? 102) then c - 32 else c.

Definition upper_digits (s : jsstring) : jsstring := map upper_digit s.

(** [segments.join(':')] *)
Fixpoint join (segments : list jsstring) : jsstring :=
  match segments with
  | [] => []
  | [s] => s
  | s :: rest => s ++ colon :: join rest
  end.

(** The encoded string with its tag segment cut down to n bytes. *)
Definition shorten_tag (n : nat) (s : jsstring) : jsstring :=
  match split colon s with
  | [iv; tag; content] => join [iv; take (2 * n) tag; content]
  | _ => s
  end.

End Variants.

(** ** The repository functions of src/db

    The functions take a model and a query.  The model is the users
    collection of the world, in the order of insertion; a query is taken as
    the set of the documents it matches.  Projection, sorting and population
    are the defaults (none). *)

Module Repository.
Import JS Runtime.

Record pagination := {
  docs : list document;
  totalDocs : nat;
  limit : nat;
  page : nat;
  totalPages : nat;
  hasNextPage : bool;
  hasPrevPage : bool
}.

Section WithQuery.
Variable query : document -> bool.

(** [findOne(model, query)] *)
Definition findOne : M (option document) := fun w =>
  (Ok (List.find query (users w)), w).

(** [findAll(model, query, { limit, skip })]: a limit of 0, which is also
    what a limit that is not given becomes, is no limit. *)
Definition findAll (limit skip : nat) : M (list document) := fun w =>
  let found := drop skip (List.filter query (users w)) in
  (Ok (if Nat.eqb limit 0 then found else take limit found), w).

(** [count(model, query)] *)
Definition count : M nat := fun w =>
  (Ok (length (List.filter query (users w))), w).

(** [exists(model, query)] *)
Definition exists_ : M bool := fun w =>
  let doc := List.find query (users w) in
  (Ok (match doc with Some _ => true | None => false end), w).

(** [paginate(model, query, page, limit)] for a page number and a page size
    that are positive integers. *)
Definition paginate (page limit : positive) : M pagination := fun w =>
  let page := Pos.to_nat page in
  let limit := Pos.to_nat limit in
  let skip := ((page - 1) * limit)%nat in
  let totalDocs := length (List.filter query (users w)) in
  let docs := take limit (drop skip (List.filter query (users w))) in
  (Ok {| docs := docs;
         totalDocs := totalDocs;
         limit := limit;
         page := page;
         totalPages := ((totalDocs + limit - 1) / limit)%nat;
         hasNextPage := (page * limit <? totalDocs)%nat;
         hasPrevPage := (1 <? page)%nat |}, w).

(** The documents of a page, and the number of pages. *)
Definition page_docs (page limit : positive) (w : world) : list document :=
  match fst (paginate page limit w) with
  | Ok r => docs r
  | Throw _ => []
  end.

Definition page_count (limit : positive) (w : world) : nat :=
  match fst (paginate 1 limit w) with
  | Ok r => totalPages r
  | Throw _ => 0
  end.

End WithQuery.

End Repository.

(** ** The virtual userName of the schema *)

Module UserName.
Import JS Runtime.

(** WhiteSpace and LineTerminator of ECMAScript, which trim removes. *)
Definition white_space (c : N) : bool :=
  bool_decide (c ∈ [0x9; 0xA; 0xB; 0xC; 0xD; 0x20; 0xA0; 0x1680; 0x2028; 0x2029;
                    0x202F; 0x205F; 0x3000; 0xFEFF])
  || ((0x2000 <=? c) && (c <=? 0x200A)).

Fixpoint trim_start (s : jsstring) : jsstring :=
  match s with
  | c :: rest => if white_space c then trim_start rest else s
  | [] => []
  end.

(** [s.trim()] *)
Definition trim (s : jsstring) : jsstring :=
  reverse (trim_start (reverse (trim_start s))).


Definition space : N := 32.

(** [const [firstName, lastName] = value?.split(" ") || []] *)
Definition names (value : value) : result (JS.value * JS.value) :=
  match value with
  | VUndefined | VNull => Ok (VUndefined, VUndefined)
  | VString s =>
    let parts := split space s in
    Ok (EncryptionSecurity.element parts 0, EncryptionSecurity.element parts 1)
  | _ => Throw TypeError
  end.

(** [this.set(path, v)] on a path of type String with trim: a string is
    trimmed, undefined leaves the path without a value. *)
Definition set_name (path : string) (v : value) (doc : document) : document :=
  match v with
  | VString s => <[path := VString (trim s)]> doc
  | _ => delete path doc
  end.

(** The setter of userName. *)
Definition set_userName (value : value) (doc : document) : result document :=
  '(firstName, lastName) ← names value;
  Ok (set_name "lastName" lastName (set_name "firstName" firstName doc)).

(** The decimal digits of a natural number. *)
Fixpoint digits (fuel : nat) (n : N) (acc : jsstring) : jsstring :=
  match fuel with
  | O => acc
  | S fuel' =>
    let acc := (48 + n mod 10) :: acc in
    if n / 10 =? 0 then acc else digits fuel' (n / 10) acc
  end.

(** A value as an operand of a string concatenation; a number is an
    integer below 10^21 in magnitude, which is written without exponent. *)
Definition text (v : value) : jsstring :=
  match v with
  | VString s => s
  | VUndefined => js "undefined"
  | VNull => js "null"
  | VBool b => if b then js "true" else js "false"
  | VNaN => js "NaN"
  | VNumber n =>
    (if (n <? 0)%Z then [45] else [])
      ++ digits (S (N.to_nat (N.log2 (Z.abs_N n)))) (Z.abs_N n) []
  end.

(** The getter of userName. *)
Definition get_userName (doc : document) : jsstring :=
  text (UserModel.prop doc "firstName") ++ [space] ++ text (UserModel.prop doc "lastName").

End UserName.

(** ** What a computation leaves of the world, for stating the properties *)

Module Effects.
Import JS Runtime.

(** The computation may take random bytes and leaves the rest as it is. *)
Definition keeps_users {A} (m : M A) : Prop :=
  forall w, pool (snd (m w)) = pool w /\ users (snd (m w)) = users w.

(** The email addresses of the stored users. *)
Definition emails (w : world) : list value :=
  map (fun d => UserModel.prop d "email") (users w).

End Effects.

(** ** A registration, for stating the properties: what signup stores for
    a request with a phone number, and the world it leaves *)

Module Registration.
Import Bytes JS Runtime Bcrypt HashSecurity.

Section WithRequest.
Context `{Primitives}.
Variables (securityKey SALT_ROUND : value) (w : world).
Variables (firstName lastName email password phone : jsstring).


(** The hash of the password, with the salt drawn first. *)
Definition hashed : jsstring :=
  hash_string (log_rounds (Number SALT_ROUND)) (drawn w 16) (Utf8.encode password).

(** The encoded phone number, with the IV drawn after the salt. *)
Definition stored : jsstring :=
  Wire.encoded (Wire.key_bytes securityKey) (drawn (advance w 16) 12) phone.

Definition user : document :=
  <["phone" := VString stored]>
    (<["firstName" := VString firstName]>
       (<["lastName" := VString lastName]>
          (<["email" := VString email]> (<["password" := VString hashed]> ∅)))).

Definition after : world :=
  {| pool := pool w; cursor := (cursor w + 16 + 12)%nat; users := users w ++ [user] |}.

End WithRequest.

End Registration.

(** ** More sample values *)

Module Scenario.
Import JS Runtime.

(** The letters A and B with a lone high surrogate between them. *)
Definition lone_surrogate : jsstring := [65; 0xD800; 66].

(** A signup request with a phone number. *)
Definition registration : document :=
  <["phone" := VString Sample.phone]> Sample.registration.

(** The world after that signup, with the sample primitives and key. *)
Definition registered : world :=
  @Registration.after Sample.primitives Sample.key (VString (js "10")) Sample.world0
    (js "Mina") (js "Nasr") (js "mina@example.com") (js "secret") Sample.phone.

(** A signup request of somebody else. *)
Definition other_registration : document :=
  <["email" := VString (js "nour@example.com")]> registration.

End Scenario.

(* ================================================================== *)
(** * Properties *)

(** ** Bytes and bounded numbers *)

Module BytesFacts.
Import Bytes.

Lemma to_N_lt (b : byte) : Byte.to_N b < 256.
Proof. pose proof (Byte.to_N_bounded b). lia. Qed.

Lemma to_N_byte_of_N (n : N) : n < 256 -> Byte.to_N (byte_of_N n) = n.
Proof.
  intros Hn. unfold byte_of_N. rewrite N.mod_small by exact Hn.
  destruct (Byte.of_N n) as [b|] eqn:E.
  - now apply Byte.to_of_N.
  - apply Byte.of_N_None_iff in E. lia.
Qed.

Lemma to_N_byte_of_N_mod (n : N) : Byte.to_N (byte_of_N n) = n mod 256.
Proof.
  unfold byte_of_N. assert (n mod 256 < 256) as Hn by (apply N.mod_lt; lia).
  destruct (Byte.of_N (n mod 256)) as [b|] eqn:E.
  - now apply Byte.to_of_N.
  - apply Byte.of_N_None_iff in E. lia.
Qed.

Lemma byte_of_N_to_N (b : byte) : byte_of_N (Byte.to_N b) = b.
Proof.
  unfold byte_of_N. rewrite N.mod_small by apply to_N_lt.
  now rewrite Byte.of_to_N.
Qed.

Lemma to_N_inj (a b : byte) : Byte.to_N a = Byte.to_N b -> a = b.
Proof. intros E. rewrite <- (byte_of_N_to_N a), <- (byte_of_N_to_N b). now rewrite E. Qed.

Lemma lxor_lt_pow2 (n a b : N) : a < 2 ^ n -> b < 2 ^ n -> N.lxor a b < 2 ^ n.
Proof.
  intros Ha Hb.
  destruct (N.eq_dec a 0) as [->|Ha0]; [now rewrite N.lxor_0_l|].
  destruct (N.eq_dec b 0) as [->|Hb0]; [now rewrite N.lxor_0_r|].
  destruct (N.eq_dec (N.lxor a b) 0) as [->|Hx]; [lia|].
  apply N.log2_lt_pow2; [lia|].
  pose proof (N.log2_lxor a b) as Hl.
  apply N.log2_lt_pow2 in Ha; [|lia].
  apply N.log2_lt_pow2 in Hb; [|lia].
  lia.
Qed.

Lemma xor_byte_comm (a b : byte) : xor_byte a b = xor_byte b a.
Proof. unfold xor_byte. now rewrite N.lxor_comm. Qed.

Lemma xor_byte_cancel (a k : byte) : xor_byte (xor_byte a k) k = a.
Proof.
  unfold xor_byte. rewrite to_N_byte_of_N.
  - rewrite N.lxor_assoc, N.lxor_nilpotent, N.lxor_0_r. apply byte_of_N_to_N.
  - apply (lxor_lt_pow2 8); apply to_N_lt.
Qed.

Lemma xor_byte_inj (e a b : byte) : xor_byte e a = xor_byte e b -> a = b.
Proof.
  intros E.
  rewrite <- (xor_byte_cancel a e), <- (xor_byte_cancel b e).
  now rewrite (xor_byte_comm a e), (xor_byte_comm b e), E.
Qed.

Lemma length_xor_bytes (d k : list byte) :
  length (xor_bytes d k) = Nat.min (length d) (length k).
Proof. apply length_zip_with. Qed.

Lemma xor_bytes_cancel (d k : list byte) :
  (length d <= length k)%nat -> xor_bytes (xor_bytes d k) k = d.
Proof.
  revert k. induction d as [|a d IH]; intros k Hlen; [now destruct k|].
  destruct k as [|b k]; simpl in *; [lia|].
  rewrite xor_byte_cancel. f_equal. apply IH. lia.
Qed.

Lemma xor_bytes_inj (e a b : list byte) :
  length a = length e -> length b = length e ->
  xor_bytes e a = xor_bytes e b -> a = b.
Proof.
  revert a b. induction e as [|x e IH]; intros [|y a] [|z b] Ha Hb E;
    simpl in *; try lia; try easy.
  injection E as E1 E2. apply xor_byte_inj in E1. subst z.
  f_equal. apply IH; lia || assumption.
Qed.

(** A property checked on 0 .. k-1 holds below k. *)
Lemma below_forallb (P : N -> bool) (k : nat) :
  forallb P (map N.of_nat (seq 0 k)) = true ->
  forall n, n < N.of_nat k -> P n = true.
Proof.
  intros Hall n Hn. rewrite forallb_forall in Hall. apply Hall.
  apply in_map_iff. exists (N.to_nat n). split; [lia|].
  apply in_seq. lia.
Qed.

End BytesFacts.

(** ** split and the hex codec *)

Module CodecFacts.
Import Bytes JS BytesFacts.

Lemma split_nonempty (sep : N) (s : jsstring) : split sep s <> [].
Proof. destruct s as [|c s]; simpl; [easy|]. destruct (c =? sep); [easy|]. now destruct (split sep s). Qed.

Lemma split_no_sep (sep : N) (s : jsstring) :
  Forall (fun c => c <> sep) s -> split sep s = [s].
Proof.
  induction 1 as [|c s Hc _ IH]; simpl; [easy|].
  apply N.eqb_neq in Hc. now rewrite Hc, IH.
Qed.

Lemma split_app (sep : N) (a b : jsstring) :
  Forall (fun c => c <> sep) a -> split sep (a ++ sep :: b) = a :: split sep b.
Proof.
  induction 1 as [|c s Hc _ IH]; simpl.
  - now rewrite N.eqb_refl.
  - apply N.eqb_neq in Hc. now rewrite Hc, IH.
Qed.

Lemma unhex_digit (n : N) : n < 16 -> Hex.unhex (Hex.digit n) = Some n.
Proof.
  intros Hn.
  apply (below_forallb (fun n => bool_decide (Hex.unhex (Hex.digit n) = Some n)) 16) in Hn.
  - now apply bool_decide_eq_true in Hn.
  - now vm_compute.
Qed.

Lemma hex_decode_encode (bs : list byte) : Hex.decode (Hex.encode bs) = bs.
Proof.
  induction bs as [|b bs IH]; [easy|].
  cbn [Hex.encode flat_map app]. cbn [Hex.decode].
  pose proof (to_N_lt b) as Hb.
  rewrite !unhex_digit by (try apply N.mod_lt; try apply N.Div0.div_lt_upper_bound; lia).
  fold (Hex.encode bs). rewrite IH. f_equal.
  rewrite <- N.div_mod by lia. apply byte_of_N_to_N.
Qed.

Lemma length_encode (bs : list byte) : length (Hex.encode bs) = (2 * length bs)%nat.
Proof. induction bs as [|b bs IH]; simpl in *; [easy|]. rewrite IH. lia. Qed.

Lemma digit_is_hex (n : N) : n < 16 -> Hex.is_hex_digit (Hex.digit n) = true.
Proof. intros Hn. unfold Hex.is_hex_digit. now rewrite unhex_digit. Qed.

Lemma encode_digits (bs : list byte) :
  Forall (fun c => Hex.is_hex_digit c = true) (Hex.encode bs).
Proof.
  induction bs as [|b bs IH]; simpl; [constructor|].
  pose proof (to_N_lt b) as Hb.
  repeat constructor; try assumption; apply digit_is_hex.
  - apply N.Div0.div_lt_upper_bound; lia.
  - apply N.mod_lt; lia.
Qed.

Lemma encode_no_colon (bs : list byte) : Forall (fun c => c <> colon) (Hex.encode bs).
Proof.
  eapply List.Forall_impl; [|apply encode_digits].
  intros c Hc ->. now vm_compute in Hc.
Qed.

Lemma encode_is_hex (bs : list byte) : Hex.is_hex (Hex.encode bs) = true.
Proof.
  unfold Hex.is_hex. apply andb_true_intro. split.
  - apply forallb_forall. intros c Hc.
    pose proof (encode_digits bs) as H. rewrite List.Forall_forall in H. now apply H.
  - rewrite length_encode. apply Nat.even_spec. now exists (length bs).
Qed.

Lemma encode_inj (a b : list byte) : Hex.encode a = Hex.encode b -> a = b.
Proof. intros E. rewrite <- (hex_decode_encode a), <- (hex_decode_encode b). now rewrite E. Qed.

End CodecFacts.
(** ** The UTF-8 codec *)

Module Utf8Facts.
Import Bytes JS BytesFacts.

Ltac Zify.zify_post_hook ::= Z.to_euclidean_division_equations.

(** The six-bit groups of a number. *)
Lemma groups (c : N) :
  c = 64 * (c / 64) + c mod 64 /\ c mod 64 < 64 /\
  c / 64 = 64 * (c / 4096) + (c / 64) mod 64 /\ (c / 64) mod 64 < 64 /\
  c / 4096 = 64 * (c / 262144) + (c / 4096) mod 64 /\ (c / 4096) mod 64 < 64.
Proof.
  replace (c / 4096) with (c / 64 / 64) by (now rewrite N.Div0.div_div).
  replace (c / 262144) with (c / 64 / 64 / 64) by (now rewrite !N.Div0.div_div).
  repeat split; try (apply N.div_mod; lia); apply N.mod_lt; lia.
Qed.

(** Decide the comparisons of the goal one after the other. *)
Ltac split_tests :=
  repeat match goal with
         | |- context [?a <=? ?b] => destruct (N.leb_spec a b); try lia
         | |- context [?a <? ?b] => destruct (N.ltb_spec a b); try lia
         | |- context [?a =? ?b] => destruct (N.eqb_spec a b); try lia
         end.

Lemma run_cons (st : Utf8.dstate) (b : N) (bs : list N) :
  Utf8.run st (b :: bs) =
  let '(out, st') := Utf8.step st b in
  let '(more, st'') := Utf8.run st' bs in (out ++ more, st'').
Proof. reflexivity. Qed.

(** The decoder reads the bytes of one code point back as its code units. *)
Lemma run_encode_cp (c : N) (rest : list N) :
  c < 0x110000 -> ~ Utf8.surrogate c ->
  Utf8.run Utf8.idle (Utf8.encode_cp c ++ rest) =
  let '(out, st) := Utf8.run Utf8.idle rest in (Utf8.units_of_cp c ++ out, st).
Proof.
  unfold Utf8.surrogate. intros Hc Hs. unfold Utf8.encode_cp.
  pose proof (groups c) as (G1 & G2 & G3 & G4 & G5 & G6).
  set (q1 := c / 64) in *. set (q2 := c / 4096) in *. set (q3 := c / 262144) in *.
  set (d0 := c mod 64) in *. set (d1 := q1 mod 64) in *. set (d2 := q2 mod 64) in *.
  clearbody q1 q2 q3 d0 d1 d2.
  destruct (N.ltb_spec c 0x80) as [H1|H1];
    [|destruct (N.ltb_spec c 0x800) as [H2|H2];
      [|destruct (N.ltb_spec c 0x10000) as [H3|H3]]].
  - cbn [app]. rewrite run_cons. unfold Utf8.step, Utf8.idle at 1. cbn [Utf8.remaining].
    unfold Utf8.start, Utf8.units_of_cp. split_tests.
    simpl. now destruct (Utf8.run Utf8.idle rest).
  - cbn [app]. rewrite !run_cons. unfold Utf8.step at 1, Utf8.idle at 1. cbn [Utf8.remaining].
    unfold Utf8.start. split_tests. simpl.
    unfold Utf8.step. cbn [Utf8.remaining Utf8.lower Utf8.upper Utf8.cp]. split_tests.
    simpl. unfold Utf8.units_of_cp. split_tests.
    destruct (Utf8.run Utf8.idle rest). simpl. do 2 f_equal. lia.
  - cbn [app]. rewrite !run_cons. unfold Utf8.step at 1, Utf8.idle at 1. cbn [Utf8.remaining].
    unfold Utf8.start. split_tests; simpl;
      unfold Utf8.step; cbn [Utf8.remaining Utf8.lower Utf8.upper Utf8.cp];
      split_tests; simpl; split_tests; simpl;
      unfold Utf8.units_of_cp; split_tests;
      destruct (Utf8.run Utf8.idle rest); simpl; do 2 f_equal; try lia.
  - cbn [app]. rewrite !run_cons. unfold Utf8.step at 1, Utf8.idle at 1. cbn [Utf8.remaining].
    unfold Utf8.start. split_tests; simpl;
      unfold Utf8.step; cbn [Utf8.remaining Utf8.lower Utf8.upper Utf8.cp];
      split_tests; simpl; split_tests; simpl; split_tests; simpl;
      unfold Utf8.units_of_cp; split_tests;
      destruct (Utf8.run Utf8.idle rest); simpl; repeat (f_equal; try lia).
Qed.

Lemma encode_cp_bytes (c : N) :
  c < 0x110000 -> Forall (fun b => b < 256) (Utf8.encode_cp c).
Proof.
  intros Hc. unfold Utf8.encode_cp.
  pose proof (groups c) as (G1 & G2 & G3 & G4 & G5 & G6).
  set (q1 := c / 64) in *. set (q2 := c / 4096) in *. set (q3 := c / 262144) in *.
  set (d0 := c mod 64) in *. set (d1 := q1 mod 64) in *. set (d2 := q2 mod 64) in *.
  clearbody q1 q2 q3 d0 d1 d2.
  split_tests; repeat constructor; lia.
Qed.

Lemma pair_code_point (c d : N) :
  Utf8.is_high c = true -> Utf8.is_low d = true ->
  let cp := 0x10000 + (c - 0xD800) * 0x400 + (d - 0xDC00) in
  cp < 0x110000 /\ ~ Utf8.surrogate cp /\ Utf8.units_of_cp cp = [c; d].
Proof.
  unfold Utf8.is_high, Utf8.is_low, Utf8.surrogate, Utf8.units_of_cp.
  intros [H1 H2]%andb_true_iff [H3 H4]%andb_true_iff.
  apply N.leb_le in H1, H2, H3, H4. cbv zeta.
  split; [lia|]. split; [lia|].
  split_tests. repeat f_equal; lia.
Qed.

Lemma run_encode_units (n : nat) (s : jsstring) (rest : list N) :
  (length s <= n)%nat -> Utf8.well_formed s = true ->
  Utf8.run Utf8.idle (Utf8.encode_units s ++ rest) =
  let '(out, st) := Utf8.run Utf8.idle rest in (s ++ out, st).
Proof.
  revert s rest. induction n as [|n IH]; intros s rest Hlen Hwf.
  - destruct s; [|simpl in Hlen; lia]. simpl. now destruct (Utf8.run Utf8.idle rest).
  - destruct s as [|c s]; [simpl; now destruct (Utf8.run Utf8.idle rest)|].
    simpl in Hwf |- *. destruct (Utf8.is_high c) eqn:Hh.
    + destruct s as [|d s]; [discriminate|].
      apply andb_true_iff in Hwf as [Hl Hwf]. rewrite Hl.
      destruct (pair_code_point c d Hh Hl) as (Hcp & Hns & Hu).
      rewrite <- app_assoc, run_encode_cp by assumption.
      rewrite IH by (simpl in Hlen; lia || assumption).
      destruct (Utf8.run Utf8.idle rest). now rewrite Hu.
    + apply andb_true_iff in Hwf as [[Hl Hc]%andb_true_iff Hwf].
      apply negb_true_iff in Hl. rewrite Hl. apply N.ltb_lt in Hc.
      rewrite <- app_assoc, run_encode_cp;
        [|lia|unfold Utf8.surrogate; unfold Utf8.is_high, Utf8.is_low in *;
              apply andb_false_iff in Hh, Hl; rewrite !N.leb_gt in *; lia].
      rewrite IH by (simpl in Hlen; lia || assumption).
      destruct (Utf8.run Utf8.idle rest).
      unfold Utf8.units_of_cp. apply N.ltb_lt in Hc. now rewrite Hc.
Qed.

Lemma encode_units_bytes (n : nat) (s : jsstring) :
  (length s <= n)%nat -> Utf8.well_formed s = true ->
  Forall (fun b => b < 256) (Utf8.encode_units s).
Proof.
  revert s. induction n as [|n IH]; intros s Hlen Hwf.
  - destruct s; [constructor|simpl in Hlen; lia].
  - destruct s as [|c s]; [constructor|].
    simpl in Hwf |- *. destruct (Utf8.is_high c) eqn:Hh.
    + destruct s as [|d s]; [discriminate|].
      apply andb_true_iff in Hwf as [Hl Hwf]. rewrite Hl.
      destruct (pair_code_point c d Hh Hl) as (Hcp & _ & _).
      apply Forall_app. split; [now apply encode_cp_bytes|].
      apply IH; [simpl in Hlen; lia|assumption].
    + apply andb_true_iff in Hwf as [[Hl Hc]%andb_true_iff Hwf].
      apply negb_true_iff in Hl. rewrite Hl. apply N.ltb_lt in Hc.
      apply Forall_app. split; [apply encode_cp_bytes; lia|].
      apply IH; [simpl in Hlen; lia|assumption].
Qed.

Lemma to_N_of_N_bytes (l : list N) :
  Forall (fun b => b < 256) l -> map Byte.to_N (map byte_of_N l) = l.
Proof.
  induction 1 as [|b l Hb _ IH]; simpl; [easy|].
  now rewrite to_N_byte_of_N, IH.
Qed.

(** Decoding the encoding of a well-formed string gives the string back. *)
Lemma utf8_decode_encode (s : jsstring) :
  Utf8.well_formed s = true -> Utf8.decode (Utf8.encode s) = s.
Proof.
  intros Hwf. unfold Utf8.decode, Utf8.encode.
  rewrite to_N_of_N_bytes by (now apply (encode_units_bytes (length s))).
  rewrite <- (app_nil_r (Utf8.encode_units s)).
  rewrite (run_encode_units (length s)) by (lia || assumption).
  simpl. now rewrite !app_nil_r.
Qed.

(** The same in the two steps of a StringDecoder. *)
Lemma run_flush_encode (s : jsstring) :
  Utf8.well_formed s = true ->
  Utf8.run Utf8.idle (map Byte.to_N (Utf8.encode s)) = (s, Utf8.idle).
Proof.
  intros Hwf. unfold Utf8.encode.
  rewrite to_N_of_N_bytes by (now apply (encode_units_bytes (length s))).
  rewrite <- (app_nil_r (Utf8.encode_units s)).
  rewrite (run_encode_units (length s)) by (lia || assumption).
  simpl. now rewrite app_nil_r.
Qed.

End Utf8Facts.

(** ** Counter mode and the tag *)

Module GcmFacts.
Import Bytes JS BytesFacts.

Arguments AES.encrypt_block : simpl never.
Arguments GCM.gmul : simpl never.

Lemma length_encrypt_block (key block : list byte) :
  length (AES.encrypt_block key block) = 16%nat.
Proof. unfold AES.encrypt_block. now rewrite length_map, length_seq. Qed.

Lemma length_keystream (key j : list byte) (n : nat) :
  length (GCM.keystream key j n) = (16 * n)%nat.
Proof.
  unfold GCM.keystream.
  enough (forall from, length (flat_map (fun i => AES.encrypt_block key
            (GCM.counter_block j (S i))) (seq from n)) = (16 * n)%nat) as E by apply E.
  induction n as [|n IH]; intros from; [easy|].
  cbn [seq flat_map]. rewrite length_app, length_encrypt_block, IH. lia.
Qed.

Lemma block_count_covers (n : nat) : (n <= 16 * GCM.block_count n)%nat.
Proof.
  unfold GCM.block_count.
  pose proof (Nat.div_mod_eq (n + 15) 16) as E.
  pose proof (Nat.mod_upper_bound (n + 15) 16). lia.
Qed.

Lemma length_gctr (key iv data : list byte) :
  length (GCM.gctr key iv data) = length data.
Proof.
  unfold GCM.gctr. rewrite length_xor_bytes, length_keystream.
  pose proof (block_count_covers (length data)). lia.
Qed.

Lemma gctr_involutive (key iv data : list byte) :
  GCM.gctr key iv (GCM.gctr key iv data) = data.
Proof.
  unfold GCM.gctr at 1. rewrite length_gctr. unfold GCM.gctr.
  apply xor_bytes_cancel. rewrite length_keystream. apply block_count_covers.
Qed.

(** *** Big-endian numbers *)

Lemma length_be_bytes (k : nat) (n : N) : length (GCM.be_bytes k n) = k.
Proof.
  revert n. induction k as [|k IH]; intros n; simpl; [easy|].
  rewrite length_app, IH. simpl. lia.
Qed.

Lemma be_value_snoc (bs : list byte) (b : byte) :
  GCM.be_value (bs ++ [b]) = GCM.be_value bs * 256 + Byte.to_N b.
Proof. unfold GCM.be_value. now rewrite fold_left_app. Qed.

Lemma be_value_be_bytes (k : nat) (n : N) :
  GCM.be_value (GCM.be_bytes k n) = n mod 256 ^ N.of_nat k.
Proof.
  revert n. induction k as [|k IH]; intros n.
  - simpl. now rewrite N.mod_1_r.
  - cbn [GCM.be_bytes]. rewrite be_value_snoc, IH, to_N_byte_of_N_mod.
    rewrite Nat2N.inj_succ, N.pow_succ_r', N.Div0.mod_mul_r. lia.
Qed.

Lemma be_bytes_inj (k : nat) (a b : N) :
  a < 256 ^ N.of_nat k -> b < 256 ^ N.of_nat k ->
  GCM.be_bytes k a = GCM.be_bytes k b -> a = b.
Proof.
  intros Ha Hb E. apply (f_equal GCM.be_value) in E.
  rewrite !be_value_be_bytes in E. now rewrite !N.mod_small in E.
Qed.

Lemma be_value_lt (bs : list byte) : GCM.be_value bs < 256 ^ N.of_nat (length bs).
Proof.
  induction bs as [|b bs IH] using rev_ind; [reflexivity|].
  rewrite be_value_snoc, length_app. cbn [length].
  replace (length bs + 1)%nat with (S (length bs)) by lia.
  rewrite Nat2N.inj_succ, N.pow_succ_r'.
  pose proof (to_N_lt b). generalize dependent (256 ^ N.of_nat (length bs)). intros; lia.
Qed.

Lemma be_bytes_be_value (bs : list byte) :
  GCM.be_bytes (length bs) (GCM.be_value bs) = bs.
Proof.
  induction bs as [|b bs IH] using rev_ind; [easy|].
  rewrite be_value_snoc, length_app. cbn [length].
  replace (length bs + 1)%nat with (S (length bs)) by lia.
  cbn [GCM.be_bytes]. pose proof (to_N_lt b) as Hb.
  assert ((GCM.be_value bs * 256 + Byte.to_N b) / 256 = GCM.be_value bs) as ->.
  { rewrite N.div_add_l by lia. rewrite N.div_small by lia. lia. }
  assert (byte_of_N (GCM.be_value bs * 256 + Byte.to_N b) = b) as ->.
  { apply to_N_inj. rewrite to_N_byte_of_N_mod.
    rewrite N.add_comm, N.Div0.mod_add. now apply N.mod_small. }
  now rewrite IH.
Qed.

Lemma be_value_inj (a b : list byte) :
  length a = length b -> GCM.be_value a = GCM.be_value b -> a = b.
Proof.
  intros Hl E. rewrite <- (be_bytes_be_value a), <- (be_bytes_be_value b).
  now rewrite Hl, E.
Qed.

(** *** Multiplication in GF(2^128) *)

Lemma mulx_lt (v : N) : v < GCM.w128 -> GCM.mulx v < GCM.w128.
Proof.
  intros Hv. unfold GCM.mulx.
  assert (N.shiftr v 1 < GCM.w128) as Hs.
  { rewrite N.shiftr_div_pow2. change (2 ^ 1) with 2.
    eapply N.le_lt_trans; [|exact Hv]. apply N.Div0.div_le_upper_bound. lia. }
  destruct (N.testbit v 0); [|exact Hs].
  apply (lxor_lt_pow2 128); [exact Hs|reflexivity].
Qed.

Lemma gmul_loop_lt (n : nat) (x z v : N) :
  z < GCM.w128 -> v < GCM.w128 -> GCM.gmul_loop n x z v < GCM.w128.
Proof.
  revert z v. induction n as [|n IH]; intros z v Hz Hv; simpl; [exact Hz|].
  apply IH; [|now apply mulx_lt].
  destruct (N.testbit x (N.of_nat n)); [|exact Hz].
  now apply (lxor_lt_pow2 128).
Qed.

Lemma gmul_lt (x h : N) : h < GCM.w128 -> GCM.gmul x h < GCM.w128.
Proof. intros Hh. unfold GCM.gmul. apply gmul_loop_lt; [reflexivity|exact Hh]. Qed.

(** The product is additive in its first factor. *)
Lemma gmul_loop_lxor (n : nat) (a b z1 z2 v : N) :
  GCM.gmul_loop n (N.lxor a b) (N.lxor z1 z2) v =
  N.lxor (GCM.gmul_loop n a z1 v) (GCM.gmul_loop n b z2 v).
Proof.
  revert z1 z2 v. induction n as [|n IH]; intros z1 z2 v; simpl; [easy|].
  rewrite N.lxor_spec.
  destruct (N.testbit a (N.of_nat n)), (N.testbit b (N.of_nat n)); simpl;
    rewrite <- IH; f_equal.
  - rewrite (N.lxor_comm z2 v), N.lxor_assoc, <- (N.lxor_assoc v v).
    now rewrite N.lxor_nilpotent, N.lxor_0_l.
  - now rewrite !N.lxor_assoc, (N.lxor_comm z2 v).
  - now rewrite N.lxor_assoc.
Qed.

Lemma gmul_lxor_l (a b h : N) :
  GCM.gmul (N.lxor a b) h = N.lxor (GCM.gmul a h) (GCM.gmul b h).
Proof. unfold GCM.gmul. now rewrite <- gmul_loop_lxor. Qed.

(** The product with 0 is 0. *)
Lemma mulx_zero : GCM.mulx 0 = 0.
Proof. reflexivity. Qed.

Lemma gmul_loop_zero (n : nat) (x : N) : GCM.gmul_loop n x 0 0 = 0.
Proof.
  induction n as [|n IH]; [reflexivity|]. cbn [GCM.gmul_loop].
  rewrite mulx_zero. now destruct (N.testbit x (N.of_nat n)).
Qed.

Lemma gmul_zero_r (x : N) : GCM.gmul x 0 = 0.
Proof. unfold GCM.gmul. apply gmul_loop_zero. Qed.

(** From here on the product and the block cipher are used through the
    lemmas above only. *)
Opaque GCM.gmul AES.encrypt_block.

(** A number below 2^(n+1) is its low n bits, with bit n on top. *)
Lemma split_top_bit (n a : N) :
  a < 2 ^ N.succ n ->
  a = N.lxor (a mod 2 ^ n) (if N.testbit a n then 2 ^ n else 0).
Proof.
  intros Ha. apply N.bits_inj. intros m.
  rewrite N.lxor_spec.
  destruct (N.lt_trichotomy m n) as [Hm|[->|Hm]].
  - rewrite N.mod_pow2_bits_low by exact Hm.
    destruct (N.testbit a n).
    + rewrite N.pow2_bits_false by lia. now rewrite xorb_false_r.
    + now rewrite N.bits_0, xorb_false_r.
  - rewrite N.mod_pow2_bits_high by lia.
    destruct (N.testbit a n) eqn:E.
    + now rewrite N.pow2_bits_true.
    + now rewrite N.bits_0.
  - rewrite N.mod_pow2_bits_high by lia.
    assert (N.testbit a m = false) as ->.
    { destruct (N.eq_dec a 0) as [->|Hne]; [apply N.bits_0|].
      apply N.bits_above_log2. apply N.log2_lt_pow2 in Ha; lia. }
    destruct (N.testbit a n).
    + now rewrite N.pow2_bits_false by lia.
    + now rewrite N.bits_0.
Qed.

Lemma undoes_below_spec (n : nat) (h hinv : N) :
  GCM.undoes_below n h hinv = true ->
  forall i, (i < n)%nat ->
  GCM.gmul (GCM.gmul (2 ^ N.of_nat i) h) hinv = 2 ^ N.of_nat i.
Proof.
  induction n as [|n IH]; intros Hall i Hi; [lia|].
  cbn [GCM.undoes_below] in Hall. apply andb_true_iff in Hall as [Hn Hall].
  destruct (Nat.eq_dec i n) as [->|Hne].
  - unfold GCM.undoes, GCM.unit_vector in Hn. rewrite N.shiftl_1_l in Hn.
    now apply N.eqb_eq in Hn.
  - apply IH; [exact Hall|lia].
Qed.

Lemma fold_left_cons {A B} (f : A -> B -> A) (x : B) (l : list B) (a : A) :
  fold_left f (x :: l) a = fold_left f l (f a x).
Proof. reflexivity. Qed.

(** With the subkey 0 the hash is 0 whatever the blocks. *)
Lemma ghash_zero (blocks : list N) : GCM.ghash 0 blocks = 0.
Proof.
  unfold GCM.ghash.
  enough (forall y, y = 0 ->
            fold_left (fun y x => GCM.gmul (N.lxor y x) 0) blocks y = 0) as G
    by (now apply G).
  induction blocks as [|x l IH]; intros y Hy; [exact Hy|].
  rewrite fold_left_cons. apply IH. apply gmul_zero_r.
Qed.

Section Inverse.
Variables h hinv : N.
Hypothesis Hinv : forall i, (i < 128)%nat ->
  GCM.gmul (GCM.gmul (2 ^ N.of_nat i) h) hinv = 2 ^ N.of_nat i.

Let f (a : N) : N := GCM.gmul (GCM.gmul a h) hinv.

Lemma f_lxor (a b : N) : f (N.lxor a b) = N.lxor (f a) (f b).
Proof using Type. unfold f. now rewrite !gmul_lxor_l. Qed.

Lemma f_zero : f 0 = 0.
Proof using Type.
  pose proof (f_lxor 0 0) as E. rewrite N.lxor_nilpotent in E.
  rewrite N.lxor_nilpotent in E. exact E.
Qed.

Lemma f_unit (i : nat) : (i < 128)%nat -> f (2 ^ N.of_nat i) = 2 ^ N.of_nat i.
Proof using Hinv. intros Hi. unfold f. now apply Hinv. Qed.

Lemma f_id_below (n : nat) (a : N) :
  (n <= 128)%nat -> a < 2 ^ N.of_nat n -> f a = a.
Proof using Hinv.
  revert a. induction n as [|n IH]; intros a Hn Ha.
  - simpl in Ha. assert (a = 0) as -> by lia. apply f_zero.
  - rewrite Nat2N.inj_succ in Ha.
    pose proof (split_top_bit (N.of_nat n) a Ha) as E.
    assert (f (a mod 2 ^ N.of_nat n) = a mod 2 ^ N.of_nat n) as Hlo.
    { apply IH; [lia|]. apply N.mod_lt. apply N.pow_nonzero. lia. }
    assert (f (if N.testbit a (N.of_nat n) then 2 ^ N.of_nat n else 0) =
            if N.testbit a (N.of_nat n) then 2 ^ N.of_nat n else 0) as Hhi.
    { destruct (N.testbit a (N.of_nat n)); [apply f_unit; lia|apply f_zero]. }
    remember (a mod 2 ^ N.of_nat n) as lo.
    remember (if N.testbit a (N.of_nat n) then 2 ^ N.of_nat n else 0) as hi.
    rewrite E, f_lxor. now rewrite Hlo, Hhi.
Qed.

(** Multiplication by an invertible h is one-to-one on blocks. *)
Lemma gmul_inj (a b : N) :
  a < GCM.w128 -> b < GCM.w128 -> GCM.gmul a h = GCM.gmul b h -> a = b.
Proof using Hinv.
  intros Ha Hb E.
  rewrite <- (f_id_below 128 a), <- (f_id_below 128 b) by (lia || assumption).
  unfold f. now rewrite E.
Qed.

Lemma ghash_step_lt (y x : N) : h < GCM.w128 -> GCM.gmul (N.lxor y x) h < GCM.w128.
Proof using Type. apply gmul_lt. Qed.

Lemma fold_ghash_lt (post : list N) (y : N) :
  h < GCM.w128 -> y < GCM.w128 ->
  fold_left (fun y x => GCM.gmul (N.lxor y x) h) post y < GCM.w128.
Proof using Type.
  intros Hh. revert y. induction post as [|x post IH]; intros y Hy; [exact Hy|].
  rewrite fold_left_cons. apply IH. now apply gmul_lt.
Qed.

Lemma fold_ghash_differs (post : list N) (y y' : N) :
  h < GCM.w128 -> Forall (fun x => x < GCM.w128) post ->
  y < GCM.w128 -> y' < GCM.w128 -> y <> y' ->
  fold_left (fun y x => GCM.gmul (N.lxor y x) h) post y <>
  fold_left (fun y x => GCM.gmul (N.lxor y x) h) post y'.
Proof using Hinv.
  intros Hh Hpost. revert y y'.
  induction Hpost as [|x post Hx _ IH]; intros y y' Hy Hy' Hne; [exact Hne|].
  rewrite !fold_left_cons. apply IH; try now apply gmul_lt.
  intros E. apply gmul_inj in E; try now apply (lxor_lt_pow2 128).
  apply Hne. apply (f_equal (fun t => N.lxor t x)) in E.
  now rewrite !N.lxor_assoc, !N.lxor_nilpotent, !N.lxor_0_r in E.
Qed.

(** Two block lists that differ in one block have different hashes. *)
Lemma ghash_differs (pre post : list N) (x x' : N) :
  h < GCM.w128 -> Forall (fun x => x < GCM.w128) post ->
  x < GCM.w128 -> x' < GCM.w128 -> x <> x' ->
  GCM.ghash h (pre ++ x :: post) <> GCM.ghash h (pre ++ x' :: post).
Proof using Hinv.
  intros Hh Hpost Hx Hx' Hne. unfold GCM.ghash.
  rewrite !fold_left_app, !fold_left_cons.
  set (y := fold_left _ pre 0).
  assert (y < GCM.w128) as Hy by (apply fold_ghash_lt; [exact Hh|reflexivity]).
  apply fold_ghash_differs; try assumption; try now apply gmul_lt.
  intros E. apply gmul_inj in E; try now apply (lxor_lt_pow2 128).
  apply Hne. apply (f_equal (fun t => N.lxor y t)) in E.
  now rewrite <- !N.lxor_assoc, !N.lxor_nilpotent, !N.lxor_0_l in E.
Qed.

End Inverse.

End GcmFacts.

(** ** One changed byte changes one block, and so the tag *)

Module BlockFacts.
Import Bytes JS BytesFacts GcmFacts.

Lemma blocks_chunks (data : list byte) :
  GCM.blocks data =
  map (fun j => GCM.be_value (GCM.chunk data j)) (seq 0 (GCM.block_count (length data))).
Proof. reflexivity. Qed.

Lemma chunk_insert_other (data : list byte) (i j : nat) (b : byte) :
  (i < length data)%nat -> (i / 16)%nat <> j ->
  GCM.chunk (<[i := b]> data) j = GCM.chunk data j.
Proof.
  intros Hi Hj. unfold GCM.chunk. rewrite <- insert_app_l by exact Hi.
  pose proof (Nat.div_mod_eq i 16) as E. pose proof (Nat.mod_upper_bound i 16) as Hm.
  destruct (Nat.lt_ge_cases i (16 * j)) as [Hlt|Hge].
  - now rewrite drop_insert_lt by lia.
  - rewrite drop_insert_ge by lia. apply take_insert_ge. nia.
Qed.

Lemma chunk_insert_same (data : list byte) (i : nat) (b : byte) :
  (i < length data)%nat ->
  GCM.chunk (<[i := b]> data) (i / 16) = <[(i mod 16)%nat := b]> (GCM.chunk data (i / 16)).
Proof.
  intros Hi. unfold GCM.chunk. rewrite <- insert_app_l by exact Hi.
  pose proof (Nat.div_mod_eq i 16) as E. pose proof (Nat.mod_upper_bound i 16) as Hm.
  rewrite drop_insert_ge by lia. rewrite take_insert_lt by lia.
  f_equal. lia.
Qed.

Lemma chunk_lookup (data : list byte) (i : nat) (b : byte) :
  data !! i = Some b -> GCM.chunk data (i / 16) !! (i mod 16)%nat = Some b.
Proof.
  intros Hb. unfold GCM.chunk.
  pose proof (Nat.div_mod_eq i 16) as E. pose proof (Nat.mod_upper_bound i 16) as Hm.
  rewrite lookup_take_lt by lia. rewrite lookup_drop.
  rewrite <- E. now apply lookup_app_l_Some.
Qed.

Lemma w128_bytes : 256 ^ N.of_nat 16 = GCM.w128.
Proof. reflexivity. Qed.

Lemma chunk_value_lt (data : list byte) (j : nat) : GCM.be_value (GCM.chunk data j) < GCM.w128.
Proof.
  eapply N.lt_le_trans; [apply be_value_lt|].
  rewrite <- w128_bytes. apply N.pow_le_mono_r; [lia|].
  unfold GCM.chunk. rewrite length_take. lia.
Qed.

Lemma blocks_lt (data : list byte) : Forall (fun x => x < GCM.w128) (GCM.blocks data).
Proof.
  rewrite blocks_chunks. apply Forall_map, Forall_forall. intros j _. apply chunk_value_lt.
Qed.

(** Changing byte i changes block i/16 and no other. *)
Lemma blocks_insert (data : list byte) (i : nat) (b b' : byte) :
  data !! i = Some b -> b' <> b ->
  exists pre post x x',
    GCM.blocks data = pre ++ x :: post /\
    GCM.blocks (<[i := b']> data) = pre ++ x' :: post /\
    x <> x' /\ x < GCM.w128 /\ x' < GCM.w128 /\ Forall (fun x => x < GCM.w128) post.
Proof.
  intros Hb Hne. pose proof (lookup_lt_Some _ _ _ Hb) as Hi.
  rewrite !blocks_chunks, length_insert.
  set (n := GCM.block_count (length data)). set (k := (i / 16)%nat).
  assert (k < n)%nat as Hk.
  { subst n k. unfold GCM.block_count.
    apply Nat.Div0.div_lt_upper_bound.
    pose proof (Nat.div_mod_eq (length data + 15) 16).
    pose proof (Nat.mod_upper_bound (length data + 15) 16). lia. }
  replace n with (k + S (n - S k))%nat by lia.
  rewrite seq_app. cbn [seq]. rewrite !map_app. cbn [map]. rewrite Nat.add_0_l.
  exists (map (fun j => GCM.be_value (GCM.chunk data j)) (seq 0 k)),
         (map (fun j => GCM.be_value (GCM.chunk data j)) (seq (S k) (n - S k))),
         (GCM.be_value (GCM.chunk data k)), (GCM.be_value (GCM.chunk (<[i:=b']> data) k)).
  split; [reflexivity|]. split.
  - f_equal; [|f_equal]; apply map_ext_in; intros j Hj; apply in_seq in Hj;
      rewrite chunk_insert_other; try reflexivity; try assumption; subst k; lia.
  - split; [|split; [apply chunk_value_lt|split; [apply chunk_value_lt|]]].
    + intros E. subst k. rewrite chunk_insert_same in E by exact Hi.
      apply be_value_inj in E; [|now rewrite length_insert].
      apply (f_equal (fun l => l !! (i mod 16)%nat)) in E.
      rewrite (chunk_lookup _ _ _ Hb) in E.
      rewrite list_lookup_insert_eq in E.
      * congruence.
      * apply lookup_lt_Some with b. now apply chunk_lookup.
    + apply Forall_map, Forall_forall. intros j _. apply chunk_value_lt.
Qed.

Lemma hash_subkey_lt (key : list byte) : GCM.hash_subkey key < GCM.w128.
Proof.
  unfold GCM.hash_subkey. eapply N.lt_le_trans; [apply be_value_lt|].
  rewrite length_encrypt_block. now rewrite w128_bytes.
Qed.

Lemma ghash_lt (h : N) (l : list N) : h < GCM.w128 -> GCM.ghash h l < GCM.w128.
Proof. intros Hh. unfold GCM.ghash. apply fold_ghash_lt; [exact Hh|reflexivity]. Qed.

Lemma length_auth_tag (key iv ct : list byte) : length (GCM.auth_tag key iv ct) = 16%nat.
Proof.
  unfold GCM.auth_tag.
  rewrite length_xor_bytes, length_encrypt_block, length_be_bytes. reflexivity.
Qed.

(** With an invertible hash subkey, a ciphertext changed in one byte has
    another tag. *)
Lemma auth_tag_insert (key iv ct : list byte) (i : nat) (b b' : byte) :
  GCM.invertible (GCM.hash_subkey key) = true ->
  ct !! i = Some b -> b' <> b ->
  GCM.auth_tag key iv (<[i := b']> ct) <> GCM.auth_tag key iv ct.
Proof.
  intros Hinv Hb Hne E. unfold GCM.auth_tag in E.
  apply xor_bytes_inj in E;
    [|now rewrite length_be_bytes, length_encrypt_block..].
  pose proof (hash_subkey_lt key) as Hh.
  apply be_bytes_inj in E; [|rewrite w128_bytes; now apply ghash_lt..].
  destruct (blocks_insert ct i b b' Hb Hne)
    as (pre & post & x & x' & E1 & E2 & Hx & Hlt & Hlt' & Hpost).
  unfold GCM.bit_length in E. rewrite length_insert in E.
  rewrite E1, E2, <- !app_assoc, <- !app_comm_cons in E.
  revert E. apply not_eq_sym.
  apply (ghash_differs _ _ (undoes_below_spec 128 _ _ Hinv)); try assumption.
  apply Forall_app. split; [assumption|]. repeat constructor.
  unfold GCM.bit_length. apply N.lt_le_trans with (2 ^ 64).
  - apply N.mod_lt. apply N.pow_nonzero. lia.
  - vm_compute. discriminate.
Qed.

End BlockFacts.

(** ** encryptData and decryptData on encoded strings *)

Module EncryptionFacts.
Import Bytes JS Runtime NodeCrypto EncryptionSecurity Wire.
Import BytesFacts CodecFacts GcmFacts BlockFacts.

Arguments GCM.auth_tag : simpl never.
Arguments GCM.gctr : simpl never.
Arguments GCM.keystream : simpl never.
Arguments Utf8.run : simpl never.
Arguments Utf8.encode : simpl never.
Arguments split : simpl never.

Lemma unhex_lt (c v : N) : Hex.unhex c = Some v -> v < 16.
Proof.
  unfold Hex.unhex. intros E.
  repeat match type of E with
         | context [?a <=? ?b] => destruct (N.leb_spec a b)
         end; simpl in E; inversion E; lia.
Qed.

Lemma hex_digit_not_colon (c : N) : Hex.is_hex_digit c = true -> c <> colon.
Proof. intros H ->. now vm_compute in H. Qed.

Lemma half_succ_succ (p : nat) : (S (S p) / 2 = S (p / 2))%nat.
Proof. change (S (S p)) with (1 * 2 + p)%nat. now rewrite Nat.div_add_l. Qed.

Lemma encode_cons (b : byte) (bs : list byte) :
  Hex.encode (b :: bs) =
  Hex.digit (Byte.to_N b / 16) :: Hex.digit (Byte.to_N b mod 16) :: Hex.encode bs.
Proof. reflexivity. Qed.

Lemma decode_cons (a b : N) (h l : N) (rest : jsstring) :
  Hex.unhex a = Some h -> Hex.unhex b = Some l ->
  Hex.decode (a :: b :: rest) = byte_of_N (16 * h + l) :: Hex.decode rest.
Proof. intros Ha Hb. cbn [Hex.decode]. now rewrite Ha, Hb. Qed.

(** One digit of an encoding replaced by a digit of another value: the
    decoding differs in the byte that digit belongs to, and only there. *)
Lemma decode_insert (bs : list byte) (p : nat) (c : N) :
  other_digit (Hex.encode bs) p c = true ->
  exists b b', bs !! (p / 2)%nat = Some b /\ b' <> b /\
               Hex.decode (<[p := c]> (Hex.encode bs)) = <[(p / 2)%nat := b']> bs.
Proof.
  unfold other_digit. revert p. induction bs as [|b bs IH]; intros p H.
  - destruct (Hex.unhex c); [|discriminate]. now destruct p.
  - destruct (Hex.unhex c) as [v|] eqn:Ec; [|discriminate].
    pose proof (unhex_lt c v Ec) as Hv. pose proof (to_N_lt b) as Hb.
    assert (Byte.to_N b / 16 < 16) as Hhi by (apply N.Div0.div_lt_upper_bound; lia).
    assert (Byte.to_N b mod 16 < 16) as Hlo by (apply N.mod_lt; lia).
    pose proof (N.div_mod (Byte.to_N b) 16 ltac:(lia)) as Hdm.
    rewrite encode_cons in *.
    destruct p as [|[|p]].
    + cbn [lookup list_lookup] in H. rewrite unhex_digit in H by exact Hhi.
      apply negb_true_iff, bool_decide_eq_false in H.
      exists b, (byte_of_N (16 * v + Byte.to_N b mod 16)). split; [reflexivity|]. split.
      * intros E. apply (f_equal Byte.to_N) in E. rewrite to_N_byte_of_N in E by lia.
        apply H. f_equal. lia.
      * cbn [insert list_insert]. rewrite (decode_cons _ _ v (Byte.to_N b mod 16)); auto using unhex_digit.
        now rewrite hex_decode_encode.
    + cbn [lookup list_lookup] in H. rewrite unhex_digit in H by exact Hlo.
      apply negb_true_iff, bool_decide_eq_false in H.
      exists b, (byte_of_N (16 * (Byte.to_N b / 16) + v)). split; [reflexivity|]. split.
      * intros E. apply (f_equal Byte.to_N) in E. rewrite to_N_byte_of_N in E by lia.
        apply H. f_equal. lia.
      * cbn [insert list_insert]. rewrite (decode_cons _ _ (Byte.to_N b / 16) v); auto using unhex_digit.
        now rewrite hex_decode_encode.
    + cbn [lookup list_lookup] in H. destruct (IH p) as (b0 & b' & E1 & E2 & E3).
      { exact H. }
      exists b0, b'. rewrite half_succ_succ. split; [exact E1|]. split; [exact E2|].
      match goal with
      | |- context [<[S (S p) := c]> (?d1 :: ?d2 :: ?l)] =>
        change (<[S (S p) := c]> (d1 :: d2 :: l)) with (d1 :: d2 :: <[p := c]> l)
      end.
      rewrite (decode_cons _ _ (Byte.to_N b / 16) (Byte.to_N b mod 16)); auto using unhex_digit.
      rewrite E3, <- Hdm, byte_of_N_to_N. reflexivity.
Qed.

Lemma bind_Ok {A B} (a : A) (k : A -> result B) : (Ok a ≫= k) = k a.
Proof. reflexivity. Qed.

Lemma bind_Throw {A B} (e : exn) (k : A -> result B) : (Throw e ≫= k) = Throw e.
Proof. reflexivity. Qed.

Lemma length_drawn (w : world) (n : nat) : length (drawn w n) = n.
Proof. unfold drawn. now rewrite length_map, length_seq. Qed.

Lemma stream_from_start (key iv : list byte) (n : nat) :
  stream key iv 0 n = GCM.keystream key (GCM.j0 key iv) (GCM.block_count n).
Proof. reflexivity. Qed.

Lemma check_args_ok (key iv : list byte) :
  length key = 32%nat -> length iv <> 0%nat ->
  check_cipher_args algorithm key iv = Ok tt.
Proof.
  intros Hk Hiv. unfold check_cipher_args, algorithm.
  rewrite bool_decide_eq_true_2 by reflexivity. rewrite Hk.
  destruct (length iv); [congruence|reflexivity].
Qed.

Section WithKey.
Variable k : jsstring.
Hypothesis Hkey : usable_key (VString k) = true.

Let key := Hex.decode k.

Lemma key_length : length key = 32%nat.
Proof using Hkey. now apply Nat.eqb_eq in Hkey. Qed.

(** encryptData with a usable key: the encoded form for the IV drawn. *)
Lemma encryptData_eq (x : jsstring) (w : world) :
  encryptData (VString k) (VString x) w =
  (Ok (encoded key (drawn w 12) x), advance w 12).
Proof using Hkey.
  unfold encryptData, randomBytes, lift. unfold mbind at 1. unfold M_bind.
  f_equal. unfold Buffer_from_hex, createCipheriv. rewrite bind_Ok.
  rewrite check_args_ok; [|apply key_length|rewrite length_drawn; lia].
  rewrite !bind_Ok.
  unfold cipher_update_utf8_hex, cipher_final_hex, getAuthTag. rewrite bind_Ok.
  cbn [c_key c_iv c_out length app]. rewrite stream_from_start.
  unfold encoded, ciphertext, GCM.gctr. cbn [Hex.encode flat_map].
  now rewrite app_nil_r.
Qed.

(** decryptData on three segments without a colon, with an IV that is
    not empty, a tag of a valid length and a content of even length:
    the plain text if the tag is the tag of the content, and the
    authentication error otherwise. *)
Lemma decryptData_segments (ivh tagh cth : jsstring) :
  Forall (fun c => c <> colon) ivh -> Forall (fun c => c <> colon) tagh ->
  Forall (fun c => c <> colon) cth ->
  length (Hex.decode ivh) <> 0%nat ->
  valid_tag_length (length (Hex.decode tagh)) = true ->
  Nat.odd (length cth) = false ->
  decryptData (VString k) (VString (ivh ++ [colon] ++ tagh ++ [colon] ++ cth)) =
  if bool_decide (Hex.decode tagh =
                  take (length (Hex.decode tagh))
                       (GCM.auth_tag key (Hex.decode ivh) (Hex.decode cth)))
  then Ok (Utf8.decode (GCM.gctr key (Hex.decode ivh) (Hex.decode cth)))
  else Throw UnableToAuthenticate.
Proof using Hkey.
  intros Hiv Htag Hct Hivlen Htaglen Heven.
  unfold decryptData. cbn [app].
  rewrite split_app by exact Hiv. rewrite split_app by exact Htag.
  rewrite split_no_sep by exact Hct.
  unfold element. cbn [lookup list_lookup].
  unfold Buffer_from_hex, createDecipheriv. rewrite !bind_Ok.
  rewrite check_args_ok; [|apply key_length|exact Hivlen].
  rewrite !bind_Ok. unfold setAuthTag. rewrite Htaglen, bind_Ok.
  unfold decipher_update_hex_utf8. rewrite Heven.
  cbn [d_key d_iv d_tag d_in d_text length app]. rewrite stream_from_start.
  unfold Utf8.decode, GCM.gctr. subst key.
  destruct (Utf8.run Utf8.idle _) as [text st].
  rewrite bind_Ok. unfold decipher_final_utf8. cbn [d_key d_iv d_tag d_in d_text].
  destruct (bool_decide _); reflexivity.
Qed.

End WithKey.

End EncryptionFacts.

(** * The claims about the cipher *)

Module Cipher.
Import Bytes JS Runtime NodeCrypto EncryptionSecurity Wire.
Import BytesFacts CodecFacts GcmFacts BlockFacts EncryptionFacts.

Lemma usable_key_string (securityKey : value) :
  usable_key securityKey = true ->
  exists k, securityKey = VString k /\ length (Hex.decode k) = 32%nat.
Proof.
  destruct securityKey; try discriminate. intros H.
  eexists. split; [reflexivity|]. now apply Nat.eqb_eq in H.
Qed.

Lemma take_auth_tag (key iv ct : list byte) :
  take 16 (GCM.auth_tag key iv ct) = GCM.auth_tag key iv ct.
Proof. apply take_ge. now rewrite length_auth_tag. Qed.

Lemma even_encode (bs : list byte) : Nat.odd (length (Hex.encode bs)) = false.
Proof.
  rewrite length_encode, <- Nat.negb_even.
  replace (Nat.even (2 * length bs)) with true; [reflexivity|].
  symmetry. apply Nat.even_spec. now exists (length bs).
Qed.

(** Decrypting an encoded string gives the plain text's bytes back, decoded. *)
Lemma decrypt_encoded (k : jsstring) (iv : list byte) (x : jsstring) :
  usable_key (VString k) = true -> length iv = 12%nat ->
  decryptData (VString k) (VString (encoded (Hex.decode k) iv x)) =
  Ok (Utf8.decode (Utf8.encode x)).
Proof.
  intros Hk Hiv. unfold encoded.
  rewrite decryptData_segments; try assumption; try apply encode_no_colon;
    rewrite ?hex_decode_encode, ?length_auth_tag, ?Hiv; try apply even_encode;
    try reflexivity; try lia.
  rewrite take_auth_tag, bool_decide_eq_true_2 by reflexivity.
  unfold ciphertext. now rewrite gctr_involutive.
Qed.

(** C1: for every well-formed string x (the empty one and those with
    multi-byte characters included), under a usable key and whatever IV the
    random source hands out, encryptData succeeds and decryptData gives
    exactly x back. *)
Theorem round_trip (securityKey : value) (x : jsstring) (w : world) :
  usable_key securityKey = true -> Utf8.well_formed x = true ->
  exists c w', encryptData securityKey (VString x) w = (Ok c, w') /\
               decryptData securityKey (VString c) = Ok x.
Proof.
  intros Hk Hx. destruct (usable_key_string _ Hk) as (k & -> & _).
  exists (encoded (Hex.decode k) (drawn w 12) x), (advance w 12).
  split; [now apply encryptData_eq|].
  rewrite decrypt_encoded by (assumption || apply length_drawn).
  f_equal. now apply Utf8Facts.utf8_decode_encode.
Qed.

Lemma round_trip_witness :
  usable_key Sample.key = true /\ Utf8.well_formed Sample.phone = true /\
  exists c w', encryptData Sample.key (VString Sample.phone) Sample.world0 = (Ok c, w') /\
               decryptData Sample.key (VString c) = Ok Sample.phone.
Proof.
  split; [reflexivity|]. split; [reflexivity|].
  apply (round_trip Sample.key Sample.phone Sample.world0); reflexivity.
Defined.

Lemma no_colons (s : jsstring) :
  Forall (fun c => c <> colon) s -> filter (fun c => c = colon) s = [].
Proof.
  induction 1 as [|c s Hc _ IH]; [reflexivity|].
  now rewrite filter_cons_False, IH.
Qed.

Lemma count_colons_segments (a b c : jsstring) :
  Forall (fun c => c <> colon) a -> Forall (fun c => c <> colon) b ->
  Forall (fun c => c <> colon) c ->
  count_colons (a ++ [colon] ++ b ++ [colon] ++ c) = 2%nat.
Proof.
  intros Ha Hb Hc. unfold count_colons.
  rewrite !filter_app, !filter_cons_True by reflexivity.
  rewrite (no_colons a), (no_colons b), (no_colons c) by assumption. reflexivity.
Qed.

Lemma split_segments (a b c : jsstring) :
  Forall (fun c => c <> colon) a -> Forall (fun c => c <> colon) b ->
  Forall (fun c => c <> colon) c ->
  split colon (a ++ [colon] ++ b ++ [colon] ++ c) = [a; b; c].
Proof.
  intros Ha Hb Hc. cbn [app].
  now rewrite split_app, split_app, split_no_sep by assumption.
Qed.

(** C4: under a usable key the output of encryptData is one string
    IV:TAG:CIPHERTEXT with exactly two colons, which split gives back as
    three hexadecimal segments: 24 characters of IV, 32 of tag, and a
    ciphertext of as many bytes as the UTF-8 encoding of x has.  The first
    segment is the 12 bytes taken from the random source, the third the
    UTF-8 encoding of x enciphered in counter mode under the key and these
    12 bytes, the second the 16 bytes of the GCM tag of that ciphertext, all
    three in lower-case hexadecimal digits. *)
Theorem encoded_format (securityKey : value) (x : jsstring) (w : world) :
  usable_key securityKey = true ->
  exists iv tag ct c w',
    encryptData securityKey (VString x) w = (Ok c, w') /\
    c = iv ++ [colon] ++ tag ++ [colon] ++ ct /\
    count_colons c = 2%nat /\
    split colon c = [iv; tag; ct] /\
    length iv = 24%nat /\ length tag = 32%nat /\
    Hex.is_hex iv = true /\ Hex.is_hex tag = true /\ Hex.is_hex ct = true /\
    length (Hex.decode ct) = length (Utf8.encode x) /\
    w' = advance w 12 /\
    iv = Hex.encode (drawn w 12) /\
    ct = Hex.encode (GCM.gctr (key_bytes securityKey) (drawn w 12) (Utf8.encode x)) /\
    tag = Hex.encode (GCM.auth_tag (key_bytes securityKey) (drawn w 12) (Hex.decode ct)).
Proof.
  intros Hk. destruct (usable_key_string _ Hk) as (k & -> & _).
  set (iv := drawn w 12). set (key := Hex.decode k).
  exists (Hex.encode iv), (Hex.encode (GCM.auth_tag key iv (ciphertext key iv x))),
         (Hex.encode (ciphertext key iv x)), (encoded key iv x), (advance w 12).
  split; [now apply encryptData_eq|]. split; [reflexivity|].
  split; [apply count_colons_segments; apply encode_no_colon|].
  split; [apply split_segments; apply encode_no_colon|].
  rewrite !length_encode, length_auth_tag, hex_decode_encode, !encode_is_hex.
  unfold iv. rewrite length_drawn. unfold ciphertext. rewrite length_gctr.
  repeat split; reflexivity.
Qed.

Lemma encoded_format_witness :
  usable_key Sample.key = true /\
  exists iv tag ct c w',
    encryptData Sample.key (VString Sample.phone) Sample.world0 = (Ok c, w') /\
    c = iv ++ [colon] ++ tag ++ [colon] ++ ct /\
    count_colons c = 2%nat /\
    split colon c = [iv; tag; ct] /\
    length iv = 24%nat /\ length tag = 32%nat /\
    Hex.is_hex iv = true /\ Hex.is_hex tag = true /\ Hex.is_hex ct = true /\
    length (Hex.decode ct) = length (Utf8.encode Sample.phone) /\
    w' = advance Sample.world0 12 /\
    iv = Hex.encode (drawn Sample.world0 12) /\
    ct = Hex.encode (GCM.gctr (key_bytes Sample.key) (drawn Sample.world0 12)
                              (Utf8.encode Sample.phone)) /\
    tag = Hex.encode (GCM.auth_tag (key_bytes Sample.key) (drawn Sample.world0 12)
                                   (Hex.decode ct)).
Proof.
  split; [reflexivity|].
  apply (encoded_format Sample.key Sample.phone Sample.world0); reflexivity.
Defined.

Lemma encoded_inj_iv (key iv1 iv2 : list byte) (x : jsstring) :
  length iv1 = length iv2 -> encoded key iv1 x = encoded key iv2 x -> iv1 = iv2.
Proof.
  intros Hl E. unfold encoded in E. apply app_inj_1 in E as [E _].
  - now apply encode_inj.
  - now rewrite !length_encode, Hl.
Qed.

(** C9: two calls of encryptData on the same x draw their IVs one after
    the other from the random source; when the two IVs differ, so do the
    two encoded strings, and decryptData gives x back from either. *)
Theorem fresh_iv_fresh_encoding (securityKey : value) (x : jsstring) (w : world) :
  usable_key securityKey = true -> Utf8.well_formed x = true ->
  drawn w 12 <> drawn (advance w 12) 12 ->
  exists c1 w1 c2 w2,
    encryptData securityKey (VString x) w = (Ok c1, w1) /\
    encryptData securityKey (VString x) w1 = (Ok c2, w2) /\
    c1 <> c2 /\
    decryptData securityKey (VString c1) = Ok x /\
    decryptData securityKey (VString c2) = Ok x.
Proof.
  intros Hk Hx Hiv. destruct (usable_key_string _ Hk) as (k & -> & _).
  exists (encoded (Hex.decode k) (drawn w 12) x), (advance w 12),
         (encoded (Hex.decode k) (drawn (advance w 12) 12) x), (advance (advance w 12) 12).
  split; [now apply encryptData_eq|]. split; [now apply encryptData_eq|].
  split.
  - intros E. apply Hiv. apply encoded_inj_iv in E; [exact E|].
    now rewrite !length_drawn.
  - rewrite !decrypt_encoded by (assumption || apply length_drawn).
    rewrite Utf8Facts.utf8_decode_encode by exact Hx. now split.
Qed.

Lemma fresh_iv_fresh_encoding_witness :
  usable_key Sample.key = true /\ Utf8.well_formed Sample.phone = true /\
  drawn Sample.world0 12 <> drawn (advance Sample.world0 12) 12 /\
  exists c1 w1 c2 w2,
    encryptData Sample.key (VString Sample.phone) Sample.world0 = (Ok c1, w1) /\
    encryptData Sample.key (VString Sample.phone) w1 = (Ok c2, w2) /\
    c1 <> c2 /\
    decryptData Sample.key (VString c1) = Ok Sample.phone /\
    decryptData Sample.key (VString c2) = Ok Sample.phone.
Proof.
  split; [reflexivity|]. split; [reflexivity|].
  assert (drawn Sample.world0 12 <> drawn (advance Sample.world0 12) 12) as Hne
    by (vm_compute; discriminate).
  split; [exact Hne|].
  apply (fresh_iv_fresh_encoding Sample.key Sample.phone Sample.world0);
    [reflexivity|reflexivity|exact Hne].
Defined.

Lemma other_digit_hex (s : jsstring) (p : nat) (d : N) :
  other_digit s p d = true -> Hex.is_hex_digit d = true.
Proof. unfold other_digit, Hex.is_hex_digit. now destruct (Hex.unhex d). Qed.

Lemma same_digit_hex (s : jsstring) (p : nat) (d : N) :
  same_digit s p d = true -> Hex.is_hex_digit d = true.
Proof. unfold same_digit, Hex.is_hex_digit. now destruct (Hex.unhex d). Qed.

Lemma insert_cons_S {A} (n : nat) (x y : A) (l : list A) :
  <[S n := x]> (y :: l) = y :: <[n := x]> l.
Proof. reflexivity. Qed.

Lemma lookup_cons_S {A} (n : nat) (y : A) (l : list A) : (y :: l) !! S n = l !! n.
Proof. reflexivity. Qed.

(** A digit of the TAG segment replaced: the three segments, with the
    replacement made inside the second. *)
Lemma insert_in_tag (ivh tagh cth : jsstring) (p : nat) (d : N) :
  length ivh = 24%nat -> length tagh = 32%nat -> in_tag p ->
  <[p := d]> (ivh ++ [colon] ++ tagh ++ [colon] ++ cth) =
  ivh ++ [colon] ++ <[(p - 25)%nat := d]> tagh ++ [colon] ++ cth /\
  (ivh ++ [colon] ++ tagh ++ [colon] ++ cth) !! p = tagh !! (p - 25)%nat.
Proof.
  unfold in_tag. intros Hi Ht Hp. cbn [app]. split.
  - rewrite insert_app_r_alt by lia.
    replace (p - length ivh)%nat with (S (p - 25)) by lia.
    rewrite insert_cons_S. do 2 f_equal. now rewrite insert_app_l by lia.
  - rewrite lookup_app_r by lia.
    replace (p - length ivh)%nat with (S (p - 25)) by lia.
    rewrite lookup_cons_S. now rewrite lookup_app_l by lia.
Qed.

Lemma insert_in_content (ivh tagh cth : jsstring) (p : nat) (d : N) :
  length ivh = 24%nat -> length tagh = 32%nat ->
  in_content (ivh ++ [colon] ++ tagh ++ [colon] ++ cth) p ->
  <[p := d]> (ivh ++ [colon] ++ tagh ++ [colon] ++ cth) =
  ivh ++ [colon] ++ tagh ++ [colon] ++ <[(p - 58)%nat := d]> cth /\
  (ivh ++ [colon] ++ tagh ++ [colon] ++ cth) !! p = cth !! (p - 58)%nat /\
  (p - 58 < length cth)%nat.
Proof.
  unfold in_content. cbn [app]. rewrite length_app. cbn [length].
  rewrite length_app. cbn [length]. intros Hi Ht Hp.
  split; [|split; [|lia]].
  - rewrite insert_app_r_alt by lia.
    replace (p - length ivh)%nat with (S (length tagh + S (p - 58))) by lia.
    rewrite insert_cons_S. do 2 f_equal.
    now rewrite insert_app_r, insert_cons_S.
  - rewrite lookup_app_r by lia.
    replace (p - length ivh)%nat with (S (length tagh + S (p - 58))) by lia.
    rewrite lookup_cons_S, lookup_app_r by lia.
    replace (length tagh + S (p - 58) - length tagh)%nat with (S (p - 58)) by lia.
    now rewrite lookup_cons_S.
Qed.

(** Hexadecimal strings with one character replaced *)

Lemma decode_cons2 (a b : N) (rest : jsstring) :
  Hex.decode (a :: b :: rest) =
  match Hex.unhex a, Hex.unhex b with
  | Some h, Some l => byte_of_N (16 * h + l) :: Hex.decode rest
  | _, _ => []
  end.
Proof. reflexivity. Qed.

(** A digit replaced by a digit of the same value: the same bytes. *)
Lemma decode_insert_same (s : jsstring) (p : nat) (c : N) :
  same_digit s p c = true -> Hex.decode (<[p := c]> s) = Hex.decode s.
Proof.
unfold same_digit.
enough ((forall p, match Hex.unhex c, s !! p with
                   | Some v, Some c0 => bool_decide (Hex.unhex c0 = Some v)
                   | _, _ => false
                   end = true -> Hex.decode (<[p := c]> s) = Hex.decode s) /\
        (forall a p, match Hex.unhex c, (a :: s) !! p with
                     | Some v, Some c0 => bool_decide (Hex.unhex c0 = Some v)
                     | _, _ => false
                     end = true ->
                     Hex.decode (<[p := c]> (a :: s)) = Hex.decode (a :: s))) as [G _]
  by apply G.
induction s as [|b rest [IH1 IH2]].
- split.
  + intros q H. destruct (Hex.unhex c); discriminate.
  + intros a q H. now destruct q.
- split; [apply IH2|]. intros a q H.
  destruct (Hex.unhex c) as [v|] eqn:Ec; [|discriminate].
  destruct q as [|[|q]].
  + cbn [lookup list_lookup] in H. apply bool_decide_eq_true in H.
    change (<[0%nat := c]> (a :: b :: rest)) with (c :: b :: rest).
    rewrite !decode_cons2. now rewrite Ec, H.
  + cbn [lookup list_lookup] in H. apply bool_decide_eq_true in H.
    change (<[1%nat := c]> (a :: b :: rest)) with (a :: c :: rest).
    rewrite !decode_cons2. destruct (Hex.unhex a); [|reflexivity]. now rewrite Ec, H.
  + rewrite !insert_cons_S, !decode_cons2. rewrite !lookup_cons_S in H.
    rewrite IH1; [reflexivity|exact H].
Qed.

(** A digit of an encoding replaced by a character that is no digit: the
    bytes before the pair it stands in. *)
Lemma decode_insert_none (bs : list byte) (p : nat) (c : N) :
  Hex.unhex c = None -> (p < length (Hex.encode bs))%nat ->
  Hex.decode (<[p := c]> (Hex.encode bs)) = take (p / 2) bs.
Proof.
intros Ec. revert p. induction bs as [|b bs IH]; intros p Hp; [simpl in Hp; lia|].
pose proof (to_N_lt b) as Hb.
assert (Byte.to_N b / 16 < 16) as Hhi by (apply N.Div0.div_lt_upper_bound; lia).
assert (Byte.to_N b mod 16 < 16) as Hlo by (apply N.mod_lt; lia).
pose proof (N.div_mod (Byte.to_N b) 16 ltac:(lia)) as Hdm.
rewrite encode_cons in *.
destruct p as [|[|p]].
- match goal with
  | |- context [<[0%nat := c]> (?d1 :: ?l)] =>
    change (<[0%nat := c]> (d1 :: l)) with (c :: l)
  end.
  rewrite decode_cons2, Ec. reflexivity.
- match goal with
  | |- context [<[1%nat := c]> (?d1 :: ?d2 :: ?l)] =>
    change (<[1%nat := c]> (d1 :: d2 :: l)) with (d1 :: c :: l)
  end.
  rewrite decode_cons2, Ec. destruct (Hex.unhex (Hex.digit _)); reflexivity.
- rewrite !insert_cons_S, decode_cons2, !unhex_digit by assumption.
  rewrite IH by (cbn [length] in Hp; lia).
  rewrite half_succ_succ. cbn [take]. now rewrite <- Hdm, byte_of_N_to_N.
Qed.

(** The first characters of an encoding: the bytes of the pairs that are
    whole. *)
Lemma decode_take_encode (bs : list byte) (q : nat) :
  Hex.decode (take q (Hex.encode bs)) = take (q / 2) bs.
Proof.
revert q. induction bs as [|b bs IH]; intros q.
- rewrite take_nil. change (Hex.encode []) with (@nil N). rewrite take_nil. reflexivity.
- pose proof (to_N_lt b) as Hb.
  assert (Byte.to_N b / 16 < 16) as Hhi by (apply N.Div0.div_lt_upper_bound; lia).
  assert (Byte.to_N b mod 16 < 16) as Hlo by (apply N.mod_lt; lia).
  pose proof (N.div_mod (Byte.to_N b) 16 ltac:(lia)) as Hdm.
  rewrite encode_cons. destruct q as [|[|q]]; [reflexivity|reflexivity|].
  cbn [take]. rewrite decode_cons2, !unhex_digit by assumption.
  rewrite IH, half_succ_succ. cbn [take]. now rewrite <- Hdm, byte_of_N_to_N.
Qed.

Lemma drop_encode (n : nat) (bs : list byte) :
  drop (2 * n) (Hex.encode bs) = Hex.encode (drop n bs).
Proof.
revert bs. induction n as [|n IH]; intros bs; [reflexivity|].
destruct bs as [|b bs]; [reflexivity|].
rewrite encode_cons. replace (2 * S n)%nat with (S (S (2 * n))) by lia.
cbn [drop]. apply IH.
Qed.

(** decryptData under a usable key on a string of three segments or
    more: the checks of node:crypto on what the first three decode to. *)
Lemma decryptData_parts (k : jsstring) (s ivh tagh cth : jsstring) (rest : list jsstring) :
  usable_key (VString k) = true ->
  split colon s = ivh :: tagh :: cth :: rest ->
  decryptData (VString k) (VString s) =
  authenticate (Hex.decode k) (Hex.decode ivh) (Hex.decode tagh) (Hex.decode cth)
               (Nat.odd (length cth)).
Proof.
intros Hk Hs. unfold usable_key in Hk. unfold decryptData, authenticate. rewrite Hs.
unfold element. cbn [lookup list_lookup]. unfold Buffer_from_hex. rewrite !bind_Ok.
unfold createDecipheriv, check_cipher_args, algorithm.
rewrite bool_decide_eq_true_2 by reflexivity. cbn [negb]. rewrite Hk. cbn [negb].
destruct (length (Hex.decode ivh) =? 0)%nat; [reflexivity|]. rewrite !bind_Ok.
unfold setAuthTag. destruct (valid_tag_length (length (Hex.decode tagh))); [|reflexivity].
rewrite bind_Ok. cbn [negb]. unfold decipher_update_hex_utf8.
destruct (Nat.odd (length cth)); [reflexivity|].
cbn [d_key d_iv d_tag d_in d_text length app]. rewrite stream_from_start.
unfold Utf8.decode, GCM.gctr.
destruct (Utf8.run Utf8.idle _) as [text st].
rewrite bind_Ok. unfold decipher_final_utf8. cbn [d_key d_iv d_tag d_in d_text].
destruct (bool_decide _); reflexivity.
Qed.

(** *** The key stream and the tag on shorter data *)

Lemma keystream_prefix (key j : list byte) (n m : nat) :
  GCM.keystream key j n = take (16 * n) (GCM.keystream key j (n + m)).
Proof.
  unfold GCM.keystream. rewrite seq_app, flat_map_app.
  fold (GCM.keystream key j n).
  rewrite take_app_length'; [reflexivity|]. now rewrite length_keystream.
Qed.

Lemma block_count_mono (n m : nat) : (n <= m)%nat -> (GCM.block_count n <= GCM.block_count m)%nat.
Proof. intros H. unfold GCM.block_count. apply Nat.Div0.div_le_mono. lia. Qed.

(** Counter mode on the first bytes of the data: the first bytes of the
    result. *)
Lemma gctr_take (key iv data : list byte) (m : nat) :
  GCM.gctr key iv (take m data) = take m (GCM.gctr key iv data).
Proof.
  unfold GCM.gctr, xor_bytes.
  assert (GCM.block_count (length (take m data)) <= GCM.block_count (length data))%nat
    as Hle by (apply block_count_mono; rewrite length_take; lia).
  pose proof (block_count_covers (length (take m data))) as Hcov.
  set (n := GCM.block_count (length (take m data))) in *.
  replace (GCM.block_count (length data))
    with (n + (GCM.block_count (length data) - n))%nat by lia.
  rewrite (keystream_prefix key (GCM.j0 key iv) n (GCM.block_count (length data) - n)).
  rewrite zip_with_take_r' by lia.
  rewrite zip_with_take. rewrite zip_with_take_r'; [reflexivity|].
  rewrite length_take. lia.
Qed.

(** With the hash subkey 0 every ciphertext has the same tag. *)
Lemma auth_tag_zero (key iv ct ct' : list byte) :
  GCM.hash_subkey key = 0 -> GCM.auth_tag key iv ct' = GCM.auth_tag key iv ct.
Proof. intros H. unfold GCM.auth_tag. now rewrite H, !ghash_zero. Qed.

(** *** The outcomes of authenticate *)


(** The tag that belongs to the content, whole. *)
Lemma authenticate_whole (key iv ct : list byte) :
  length iv = 12%nat ->
  authenticate key iv (GCM.auth_tag key iv ct) ct false =
  Ok (Utf8.decode (GCM.gctr key iv ct)).
Proof.
  intros Hiv. unfold authenticate. rewrite Hiv, length_auth_tag, take_auth_tag.
  now rewrite bool_decide_eq_true_2.
Qed.

(** The first bytes of the tag that belongs to the content. *)
Lemma authenticate_short (key iv ct : list byte) (n : nat) :
  length iv = 12%nat -> (n <= 16)%nat ->
  authenticate key iv (take n (GCM.auth_tag key iv ct)) ct false =
  if valid_tag_length n then Ok (Utf8.decode (GCM.gctr key iv ct))
  else Throw InvalidAuthTagLength.
Proof.
  intros Hiv Hn. unfold authenticate.
  rewrite Hiv, length_take, length_auth_tag, Nat.min_l by exact Hn.
  cbn [Nat.eqb]. destruct (valid_tag_length n); [|reflexivity].
  cbn [negb]. now rewrite bool_decide_eq_true_2.
Qed.

(** A tag of 16 bytes that differs from the one of the content. *)
Lemma authenticate_other (key iv tag ct : list byte) :
  length iv = 12%nat -> length tag = 16%nat -> tag <> GCM.auth_tag key iv ct ->
  authenticate key iv tag ct false = Throw UnableToAuthenticate.
Proof.
  intros Hiv Htag Hne. unfold authenticate. rewrite Hiv, Htag, take_auth_tag.
  now rewrite bool_decide_eq_false_2.
Qed.

(** *** decryptData on three segments, and on four *)

Lemma decrypt_three (k ivh tagh cth : jsstring) :
  usable_key (VString k) = true ->
  Forall (fun c => c <> colon) ivh -> Forall (fun c => c <> colon) tagh ->
  Forall (fun c => c <> colon) cth ->
  decryptData (VString k) (VString (ivh ++ [colon] ++ tagh ++ [colon] ++ cth)) =
  authenticate (Hex.decode k) (Hex.decode ivh) (Hex.decode tagh) (Hex.decode cth)
               (Nat.odd (length cth)).
Proof.
  intros Hk Hi Ht Hc. apply (decryptData_parts k _ ivh tagh cth []); [exact Hk|].
  now apply split_segments.
Qed.

Lemma decrypt_four (k ivh tagh cth more : jsstring) :
  usable_key (VString k) = true ->
  Forall (fun c => c <> colon) ivh -> Forall (fun c => c <> colon) tagh ->
  Forall (fun c => c <> colon) cth ->
  decryptData (VString k)
    (VString (ivh ++ [colon] ++ tagh ++ [colon] ++ cth ++ [colon] ++ more)) =
  authenticate (Hex.decode k) (Hex.decode ivh) (Hex.decode tagh) (Hex.decode cth)
               (Nat.odd (length cth)).
Proof.
  intros Hk Hi Ht Hc.
  apply (decryptData_parts k _ ivh tagh cth (split colon more)); [exact Hk|].
  cbn [app]. now rewrite !split_app by assumption.
Qed.

Lemma other_digit_at (s t : jsstring) (p q : nat) (d : N) :
  s !! p = t !! q -> other_digit s p d = true -> other_digit t q d = true.
Proof. unfold other_digit. now intros ->. Qed.

Lemma same_digit_at (s t : jsstring) (p q : nat) (d : N) :
  s !! p = t !! q -> same_digit s p d = true -> same_digit t q d = true.
Proof. unfold same_digit. now intros ->. Qed.

Lemma not_hex_digit (d : N) : Hex.unhex d = None -> Hex.is_hex_digit d = false.
Proof. unfold Hex.is_hex_digit. now intros ->. Qed.

Lemma odd_insert {A} (l : list A) (i : nat) (x : A) :
  Nat.odd (length (<[i := x]> l)) = Nat.odd (length l).
Proof. now rewrite length_insert. Qed.

Lemma half_lt (q n : nat) : (q < 2 * n)%nat -> (q / 2 < n)%nat.
Proof. intros H. apply Nat.Div0.div_lt_upper_bound. lia. Qed.

Lemma odd_half (q : nat) : Nat.odd q = true -> (S q = 2 * (S q / 2))%nat.
Proof.
  intros H. apply Nat.odd_spec in H as [m ->].
  replace (S (2 * m + 1)) with ((m + 1) * 2)%nat by lia.
  rewrite Nat.div_mul by lia. lia.
Qed.

(** *** One character of an encoded string replaced *)

Section Replaced.
Variables (k : jsstring) (iv : list byte) (x : jsstring).
Hypothesis Hkey : usable_key (VString k) = true.
Hypothesis Hiv : length iv = 12%nat.

Let key := Hex.decode k.
Let ct := GCM.gctr key iv (Utf8.encode x).
Let tag := GCM.auth_tag key iv ct.
Let plain : result jsstring := Ok (Utf8.decode (Utf8.encode x)).

Lemma encoded_parts :
  encoded key iv x = Hex.encode iv ++ [colon] ++ Hex.encode tag ++ [colon] ++ Hex.encode ct.
Proof using Type. reflexivity. Qed.

Lemma length_iv_text : length (Hex.encode iv) = 24%nat.
Proof using Hiv. now rewrite length_encode, Hiv. Qed.

Lemma length_tag_text : length (Hex.encode tag) = 32%nat.
Proof using Type. unfold tag. now rewrite length_encode, length_auth_tag. Qed.

Lemma plain_text : Ok (Utf8.decode (GCM.gctr key iv ct)) = plain.
Proof using Type. unfold plain, ct. now rewrite gctr_involutive. Qed.

(** The tag text replaced by one without a colon. *)
Lemma decrypt_tag_text (tagh : jsstring) :
  Forall (fun c => c <> colon) tagh ->
  decryptData (VString k)
    (VString (Hex.encode iv ++ [colon] ++ tagh ++ [colon] ++ Hex.encode ct)) =
  authenticate key iv (Hex.decode tagh) ct false.
Proof using Hkey.
  intros Ht. rewrite decrypt_three; try assumption; try apply encode_no_colon.
  now rewrite !hex_decode_encode, even_encode.
Qed.

(** The content text replaced by one without a colon. *)
Lemma decrypt_content_text (cth : jsstring) :
  Forall (fun c => c <> colon) cth ->
  decryptData (VString k)
    (VString (Hex.encode iv ++ [colon] ++ Hex.encode tag ++ [colon] ++ cth)) =
  authenticate key iv tag (Hex.decode cth) (Nat.odd (length cth)).
Proof using Hkey.
  intros Hc. rewrite decrypt_three; try assumption; try apply encode_no_colon.
  now rewrite !hex_decode_encode.
Qed.

Lemma tag_other_digit (q : nat) (d : N) :
  other_digit (Hex.encode tag) q d = true ->
  decryptData (VString k)
    (VString (Hex.encode iv ++ [colon] ++ <[q := d]> (Hex.encode tag) ++ [colon]
              ++ Hex.encode ct)) = Throw UnableToAuthenticate.
Proof using Hkey Hiv.
  intros Hd. pose proof (other_digit_hex _ _ _ Hd) as Hhex.
  rewrite decrypt_tag_text
    by (apply Forall_insert; [apply encode_no_colon|now apply hex_digit_not_colon]).
  destruct (decode_insert _ _ _ Hd) as (b & b' & Hb & Hne & ->).
  apply authenticate_other; [exact Hiv|rewrite length_insert; apply length_auth_tag|].
  intros E. apply (f_equal (fun l : list byte => l !! (q / 2)%nat)) in E.
  rewrite list_lookup_insert_eq in E by (now apply lookup_lt_Some in Hb).
  fold tag in E. congruence.
Qed.

Lemma tag_same_digit (q : nat) (d : N) :
  same_digit (Hex.encode tag) q d = true ->
  decryptData (VString k)
    (VString (Hex.encode iv ++ [colon] ++ <[q := d]> (Hex.encode tag) ++ [colon]
              ++ Hex.encode ct)) = plain.
Proof using Hkey Hiv.
  intros Hd. pose proof (same_digit_hex _ _ _ Hd) as Hhex.
  rewrite decrypt_tag_text
    by (apply Forall_insert; [apply encode_no_colon|now apply hex_digit_not_colon]).
  rewrite decode_insert_same, hex_decode_encode by exact Hd.
  unfold tag. rewrite authenticate_whole by exact Hiv. apply plain_text.
Qed.

Lemma tag_no_digit (q : nat) (d : N) :
  (q < 32)%nat -> Hex.unhex d = None -> d <> colon ->
  decryptData (VString k)
    (VString (Hex.encode iv ++ [colon] ++ <[q := d]> (Hex.encode tag) ++ [colon]
              ++ Hex.encode ct)) =
  if valid_tag_length (q / 2) then plain else Throw InvalidAuthTagLength.
Proof using Hkey Hiv.
  intros Hq Hd Hc.
  rewrite decrypt_tag_text by (apply Forall_insert; [apply encode_no_colon|exact Hc]).
  rewrite decode_insert_none by (exact Hd || (rewrite length_tag_text; exact Hq)).
  unfold tag. rewrite authenticate_short; [|exact Hiv|].
  - now rewrite plain_text.
  - pose proof (half_lt q 16). lia.
Qed.

Lemma tag_colon (q : nat) :
  (q < 32)%nat ->
  decryptData (VString k)
    (VString (Hex.encode iv ++ [colon] ++ <[q := colon]> (Hex.encode tag) ++ [colon]
              ++ Hex.encode ct)) =
  authenticate key iv (take (q / 2) tag) (drop (S q / 2) tag) (Nat.even q).
Proof using Hkey Hiv.
  intros Hq. rewrite insert_take_drop by (rewrite length_tag_text; exact Hq).
  rewrite <- !app_assoc. cbn [app].
  change (Hex.encode iv ++ colon :: take q (Hex.encode tag) ++ colon ::
            drop (S q) (Hex.encode tag) ++ colon :: Hex.encode ct)
    with (Hex.encode iv ++ [colon] ++ take q (Hex.encode tag) ++ [colon] ++
            drop (S q) (Hex.encode tag) ++ [colon] ++ Hex.encode ct).
  rewrite decrypt_four; try assumption;
    try (apply Forall_take || apply Forall_drop); try apply encode_no_colon.
  rewrite hex_decode_encode, decode_take_encode.
  rewrite length_drop, length_tag_text.
  replace (Nat.odd (32 - S q)) with (Nat.even q).
  2:{ replace (32 - S q)%nat with (31 - q)%nat by lia.
      rewrite <- Nat.negb_odd. replace q with (31 - (31 - q))%nat at 1 by lia.
      rewrite Nat.odd_sub by lia. cbn [Nat.odd]. change (Nat.odd 31) with true.
      now destruct (Nat.odd (31 - q)). }
  destruct (Nat.even q) eqn:Eq.
  - unfold authenticate. destruct (length iv =? 0)%nat; [reflexivity|].
    destruct (negb (valid_tag_length _)); reflexivity.
  - rewrite <- Nat.negb_odd in Eq. apply negb_false_iff in Eq.
    rewrite (odd_half q Eq) at 1. now rewrite drop_encode, hex_decode_encode.
Qed.

Lemma content_other_digit (q : nat) (d : N) :
  other_digit (Hex.encode ct) q d = true ->
  exists b b', ct !! (q / 2)%nat = Some b /\ b' <> b /\
    decryptData (VString k)
      (VString (Hex.encode iv ++ [colon] ++ Hex.encode tag ++ [colon]
                ++ <[q := d]> (Hex.encode ct))) =
    authenticate key iv tag (<[(q / 2)%nat := b']> ct) false.
Proof using Hkey.
  intros Hd. pose proof (other_digit_hex _ _ _ Hd) as Hhex.
  destruct (decode_insert _ _ _ Hd) as (b & b' & Hb & Hne & Edec).
  exists b, b'. split; [exact Hb|]. split; [exact Hne|].
  rewrite decrypt_content_text
    by (apply Forall_insert; [apply encode_no_colon|now apply hex_digit_not_colon]).
  now rewrite Edec, odd_insert, even_encode.
Qed.

Lemma content_same_digit (q : nat) (d : N) :
  same_digit (Hex.encode ct) q d = true ->
  decryptData (VString k)
    (VString (Hex.encode iv ++ [colon] ++ Hex.encode tag ++ [colon]
              ++ <[q := d]> (Hex.encode ct))) = plain.
Proof using Hkey Hiv.
  intros Hd. pose proof (same_digit_hex _ _ _ Hd) as Hhex.
  rewrite decrypt_content_text
    by (apply Forall_insert; [apply encode_no_colon|now apply hex_digit_not_colon]).
  rewrite decode_insert_same, hex_decode_encode, odd_insert, even_encode by exact Hd.
  unfold tag. rewrite authenticate_whole by exact Hiv. apply plain_text.
Qed.

(** The content cut after its first n bytes, under the whole tag. *)
Lemma authenticate_cut (n : nat) :
  authenticate key iv tag (take n ct) false =
  if bool_decide (tag = GCM.auth_tag key iv (take n ct))
  then Ok (Utf8.decode (take n (Utf8.encode x)))
  else Throw UnableToAuthenticate.
Proof using Hiv.
  unfold authenticate. rewrite Hiv. unfold tag.
  rewrite length_auth_tag, take_auth_tag. change (valid_tag_length 16) with true.
  cbn [Nat.eqb negb]. rewrite gctr_take. unfold ct. rewrite gctr_involutive. reflexivity.
Qed.

Lemma content_no_digit (q : nat) (d : N) :
  (q < length (Hex.encode ct))%nat -> Hex.unhex d = None ->
  decryptData (VString k)
    (VString (Hex.encode iv ++ [colon] ++ Hex.encode tag ++ [colon]
              ++ <[q := d]> (Hex.encode ct))) =
  if bool_decide (d = colon) && Nat.odd q then Throw InvalidArgValue
  else if bool_decide (tag = GCM.auth_tag key iv (take (q / 2) ct))
       then Ok (Utf8.decode (take (q / 2) (Utf8.encode x)))
       else Throw UnableToAuthenticate.
Proof using Hkey Hiv.
  intros Hq Hd. destruct (bool_decide (d = colon)) eqn:Ed.
  - apply bool_decide_eq_true in Ed. subst d.
    rewrite insert_take_drop by exact Hq.
    change (Hex.encode iv ++ [colon] ++ Hex.encode tag ++ [colon] ++
              take q (Hex.encode ct) ++ colon :: drop (S q) (Hex.encode ct))
      with (Hex.encode iv ++ [colon] ++ Hex.encode tag ++ [colon] ++
              take q (Hex.encode ct) ++ [colon] ++ drop (S q) (Hex.encode ct)).
    rewrite decrypt_four; try assumption;
      try apply Forall_take; try apply encode_no_colon.
    rewrite !hex_decode_encode, decode_take_encode.
    rewrite length_take_le by lia. cbn [andb].
    destruct (Nat.odd q).
    + unfold authenticate. rewrite Hiv. unfold tag. now rewrite length_auth_tag.
    + apply authenticate_cut.
  - apply bool_decide_eq_false in Ed. cbn [andb].
    rewrite decrypt_content_text by (apply Forall_insert; [apply encode_no_colon|exact Ed]).
    rewrite decode_insert_none, odd_insert, even_encode by assumption.
    apply authenticate_cut.
Qed.

End Replaced.

(** With the hash subkey 0 the tag of one content is accepted for any other. *)
Lemma authenticate_zero (key iv ct ct' : list byte) :
  GCM.hash_subkey key = 0 -> length iv = 12%nat ->
  authenticate key iv (GCM.auth_tag key iv ct) ct' false =
  Ok (Utf8.decode (GCM.gctr key iv ct')).
Proof.
  intros H Hiv. rewrite (auth_tag_zero key iv ct' ct H).
  now apply authenticate_whole.
Qed.

Lemma length_encoded (key iv : list byte) (x : jsstring) :
  length iv = 12%nat ->
  length (encoded key iv x) = (58 + length (Hex.encode (ciphertext key iv x)))%nat.
Proof.
  intros Hiv. unfold encoded. rewrite !length_app, !length_encode, Hiv, length_auth_tag.
  cbn [length]. lia.
Qed.

(** C2, as the code has it.  In an encoded string c produced by encryptData
    from x under a usable key, the character at position p is replaced by d.
    decryptData gives the decoded plain text back from c itself, and from
    the changed string:

    - p in the TAG segment: the authentication error of decipher.final when
      d is a hexadecimal digit of another value; the plain text when d is a
      digit of the same value (a letter in the other case); when d is no
      digit and no colon the tag is read up to the pair d stands in, and the
      plain text is returned if 4, 8 or 12 to 15 bytes are left, the error
      of setAuthTag thrown if not; when d is a colon the string has four
      segments and the first bytes of the tag are checked against the rest
      of it;
    - p in the CIPHERTEXT segment: the authentication error when d is a
      digit of another value and the hash subkey of the key is invertible,
      whereas with the subkey 0, which is not invertible, a changed plain
      text is returned; the plain text when d is a digit of the same value;
      when d is no digit the content is read up to the pair d stands in (a
      colon after an odd number of characters is the error of an odd
      length), and the first bytes of the plain text are returned if the tag
      is also the tag of that part, the authentication error thrown if not.

    A hexadecimal digit d is of the same or of another value than the one at
    p: no case is left out. *)
Theorem tampering_detected (securityKey : value) (x : jsstring) (w w' : world)
    (c : jsstring) (p : nat) (d : N) :
  usable_key securityKey = true ->
  encryptData securityKey (VString x) w = (Ok c, w') ->
  let key := key_bytes securityKey in
  let iv := drawn w 12 in
  let ct := GCM.gctr key iv (Utf8.encode x) in
  let tag := GCM.auth_tag key iv ct in
  let plain := Ok (Utf8.decode (Utf8.encode x)) in
  let changed := decryptData securityKey (VString (<[p := d]> c)) in
  decryptData securityKey (VString c) = plain /\
  (in_tag p \/ in_content c p -> Hex.is_hex_digit d = true ->
   other_digit c p d = negb (same_digit c p d)) /\
  (in_tag p ->
   let q := (p - 25)%nat in
   (other_digit c p d = true -> changed = Throw UnableToAuthenticate) /\
   (same_digit c p d = true -> changed = plain) /\
   (Hex.is_hex_digit d = false -> d <> colon ->
    changed = if valid_tag_length (q / 2) then plain else Throw InvalidAuthTagLength) /\
   (d = colon ->
    changed = authenticate key iv (take (q / 2) tag) (drop (S q / 2) tag) (Nat.even q))) /\
  (in_content c p ->
   let q := (p - 58)%nat in
   (other_digit c p d = true -> GCM.invertible (GCM.hash_subkey key) = true ->
    changed = Throw UnableToAuthenticate) /\
   (other_digit c p d = true -> GCM.hash_subkey key = 0 ->
    GCM.invertible (GCM.hash_subkey key) = false /\
    exists b b', ct !! (q / 2)%nat = Some b /\ b' <> b /\
      changed = Ok (Utf8.decode (GCM.gctr key iv (<[(q / 2)%nat := b']> ct)))) /\
   (same_digit c p d = true -> changed = plain) /\
   (Hex.is_hex_digit d = false ->
    changed = if bool_decide (d = colon) && Nat.odd q then Throw InvalidArgValue
              else if bool_decide (tag = GCM.auth_tag key iv (take (q / 2) ct))
                   then Ok (Utf8.decode (take (q / 2) (Utf8.encode x)))
                   else Throw UnableToAuthenticate)).
Proof.
  intros Hk Henc. destruct (usable_key_string _ Hk) as (k & -> & _).
  rewrite encryptData_eq in Henc by exact Hk. injection Henc as <- _.
  pose proof (length_drawn w 12) as Hiv.
  cbv zeta. cbn [key_bytes]. set (iv := drawn w 12) in *.
  pose proof (length_iv_text iv Hiv) as Hliv.
  pose proof (length_tag_text k iv x) as Hltag.
  assert (forall c, Hex.is_hex_digit c = false -> Hex.unhex c = None) as Hno
    by (intros c0; unfold Hex.is_hex_digit; now destruct (Hex.unhex c0)).
  split; [now apply decrypt_encoded|]. split.
  { intros Hp Hd. unfold other_digit, same_digit. unfold Hex.is_hex_digit in Hd.
    destruct (Hex.unhex d); [|discriminate].
    destruct (encoded (Hex.decode k) iv x !! p) eqn:E; [reflexivity|].
    apply lookup_ge_None in E. rewrite length_encoded in E by exact Hiv.
    unfold in_tag, in_content in Hp. rewrite length_encoded in Hp by exact Hiv. lia. }
  rewrite (encoded_parts k iv x). split.
  - intros Hp.
    destruct (insert_in_tag _ _ (Hex.encode (GCM.gctr (Hex.decode k) iv (Utf8.encode x)))
                p d Hliv Hltag Hp) as [-> Hlook].
    split; [|split; [|split]].
    + intros Hd. apply (other_digit_at _ _ _ _ _ Hlook) in Hd.
      now apply tag_other_digit.
    + intros Hd. apply (same_digit_at _ _ _ _ _ Hlook) in Hd.
      now apply tag_same_digit.
    + intros Hd Hc. apply tag_no_digit; try assumption; [|now apply Hno].
      unfold in_tag in Hp. lia.
    + intros ->. apply tag_colon; try assumption. unfold in_tag in Hp. lia.
  - intros Hp.
    destruct (insert_in_content _ _ (Hex.encode (GCM.gctr (Hex.decode k) iv (Utf8.encode x)))
                p d Hliv Hltag Hp) as (-> & Hlook & Hq).
    split; [|split; [|split]].
    + intros Hd Hinv. apply (other_digit_at _ _ _ _ _ Hlook) in Hd.
      destruct (content_other_digit k iv x Hk _ d Hd) as (b & b' & Hb & Hne & ->).
      apply authenticate_other;
        [exact Hiv|apply length_auth_tag|].
      apply not_eq_sym. now apply (auth_tag_insert _ iv _ _ b b').
    + intros Hd H0. apply (other_digit_at _ _ _ _ _ Hlook) in Hd.
      split; [rewrite H0; vm_compute; reflexivity|].
      destruct (content_other_digit k iv x Hk _ d Hd) as (b & b' & Hb & Hne & ->).
      exists b, b'. split; [exact Hb|]. split; [exact Hne|].
      now apply authenticate_zero.
    + intros Hd. apply (same_digit_at _ _ _ _ _ Hlook) in Hd.
      now apply content_same_digit.
    + intros Hd. apply content_no_digit; try assumption. now apply Hno.
Qed.

Lemma tampering_detected_witness :
  usable_key Sample.key = true /\
  encryptData Sample.key (VString Sample.phone) Sample.world0
    = (Ok Sample.encoded_phone, advance Sample.world0 12) /\
  in_tag 25 /\ in_content Sample.encoded_phone 58 /\
  other_digit Sample.encoded_phone 25 48 = true /\
  other_digit Sample.encoded_phone 58 48 = true /\
  GCM.invertible (GCM.hash_subkey (key_bytes Sample.key)) = true /\
  decryptData Sample.key (VString (<[25%nat := 48]> Sample.encoded_phone))
    = Throw UnableToAuthenticate /\
  decryptData Sample.key (VString (<[58%nat := 48]> Sample.encoded_phone))
    = Throw UnableToAuthenticate.
Proof.
  assert (encryptData Sample.key (VString Sample.phone) Sample.world0
          = (Ok Sample.encoded_phone, advance Sample.world0 12)) as Henc
    by (vm_compute; reflexivity).
  assert (in_tag 25) as Htag by (unfold in_tag; lia).
  assert (in_content Sample.encoded_phone 58) as Hct
    by (unfold in_content; vm_compute; lia).
  assert (GCM.invertible (GCM.hash_subkey (key_bytes Sample.key)) = true) as Hinv
    by (vm_compute; reflexivity).
  split; [reflexivity|]. split; [exact Henc|].
  split; [exact Htag|]. split; [exact Hct|].
  split; [reflexivity|]. split; [reflexivity|]. split; [exact Hinv|]. split.
  - pose proof (tampering_detected Sample.key Sample.phone Sample.world0 _
                  Sample.encoded_phone 25 48 eq_refl Henc) as H.
    cbv zeta in H. destruct H as (_ & _ & H & _).
    destruct (H Htag) as (H1 & _). apply H1. reflexivity.
  - pose proof (tampering_detected Sample.key Sample.phone Sample.world0 _
                  Sample.encoded_phone 58 48 eq_refl Henc) as H.
    cbv zeta in H. destruct H as (_ & _ & _ & H).
    destruct (H Hct) as (H1 & _). apply H1; [reflexivity|exact Hinv].
Defined.

(** C2 as the spec words it fails.  In the encoding of the sample phone
    number, position 25 of the TAG segment holds the digit c: with C in its
    place the tag decodes to the same bytes and decryptData returns the
    plain text.  With z at position 33 the tag is read up to there, four
    bytes, and decryptData returns the plain text as well.  In the encoding
    of another text of 32 characters, z at position 90 of the CIPHERTEXT
    segment ends the content after 16 bytes, of which the tag is the same,
    and decryptData returns the first 16 characters: part of the plain
    text. *)
Lemma tampered_input_accepted :
  encryptData Sample.key (VString Sample.phone) Sample.world0
    = (Ok Sample.encoded_phone, advance Sample.world0 12) /\
  in_tag 25 /\
  other_character Sample.encoded_phone 25 67 = true /\
  decryptData Sample.key (VString (<[25%nat := 67]> Sample.encoded_phone))
    = Ok Sample.phone /\
  in_tag 33 /\
  Hex.is_hex_digit 122 = false /\
  decryptData Sample.key (VString (<[33%nat := 122]> Sample.encoded_phone))
    = Ok Sample.phone /\
  encryptData Sample.key (VString Sample.chosen_text) Sample.world0
    = (Ok Sample.encoded_chosen_text, advance Sample.world0 12) /\
  in_content Sample.encoded_chosen_text 90 /\
  decryptData Sample.key (VString (<[90%nat := 122]> Sample.encoded_chosen_text))
    = Ok (take 16 Sample.chosen_text).
Proof.
  split; [vm_compute; reflexivity|]. split; [unfold in_tag; lia|].
  split; [vm_compute; reflexivity|]. split; [vm_compute; reflexivity|].
  split; [unfold in_tag; lia|]. split; [reflexivity|].
  split; [vm_compute; reflexivity|]. split; [vm_compute; reflexivity|].
  split; [unfold in_content; vm_compute; lia|]. vm_compute. reflexivity.
Qed.








End Cipher.

(** ** The bcrypt package *)

Module BcryptFacts.
Import Bytes JS Runtime Bcrypt.
Import BytesFacts EncryptionFacts.

Ltac Zify.zify_post_hook ::= Z.to_euclidean_division_equations.

Lemma char64_code (n : N) : n < 64 -> char64 (code n) = Some n.
Proof.
intros Hn.
apply (below_forallb (fun n => bool_decide (char64 (code n) = Some n)) 64) in Hn.
- now apply bool_decide_eq_true in Hn.
- now vm_compute.
Qed.

Lemma code_ascii (n : N) : n < 64 -> 0 < code n < 128.
Proof.
intros Hn.
apply (below_forallb (fun n => (0 <? code n) && (code n <? 128)) 64) in Hn.
- apply andb_true_iff in Hn as [H1 H2].
  apply N.ltb_lt in H1, H2. now split.
- now vm_compute.
Qed.

(** Three bytes are four characters, and are read back from them. *)
Lemma decode_group (a b c : byte) (len : nat) (rest : jsstring) :
  decode_base64 (S (S (S len)))
    ([code (Byte.to_N a / 4); code (Byte.to_N a mod 4 * 16 + Byte.to_N b / 16);
      code (Byte.to_N b mod 16 * 4 + Byte.to_N c / 64); code (Byte.to_N c mod 64)] ++ rest)
  = a :: b :: c :: decode_base64 len rest.
Proof.
pose proof (to_N_lt a). pose proof (to_N_lt b). pose proof (to_N_lt c).
cbn [app decode_base64].
rewrite !char64_code by lia.
f_equal; [|f_equal; [|f_equal]]; apply to_N_inj; rewrite to_N_byte_of_N_mod; lia.
Qed.

(** The last byte of a salt is two characters. *)
Lemma decode_last (a : byte) (rest : jsstring) :
  decode_base64 1 ([code (Byte.to_N a / 4); code (Byte.to_N a mod 4 * 16)] ++ rest) = [a].
Proof.
pose proof (to_N_lt a).
cbn [app decode_base64]. rewrite !char64_code by lia.
f_equal. apply to_N_inj. rewrite to_N_byte_of_N_mod. lia.
Qed.

Lemma encode_group (a b c : byte) (rest : list byte) :
  encode_base64 (a :: b :: c :: rest) =
  [code (Byte.to_N a / 4); code (Byte.to_N a mod 4 * 16 + Byte.to_N b / 16);
   code (Byte.to_N b mod 16 * 4 + Byte.to_N c / 64); code (Byte.to_N c mod 64)]
    ++ encode_base64 rest.
Proof. reflexivity. Qed.

(** A salt of 3n+1 bytes is 4n+2 characters, and is read back from them
    whatever follows. *)
Lemma decode_encode_base64 (n : nat) (seed : list byte) (rest : jsstring) :
  length seed = (3 * n + 1)%nat ->
  decode_base64 (3 * n + 1) (encode_base64 seed ++ rest) = seed /\
  length (encode_base64 seed) = (4 * n + 2)%nat.
Proof.
revert seed. induction n as [|n IH]; intros seed Hlen.
- destruct seed as [|a [|b seed]]; try (simpl in Hlen; lia).
  split; [apply decode_last|reflexivity].
- destruct seed as [|a [|b [|c seed]]]; try (simpl in Hlen; lia).
  destruct (IH seed) as [E1 E2]; [simpl in Hlen; lia|].
  rewrite encode_group. split.
  + replace (3 * S n + 1)%nat with (S (S (S (3 * n + 1)))) by lia.
    rewrite <- app_assoc, decode_group. now rewrite E1.
  + rewrite length_app, E2. simpl. lia.
Qed.

Lemma salt_read_back (seed : list byte) (rest : jsstring) :
  length seed = 16%nat ->
  take 16 (decode_base64 16 (encode_base64 seed ++ rest) ++ replicate 16 x00) = seed /\
  length (encode_base64 seed) = 22%nat.
Proof.
intros Hlen. destruct (decode_encode_base64 5 seed rest Hlen) as [E1 E2].
split; [|exact E2].
change (3 * 5 + 1)%nat with 16%nat in E1. rewrite E1.
rewrite take_app_le by lia. apply take_ge. lia.
Qed.

Lemma log_rounds_range (r : N) : 4 <= N.min 31 (N.max 4 r) <= 31.
Proof. lia. Qed.

Lemma atoi2_two_digits (n : N) :
  n < 32 -> atoi2 (48 + n / 10) (48 + n mod 10) = Z.of_N n.
Proof.
intros Hn.
apply (below_forallb
         (fun n => bool_decide (atoi2 (48 + n / 10) (48 + n mod 10) = Z.of_N n)) 32) in Hn.
- now apply bool_decide_eq_true in Hn.
- now vm_compute.
Qed.

(** A string "$2b$NN$" followed by at least 22 characters is a salt when
    the cost NN is between 4 and 30, and is none when it is 31. *)
Lemma parse_salt_2b (logr : N) (text : jsstring) :
  4 <= logr <= 30 -> (22 <= length text)%nat ->
  parse_salt ([36; 50; 98; 36] ++ two_digits logr ++ [36] ++ text) = Some (98, logr, text).
Proof.
intros Hr Ht. unfold two_digits. cbn [app parse_salt].
change (50 <? 50) with false. cbn [N.eqb Pos.eqb orb].
rewrite atoi2_two_digits by lia.
destruct (Z.ltb_spec (Z.of_N logr) 4); [lia|].
destruct (Z.ltb_spec 30 (Z.of_N logr)); [lia|]. cbn [orb].
destruct (Nat.ltb_spec (length text * 3 / 4) 16) as [Hlt|_].
- exfalso. pose proof (Nat.div_mod_eq (length text * 3) 4).
  pose proof (Nat.mod_upper_bound (length text * 3) 4). lia.
- now rewrite N2Z.id.
Qed.

Lemma parse_salt_31 (text : jsstring) :
  parse_salt ([36; 50; 98; 36] ++ two_digits 31 ++ [36] ++ text) = None.
Proof. reflexivity. Qed.

(** What ValidateSalt lets through has one of the three minor versions
    and a cost between 4 and 30. *)
Lemma parse_salt_fields (s : jsstring) (minor logr : N) (text : jsstring) :
  parse_salt s = Some (minor, logr, text) ->
  (minor = 0 \/ minor = 97 \/ minor = 98) /\ 4 <= logr <= 30.
Proof.
unfold parse_salt. intros E.
repeat case_match; try discriminate; injection E as <- <- <-;
  repeat match goal with
         | H : (_ || _)%bool = true |- _ => apply orb_true_iff in H as [H|H]
         | H : (_ || _)%Z = false |- _ => apply orb_false_iff in H as [? ?]
         | H : (_ || _)%bool = false |- _ => apply orb_false_iff in H as [? ?]
         | H : (_ =? _) = true |- _ => apply N.eqb_eq in H
         end; subst; (split; [tauto|lia]).
Qed.

(** ASCII strings are their own C strings *)

Lemma until_zero_ascii (s : jsstring) : plain_ascii s -> until_zero s = s.
Proof.
induction 1 as [|c s Hc _ IH]; [reflexivity|]. cbn [until_zero].
destruct (N.eqb_spec c 0); [lia|]. now rewrite IH.
Qed.

Lemma encode_units_ascii (s : jsstring) : plain_ascii s -> Utf8.encode_units s = s.
Proof.
induction 1 as [|c s Hc _ IH]; [reflexivity|]. cbn [Utf8.encode_units].
unfold Utf8.is_high, Utf8.is_low, Utf8.encode_cp.
destruct (N.leb_spec 0xD800 c); [lia|]. cbn [andb].
destruct (N.leb_spec 0xDC00 c); [lia|]. cbn [andb].
destruct (N.ltb_spec c 0x80); [|lia]. now rewrite IH.
Qed.

Lemma c_str_ascii (s : jsstring) : plain_ascii s -> c_str s = s.
Proof.
intros Hs. unfold c_str, Utf8.encode. rewrite encode_units_ascii by exact Hs.
rewrite <- (until_zero_ascii s Hs) at 2. f_equal.
induction Hs as [|c s Hc _ IH]; [reflexivity|]. cbn [map].
rewrite to_N_byte_of_N by lia. now rewrite IH.
Qed.

Lemma encode_base64_ascii (data : list byte) : plain_ascii (encode_base64 data).
Proof.
enough (forall n data, (length data <= n)%nat -> plain_ascii (encode_base64 data)) as G
  by (now apply (G (length data))).
clear data. induction n as [|n IH]; intros data Hn.
- destruct data; [constructor|simpl in Hn; lia].
- destruct data as [|a [|b [|c rest]]].
  + constructor.
  + pose proof (to_N_lt a). repeat constructor; apply code_ascii; lia.
  + pose proof (to_N_lt a). pose proof (to_N_lt b).
    repeat constructor; apply code_ascii; lia.
  + pose proof (to_N_lt a). pose proof (to_N_lt b). pose proof (to_N_lt c).
    rewrite encode_group. apply Forall_app. split.
    * repeat constructor; apply code_ascii; lia.
    * apply IH. simpl in Hn. lia.
Qed.

Lemma two_digits_ascii (n : N) : n < 100 -> plain_ascii (two_digits n).
Proof. intros Hn. unfold two_digits. repeat constructor; lia. Qed.

(** What follows a zero character is not part of the C string *)

Lemma encode_units_cons2 (c d : N) (rest : jsstring) :
  Utf8.encode_units (c :: d :: rest) =
  if Utf8.is_high c then
    if Utf8.is_low d then
      Utf8.encode_cp (0x10000 + (c - 0xD800) * 0x400 + (d - 0xDC00))
        ++ Utf8.encode_units rest
    else Utf8.encode_cp 0xFFFD ++ Utf8.encode_units (d :: rest)
  else if Utf8.is_low c then Utf8.encode_cp 0xFFFD ++ Utf8.encode_units (d :: rest)
  else Utf8.encode_cp c ++ Utf8.encode_units (d :: rest).
Proof. reflexivity. Qed.

Lemma encode_units_zero (h junk : jsstring) :
  Utf8.encode_units (h ++ 0 :: junk) = Utf8.encode_units h ++ 0 :: Utf8.encode_units junk.
Proof.
enough (Utf8.encode_units (h ++ 0 :: junk)
        = Utf8.encode_units h ++ 0 :: Utf8.encode_units junk /\
        forall c, Utf8.encode_units (c :: h ++ 0 :: junk)
                  = Utf8.encode_units (c :: h) ++ 0 :: Utf8.encode_units junk) as G
  by apply G.
induction h as [|d h [IH1 IH2]].
- split; [reflexivity|]. intros c. cbn [app]. rewrite encode_units_cons2.
  cbn [Utf8.encode_units].
  destruct (Utf8.is_high c); [reflexivity|].
  destruct (Utf8.is_low c); now rewrite <- app_assoc.
- split; [apply IH2|]. intros c. cbn [app]. rewrite !encode_units_cons2.
  destruct (Utf8.is_high c).
  + destruct (Utf8.is_low d).
    * now rewrite IH1, <- app_assoc.
    * now rewrite IH2, <- app_assoc.
  + destruct (Utf8.is_low c); now rewrite IH2, <- app_assoc.
Qed.

Lemma until_zero_app (a b : list N) : until_zero (a ++ 0 :: b) = until_zero a.
Proof.
induction a as [|c a IH]; [reflexivity|]. cbn [app until_zero].
destruct (c =? 0); [reflexivity|]. now rewrite IH.
Qed.

Lemma c_str_zero (h junk : jsstring) : c_str (h ++ 0 :: junk) = c_str h.
Proof.
unfold c_str, Utf8.encode. rewrite encode_units_zero, !map_app. cbn [map].
change (Byte.to_N (byte_of_N 0)) with 0. apply until_zero_app.
Qed.

End BcryptFacts.

(** ** Counting *)

Module CountingFacts.
Import Bytes JS Counting BytesFacts.

Lemma elem_of_words {A} (alphabet : list A) (n : nat) (l : list A) :
  l ∈ words alphabet n <-> length l = n /\ Forall (fun c => c ∈ alphabet) l.
Proof.
revert l. induction n as [|n IH]; intros l; cbn [words].
- rewrite list_elem_of_singleton. split.
  + intros ->. split; [reflexivity|constructor].
  + intros [Hl _]. now destruct l.
- rewrite list_elem_of_In, in_flat_map. split.
  + intros (c & Hc & Hl). apply in_map_iff in Hl as (t & <- & Ht).
    apply list_elem_of_In, IH in Ht as [Hlen Hall].
    split; [simpl; now rewrite Hlen|]. constructor; [now apply list_elem_of_In|exact Hall].
  + intros [Hlen Hall]. destruct l as [|c t]; [discriminate|].
    apply Forall_cons in Hall as [Hc Ht]. exists c. split; [now apply list_elem_of_In|].
    apply in_map, list_elem_of_In, IH. split; [now injection Hlen|exact Ht].
Qed.

Lemma length_words {A} (alphabet : list A) (n : nat) :
  length (words alphabet n) = (length alphabet ^ n)%nat.
Proof.
induction n as [|n IH]; [reflexivity|]. cbn [words].
rewrite (flat_map_constant_length (c := length (words alphabet n))).
- rewrite IH, Nat.pow_succ_r'. reflexivity.
- intros c _. apply length_map.
Qed.

Lemma NoDup_flat_cons {A} (alphabet : list A) (ws : list (list A)) :
  NoDup alphabet -> NoDup ws ->
  NoDup (flat_map (fun c => map (cons c) ws) alphabet).
Proof.
intros Hal Hws. induction Hal as [|c al Hc Hal IHal]; cbn [flat_map]; [constructor|].
apply NoDup_app. split; [|split; [|exact IHal]].
- apply NoDup_fmap_2; [|exact Hws]. intros x y. now intros [= ->].
- intros l Hl Hl'. apply list_elem_of_In, in_map_iff in Hl as (t & <- & _).
  apply list_elem_of_In, in_flat_map in Hl' as (d & Hd & Hl').
  apply in_map_iff in Hl' as (t' & [= -> _] & _). now apply list_elem_of_In in Hd.
Qed.

Lemma NoDup_words {A} (alphabet : list A) (n : nat) :
  NoDup alphabet -> NoDup (words alphabet n).
Proof.
intros Hal. induction n as [|n IH]; cbn [words]; [apply NoDup_singleton|].
now apply NoDup_flat_cons.
Qed.

Lemma elem_of_words_upto {A} (alphabet : list A) (m : nat) (l : list A) :
  (length l <= m)%nat -> Forall (fun c => c ∈ alphabet) l -> l ∈ words_upto alphabet m.
Proof.
intros Hlen Hall. induction m as [|m IH].
- apply elem_of_words. split; [lia|exact Hall].
- cbn [words_upto]. apply elem_of_app.
  destruct (decide (length l = S m)) as [E|E].
  + right. now apply elem_of_words.
  + left. apply IH. lia.
Qed.

Lemma length_words_upto {A} (alphabet : list A) (m : nat) :
  (2 <= length alphabet)%nat ->
  (length (words_upto alphabet m) < 2 * length alphabet ^ m)%nat.
Proof.
intros Hal. induction m as [|m IH].
- cbn [words_upto]. rewrite length_words, Nat.pow_0_r. lia.
- cbn [words_upto]. rewrite length_app, length_words, Nat.pow_succ_r'.
  pose proof (Nat.pow_nonzero (length alphabet) m ltac:(lia)). nia.
Qed.

Lemma elem_of_all_bytes (b : byte) : b ∈ all_bytes.
Proof.
unfold all_bytes. apply list_elem_of_In, in_map_iff.
exists (N.to_nat (Byte.to_N b)). rewrite N2Nat.id, byte_of_N_to_N.
split; [reflexivity|]. apply in_seq. pose proof (to_N_lt b). lia.
Qed.

(** Of more things than there are values, two have the same value. *)
Lemma collide_or_NoDup {A B} `{EqDecision B} (f : A -> B) (l : list A) :
  NoDup l ->
  (exists x y, x ∈ l /\ y ∈ l /\ x <> y /\ f x = f y) \/ NoDup (f <$> l).
Proof.
induction 1 as [|x l Hx Hl IH].
- right. constructor.
- destruct IH as [(a & b & Ha & Hb & Hne & E)|IH].
  + left. exists a, b. repeat split; try assumption; now constructor.
  + destruct (decide (f x ∈ f <$> l)) as [Hin|Hin].
    * left. apply list_elem_of_fmap in Hin as (y & E & Hy).
      exists x, y. split; [constructor|]. split; [now constructor|].
      split; [|exact E]. intros ->. contradiction.
    * right. now constructor.
Qed.

Lemma pigeonhole {A B} `{EqDecision B} (f : A -> B) (l : list A) (k : list B) :
  NoDup l -> (forall x, x ∈ l -> f x ∈ k) -> (length k < length l)%nat ->
  exists x y, x ∈ l /\ y ∈ l /\ x <> y /\ f x = f y.
Proof.
intros Hl Hf Hlen. destruct (collide_or_NoDup f l Hl) as [C|Hnd]; [exact C|].
exfalso. assert (f <$> l ⊆+ k) as Hsub.
{ apply NoDup_submseteq; [exact Hnd|].
  intros y Hy. apply list_elem_of_fmap in Hy as (x & -> & Hx). now apply Hf. }
apply submseteq_length in Hsub. rewrite length_fmap in Hsub. lia.
Qed.

(** There are more strings of 47 letters than lists of at most 23 bytes. *)
Lemma more_passwords_than_digests :
  (length (words_upto all_bytes 23) < length (words letters 47))%nat.
Proof.
assert (2 <= length all_bytes)%nat as H2 by (vm_compute; lia).
pose proof (length_words_upto all_bytes 23 H2) as H.
rewrite length_words.
change (length all_bytes) with (16 ^ 2)%nat in H.
change (length letters) with 16%nat.
rewrite <- Nat.pow_mul_r in H.
eapply Nat.lt_le_trans; [exact H|].
change (2 * 23)%nat with 46%nat.
rewrite (Nat.pow_succ_r' 16 46).
pose proof (Nat.pow_nonzero 16 46 ltac:(lia)). lia.
Qed.

End CountingFacts.

(** ** The Blowfish of the bcrypt package *)

Module BlowfishFacts.
Import Bytes JS Runtime Bcrypt HashSecurity.

Lemma fold_left_ext_in {A B} (f g : A -> B -> A) (l : list B) (a : A) :
  (forall a x, In x l -> f a x = g a x) -> fold_left f l a = fold_left g l a.
Proof.
revert a. induction l as [|x l IH]; intros a E; [reflexivity|]. cbn [fold_left].
rewrite E by now left. apply IH. intros b y Hy. apply E. now right.
Qed.

Lemma iter_ext {A} (n : N) (f g : A -> A) (a : A) :
  (forall x, f x = g x) -> N.iter n f a = N.iter n g a.
Proof.
intros E. induction n as [|n IH] using N.peano_ind; [reflexivity|].
now rewrite !N.iter_succ, IH, E.
Qed.

(** The key schedule reads the key through the 18 words of its stream
    only: keys that read the same in a circle give the same state. *)
Lemma expand_key (data : option (list byte)) (key key' : list byte) (c : Blf.blf_ctx) :
  (forall i, (i < 18)%nat ->
     Blf.Blowfish_stream2word key (4 * i) = Blf.Blowfish_stream2word key' (4 * i)) ->
  Blf.expand data key c = Blf.expand data key' c.
Proof.
intros E. unfold Blf.expand.
rewrite (fold_left_ext_in _
           (fun p i => PArray.set p (Blf.idx i)
                         (Uint63.lxor (PArray.get p (Blf.idx i))
                                      (Blf.Blowfish_stream2word key' (4 * i))))).
- reflexivity.
- intros p i Hi. apply in_seq in Hi. now rewrite E by lia.
Qed.

Lemma eksblowfish_key (logr klen klen' : N) (csalt key key' : list byte) :
  (forall i, (i < 18)%nat ->
     Blf.Blowfish_stream2word key (4 * i) = Blf.Blowfish_stream2word key' (4 * i)) ->
  Blf.eksblowfish logr csalt klen key = Blf.eksblowfish logr csalt klen' key'.
Proof.
intros E. unfold Blf.eksblowfish, Blf.Blowfish_expandstate, Blf.Blowfish_expand0state.
rewrite (expand_key _ key key' _ E).
rewrite (iter_ext _ _ (fun state => Blf.expand None csalt (Blf.expand None key' state))).
- reflexivity.
- intros state. now rewrite (expand_key _ key key' _ E).
Qed.

(** A test vector of the Blowfish password hash: the password U*U with
    the salt CCCCCCCCCCCCCCCCCCCCC. at cost 5. *)
Example bcrypt_test_vector :
  @bcrypt Sample.blowfish (Utf8.encode (js "U*U")) (js "$2a$05$CCCCCCCCCCCCCCCCCCCCC.")
  = Some (js "$2a$05$CCCCCCCCCCCCCCCCCCCCC.E5YPO9kmyuRGyh0XouQYb4YMJKvyOeW").
Proof. vm_compute. reflexivity. Qed.

(** The hash of secret at cost 4 with the first 16 bytes of the sample
    source as its salt, and the answer to wrong. *)
Lemma secret_hashed (StringToNumber : jsstring -> value) :
  @hash_string (Blf.primitives StringToNumber) 4 (drawn Sample.world0 16)
    (Utf8.encode (js "secret"))
  = js "$2b$04$.umPE/6kJRO5OijOTz3jZ.FJEp71D7ytxOetttNaFILYIyLef9h0G".
Proof. vm_compute. reflexivity. Qed.

Lemma wrong_refused (StringToNumber : jsstring -> value) :
  @comparePassword (Blf.primitives StringToNumber) (VString (js "wrong"))
    (VString (js "$2b$04$.umPE/6kJRO5OijOTz3jZ.FJEp71D7ytxOetttNaFILYIyLef9h0G"))
  = Ok false.
Proof. vm_compute. reflexivity. Qed.

(** The key ab, zero, ab is, read in a circle, the key ab. *)
Lemma digest_circle (StringToNumber : jsstring -> value) (logr : N) (seed : list byte) :
  @digest (Blf.primitives StringToNumber) logr seed (Utf8.encode [97; 98; 0; 97; 98])
  = @digest (Blf.primitives StringToNumber) logr seed (Utf8.encode (js "ab")).
Proof.
unfold digest. change (@eksblowfish (Blf.primitives StringToNumber)) with Blf.eksblowfish.
refine (f_equal (take 23) _). apply eksblowfish_key. intros i Hi.
set (key := take _ (Utf8.encode [97; 98; 0; 97; 98] ++ [x00])).
set (key' := take _ (Utf8.encode (js "ab") ++ [x00])).
assert (map (fun i => Blf.Blowfish_stream2word key (4 * i)) (seq 0 18)
        = map (fun i => Blf.Blowfish_stream2word key' (4 * i)) (seq 0 18)) as T
  by (vm_compute; reflexivity).
apply (f_equal (fun l => nth i l (Blf.Blowfish_stream2word key (4 * 0)))) in T.
change (Blf.Blowfish_stream2word key (4 * 0))
  with (Blf.Blowfish_stream2word key' (4 * 0)) in T at 2.
rewrite (map_nth (fun i => Blf.Blowfish_stream2word key (4 * i))) in T.
rewrite (map_nth (fun i => Blf.Blowfish_stream2word key' (4 * i))) in T.
rewrite seq_nth in T by exact Hi. exact T.
Qed.

End BlowfishFacts.

(** * The claims about the credential hasher *)

Module Credentials.
Import Bytes JS Runtime Bcrypt HashSecurity.
Import BytesFacts EncryptionFacts BcryptFacts Counting CountingFacts BlowfishFacts.

Section WithPrimitives.
Context `{Primitives}.

(** The C function on a version b salt string, with or without a digest
    behind the salt. *)
Lemma bcrypt_eq (logr : N) (seed key : list byte) (rest : jsstring) :
  4 <= logr <= 30 -> length seed = 16%nat ->
  bcrypt key ([36; 50; 98; 36] ++ two_digits logr ++ [36] ++ encode_base64 seed ++ rest)
  = Some (hash_string logr seed key).
Proof using Type.
intros Hr Hs. destruct (salt_read_back seed rest Hs) as [E1 E2].
unfold bcrypt. rewrite parse_salt_2b; [|exact Hr|rewrite length_app; lia].
rewrite E1. reflexivity.
Qed.

Lemma log_rounds_ok (rounds : value) : 4 <= log_rounds rounds <= 31.
Proof using Type. unfold log_rounds. lia. Qed.

Lemma hash_string_ascii (logr : N) (seed key : list byte) :
  logr < 100 -> plain_ascii (hash_string logr seed key).
Proof using Type.
intros Hr. unfold hash_string, plain_ascii. rewrite !Forall_app.
split; [repeat constructor; lia|]. split; [now apply two_digits_ascii|].
split; [repeat constructor; lia|]. split; apply encode_base64_ascii.
Qed.

Lemma gen_salt_ascii (r : N) (seed : list byte) : plain_ascii (gen_salt r seed).
Proof using Type.
unfold gen_salt, plain_ascii. rewrite !Forall_app.
split; [repeat constructor; lia|]. split; [apply two_digits_ascii; lia|].
split; [repeat constructor; lia|]. apply encode_base64_ascii.
Qed.

(** Hashing with a cost of at most 30: the hash string for the salt drawn. *)
Lemma hash_eq (rounds : value) (p : jsstring) (w : world) :
  log_rounds rounds <= 30 ->
  Bcrypt.hash (VString p) rounds w =
  (Ok (hash_string (log_rounds rounds) (drawn w 16) (Utf8.encode p)), advance w 16).
Proof using Type.
intros Hr.
unfold Bcrypt.hash, genSalt, randomBytes. unfold mbind at 1 2. unfold M_bind.
unfold mret, M_ret. rewrite c_str_ascii by apply gen_salt_ascii.
unfold gen_salt. fold (log_rounds rounds).
pose proof (log_rounds_ok rounds) as Hr'.
pose proof (bcrypt_eq (log_rounds rounds) (drawn w 16) (Utf8.encode p) []
              ltac:(lia) (length_drawn w 16)) as E.
rewrite app_nil_r in E. rewrite E. reflexivity.
Qed.

(** Hashing with a cost of 31: the salt is drawn and refused. *)
Lemma hash_31 (rounds : value) (p : jsstring) (w : world) :
  log_rounds rounds = 31 ->
  exists e, Bcrypt.hash (VString p) rounds w = (Throw e, advance w 16).
Proof using Type.
intros Hr.
unfold Bcrypt.hash, genSalt, randomBytes. unfold mbind at 1 2. unfold M_bind.
unfold mret, M_ret. rewrite c_str_ascii by apply gen_salt_ascii.
unfold gen_salt. fold (log_rounds rounds). rewrite Hr.
unfold bcrypt. rewrite parse_salt_31. now eexists.
Qed.

Lemma hash_inv (data rounds : value) (w w' : world) (h : jsstring) :
  Bcrypt.hash data rounds w = (Ok h, w') ->
  exists p, data = VString p /\ log_rounds rounds <= 30 /\
    h = hash_string (log_rounds rounds) (drawn w 16) (Utf8.encode p) /\
    w' = advance w 16.
Proof using Type.
intros E. destruct data as [| | | | |p]; try discriminate.
exists p. split; [reflexivity|].
pose proof (log_rounds_ok rounds) as Hr.
destruct (N.le_gt_cases (log_rounds rounds) 30) as [Hle|Hgt].
- rewrite hash_eq in E by exact Hle. injection E as <- <-. now split.
- destruct (hash_31 rounds p w ltac:(lia)) as [e He]. congruence.
Qed.

Lemma compare_hash_string (logr : N) (seed key : list byte) (p' : jsstring) :
  4 <= logr <= 30 -> length seed = 16%nat ->
  Bcrypt.compare (VString p') (VString (hash_string logr seed key)) =
  Ok (bool_decide (hash_string logr seed (Utf8.encode p') = hash_string logr seed key)).
Proof using Type.
intros Hr Hs. unfold Bcrypt.compare.
rewrite c_str_ascii by (apply hash_string_ascii; lia).
unfold hash_string at 1. now rewrite bcrypt_eq.
Qed.

Lemma hash_string_seed (logr : N) (seed1 seed2 key1 key2 : list byte) :
  length seed1 = 16%nat -> length seed2 = 16%nat ->
  hash_string logr seed1 key1 = hash_string logr seed2 key2 -> seed1 = seed2.
Proof using Type.
intros H1 H2 E. unfold hash_string in E.
apply app_inv_head in E. apply app_inv_head in E. apply app_inv_head in E.
destruct (salt_read_back seed1 (encode_base64 (digest logr seed1 key1)) H1) as [D1 L1].
destruct (salt_read_back seed2 (encode_base64 (digest logr seed2 key2)) H2) as [D2 L2].
rewrite <- D1, <- D2. now rewrite E.
Qed.

(** Version b is given no more than 72 bytes of the password and one more. *)
Lemma digest_long (logr : N) (seed key key' : list byte) :
  (73 <= length key)%nat -> take 73 key' = take 73 key ->
  digest logr seed key' = digest logr seed key.
Proof using Type.
intros Hlen E.
assert (73 <= length key')%nat as Hlen'.
{ apply (f_equal length) in E. rewrite !length_take in E. lia. }
unfold digest, Bcrypt.key_length. cbn [N.eqb Pos.eqb].
replace (N.min (N.of_nat (length key)) 72) with 72 by lia.
replace (N.min (N.of_nat (length key')) 72) with 72 by lia.
change (N.to_nat (N.max 1 (72 + 1))) with 73%nat.
now rewrite !take_app_le, E by lia.
Qed.

(** The digest depends on the key through what is read of it. *)
Lemma digest_read (logr : N) (seed key key' : list byte) :
  key_read key' = key_read key -> digest logr seed key' = digest logr seed key.
Proof using Type.
assert (forall k : list byte,
          take (N.to_nat (N.max 1 (Bcrypt.key_length 98 (N.of_nat (length k))))) (k ++ [x00])
          = key_read k /\
          Bcrypt.key_length 98 (N.of_nat (length k)) = N.of_nat (length (key_read k))) as G.
{ intros k. unfold Bcrypt.key_length, key_read. cbn [N.eqb Pos.eqb].
  rewrite length_take, length_app. cbn [length].
  split; [|lia].
  destruct (Nat.le_gt_cases 72 (length k)) as [Hk|Hk].
  - replace (N.min (N.of_nat (length k)) 72) with 72 by lia. reflexivity.
  - replace (N.min (N.of_nat (length k)) 72) with (N.of_nat (length k)) by lia.
    replace (N.to_nat (N.max 1 (N.of_nat (length k) + 1))) with (length (k ++ [x00]))
      by (rewrite length_app; cbn [length]; lia).
    rewrite firstn_all. symmetry. apply take_ge. rewrite length_app. cbn [length]. lia. }
intros E. unfold digest.
destruct (G key) as [-> ->]. destruct (G key') as [-> ->]. now rewrite E.
Qed.

(** Of the strings of 47 letters, two have the same digest. *)
Lemma digests_collide (logr : N) (seed : list byte) :
  exists p p' : jsstring,
    p <> p' /\ p ∈ words letters 47 /\ p' ∈ words letters 47 /\
    digest logr seed (Utf8.encode p) = digest logr seed (Utf8.encode p').
Proof using Type.
destruct (pigeonhole (fun p : jsstring => digest logr seed (Utf8.encode p))
            (words letters 47) (words_upto all_bytes 23))
  as (p & p' & Hp & Hp' & Hne & E).
- apply NoDup_words. apply (proj1 (bool_decide_eq_true (NoDup letters))).
  vm_compute. reflexivity.
- intros p _. apply elem_of_words_upto.
  + unfold digest. rewrite length_take. lia.
  + apply Forall_forall. intros b _. apply elem_of_all_bytes.
- apply more_passwords_than_digests.
- exists p, p'. split; [exact Hne|]. split; [exact Hp|]. split; [exact Hp'|exact E].
Qed.

(** Two calls of hashing, whatever the primitives. *)
Lemma two_hashes (rounds : value) (p : jsstring) (w : world) :
  log_rounds rounds <= 30 ->
  exists h1 h2,
    Bcrypt.hash (VString p) rounds w = (Ok h1, advance w 16) /\
    Bcrypt.hash (VString p) rounds (advance w 16) = (Ok h2, advance (advance w 16) 16) /\
    h1 = hash_string (log_rounds rounds) (drawn w 16) (Utf8.encode p) /\
    (drawn w 16 <> drawn (advance w 16) 16 -> h1 <> h2) /\
    Bcrypt.compare (VString p) (VString h1) = Ok true /\
    Bcrypt.compare (VString p) (VString h2) = Ok true /\
    (forall p',
       Bcrypt.compare (VString p') (VString h1) =
       Ok (bool_decide (hash_string (log_rounds rounds) (drawn w 16)
                                    (Utf8.encode p') = h1))) /\
    (forall p', key_read (Utf8.encode p') = key_read (Utf8.encode p) ->
       Bcrypt.compare (VString p') (VString h1) = Ok true).
Proof using Type.
intros Hcost. pose proof (log_rounds_ok rounds) as Hr.
set (logr := log_rounds rounds) in *.
assert (4 <= logr <= 30) as Hr' by lia.
exists (hash_string logr (drawn w 16) (Utf8.encode p)),
       (hash_string logr (drawn (advance w 16) 16) (Utf8.encode p)).
split; [now apply hash_eq|]. split; [now apply hash_eq|]. split; [reflexivity|]. split.
- intros Hne E. apply Hne. apply hash_string_seed in E; [exact E|apply length_drawn..].
- rewrite !compare_hash_string by (exact Hr' || apply length_drawn).
  rewrite !bool_decide_eq_true_2 by reflexivity.
  split; [reflexivity|]. split; [reflexivity|]. split.
  + intros p'. now rewrite compare_hash_string by (exact Hr' || apply length_drawn).
  + intros p' E.
    rewrite compare_hash_string by (exact Hr' || apply length_drawn).
    rewrite bool_decide_eq_true_2; [reflexivity|].
    unfold hash_string. now rewrite (digest_read _ _ _ _ E).
Qed.

(** What bcrypt writes has the structure of a hash. *)
Lemma bcrypt_structure (key : list byte) (salt h : jsstring) :
  bcrypt key salt = Some h -> hash_structure h.
Proof using Type.
unfold bcrypt. destruct (parse_salt salt) as [[[minor logr] text]|] eqn:E; [|discriminate].
intros [= <-]. apply parse_salt_fields in E as [Hm Hr].
eexists (if minor =? 0 then @nil N else cons minor nil), logr, _, _.
split; [reflexivity|]. split; [|split; [exact Hr|]].
- destruct Hm as [->|[->| ->]]; simpl; repeat constructor.
- apply salt_read_back with (rest := []).
  rewrite length_take, length_app. cbn [length]. lia.
Qed.

End WithPrimitives.

(** C7, as the code has it: for every password string and every hash
    string comparePassword throws nothing, it answers true or false.  It
    answers true only if the hash, read as a C string, has the structure of
    a hash, and so answers false, and reports no error, for every string
    without that structure.  What follows a zero character in the hash is
    not looked at. *)
Theorem compare_never_throws `{Primitives} (p h : jsstring) :
  (exists b, comparePassword (VString p) (VString h) = Ok b) /\
  (comparePassword (VString p) (VString h) = Ok true -> hash_structure (c_str h)) /\
  (~ hash_structure (c_str h) -> comparePassword (VString p) (VString h) = Ok false) /\
  (valid_salt (c_str h) = false -> comparePassword (VString p) (VString h) = Ok false) /\
  (forall junk,
     comparePassword (VString p) (VString (h ++ 0 :: junk))
     = comparePassword (VString p) (VString h)).
Proof.
assert (exists b, comparePassword (VString p) (VString h) = Ok b) as Hb.
{ unfold comparePassword, Bcrypt.compare. destruct (bcrypt _ _); now eexists. }
assert (comparePassword (VString p) (VString h) = Ok true -> hash_structure (c_str h))
  as Ht.
{ unfold comparePassword, Bcrypt.compare.
  destruct (bcrypt (Utf8.encode p) (c_str h)) as [b|] eqn:E; [|discriminate].
  intros [= Eb]. apply bool_decide_eq_true in Eb. subst b.
  now apply bcrypt_structure in E. }
split; [exact Hb|]. split; [exact Ht|]. split; [|split].
- intros Hn. destruct Hb as [[|] Hb]; [now destruct (Hn (Ht Hb))|exact Hb].
- unfold comparePassword, Bcrypt.compare, valid_salt, bcrypt.
  now destruct (parse_salt (c_str h)) as [[[minor logr] text]|].
- intros junk. unfold comparePassword, Bcrypt.compare. now rewrite c_str_zero.
Qed.

(** C7 as the spec words it fails: a hash argument without the structure
    of a hash gives false, not an error. *)
Lemma malformed_hash_is_false :
  valid_salt (c_str (js "not-a-hash")) = false /\
  forall P : Primitives,
    @comparePassword P (VString (js "secret")) (VString (js "not-a-hash")) = Ok false.
Proof. split; [reflexivity|]. intros P. reflexivity. Qed.

(** C8, as the code has it, for the Blowfish of the bcrypt package and a
    cost of at most 30: two calls of hashPassword on p succeed and take
    their salts one after the other from the random source; the two hashes
    differ whenever the two salts do; comparePassword accepts p against
    either.  It accepts another password exactly when hashing that password
    with the salt and the cost of the hash gives the hash again, which is so
    for every password of which bcrypt reads the same bytes; it is not so
    for the password wrong against the hash of secret at cost 4 with the
    sample salt. *)
Theorem salted_hashes (StringToNumber : jsstring -> value) (SALT_ROUND : value)
    (p : jsstring) (w : world) :
  let blowfish := Blf.primitives StringToNumber in
  log_rounds (Number SALT_ROUND) <= 30 ->
  exists h1 w1 h2 w2,
    hashPassword SALT_ROUND (VString p) w = (Ok h1, w1) /\
    hashPassword SALT_ROUND (VString p) w1 = (Ok h2, w2) /\
    (drawn w 16 <> drawn w1 16 -> h1 <> h2) /\
    comparePassword (VString p) (VString h1) = Ok true /\
    comparePassword (VString p) (VString h2) = Ok true /\
    (forall p',
       comparePassword (VString p') (VString h1) =
       Ok (bool_decide (hash_string (log_rounds (Number SALT_ROUND)) (drawn w 16)
                                    (Utf8.encode p') = h1))) /\
    (forall p', key_read (Utf8.encode p') = key_read (Utf8.encode p) ->
       comparePassword (VString p') (VString h1) = Ok true) /\
    (SALT_ROUND = VNumber 4 -> p = js "secret" ->
     drawn w 16 = drawn Sample.world0 16 ->
     comparePassword (VString (js "wrong")) (VString h1) = Ok false).
Proof.
intros blowfish Hcost.
destruct (@two_hashes blowfish (Number SALT_ROUND) p w Hcost)
  as (h1 & h2 & E1 & E2 & Eh & Hd & C1 & C2 & Hc & Hread).
exists h1, (advance w 16), h2, (advance (advance w 16) 16).
split; [exact E1|]. split; [exact E2|]. split; [exact Hd|].
split; [exact C1|]. split; [exact C2|]. split; [exact Hc|]. split; [exact Hread|].
intros HS Hp Hw. rewrite Eh, HS, Hp, Hw. subst blowfish.
change (log_rounds (Number (VNumber 4))) with 4.
rewrite secret_hashed. apply wrong_refused.
Qed.

(** The password secret hashed twice at cost 4 from the sample source of
    random bytes: two different hashes, both accepted, and the password
    wrong refused. *)
Lemma salted_hashes_witness :
  log_rounds (@Number Sample.blowfish (VNumber 4)) <= 30 /\
  exists h1 h2,
    h1 <> h2 /\
    @comparePassword Sample.blowfish (VString (js "secret")) (VString h1) = Ok true /\
    @comparePassword Sample.blowfish (VString (js "secret")) (VString h2) = Ok true /\
    @comparePassword Sample.blowfish (VString (js "wrong")) (VString h1) = Ok false.
Proof.
assert (log_rounds (@Number Sample.blowfish (VNumber 4)) <= 30) as Hcost
  by (vm_compute; discriminate).
split; [exact Hcost|].
destruct (salted_hashes (@StringToNumber Sample.primitives) (VNumber 4) (js "secret")
            Sample.world0 Hcost)
  as (h1 & w1 & h2 & w2 & E1 & _ & Hd & C1 & C2 & _ & _ & Hwrong).
exists h1, h2. split; [|split; [exact C1|split; [exact C2|]]].
- apply Hd. unfold hashPassword in E1. rewrite hash_eq in E1 by exact Hcost.
  injection E1 as _ <-. vm_compute. discriminate.
- now apply Hwrong.
Defined.

(** C8 as the spec words it fails, whatever the cost and the salt.  Two
    different passwords of 74 bytes, equal in the first 73: the hash of the
    one accepts the other, whatever the primitives.  Among the strings of 47
    letters a to p, all of whose bytes bcrypt reads, there are two
    different ones of which the hash of the one accepts the other, whatever
    the primitives: the digest has 23 bytes.  With the Blowfish of the
    package, which reads the key in a circle, the hash of ab accepts ab
    followed by a zero character and ab. *)
Lemma passwords_not_told_apart :
  (Sample.long_password 98 <> Sample.long_password 99 /\
   forall (P : Primitives) (SALT_ROUND : value) (w : world),
     log_rounds (@Number P SALT_ROUND) <= 30 ->
     exists h w',
       @hashPassword P SALT_ROUND (VString (Sample.long_password 98)) w = (Ok h, w') /\
       @comparePassword P (VString (Sample.long_password 99)) (VString h) = Ok true) /\
  (forall (P : Primitives) (SALT_ROUND : value) (w : world),
     log_rounds (@Number P SALT_ROUND) <= 30 ->
     exists p p' h w',
       p <> p' /\ length p = 47%nat /\ length p' = 47%nat /\
       Forall (fun c => 97 <= c <= 112) p /\ Forall (fun c => 97 <= c <= 112) p' /\
       @hashPassword P SALT_ROUND (VString p) w = (Ok h, w') /\
       @comparePassword P (VString p') (VString h) = Ok true) /\
  (forall (StringToNumber : jsstring -> value) (SALT_ROUND : value) (w : world),
     log_rounds (@Number (Blf.primitives StringToNumber) SALT_ROUND) <= 30 ->
     exists h w',
       @hashPassword (Blf.primitives StringToNumber) SALT_ROUND (VString (js "ab")) w
         = (Ok h, w') /\
       @comparePassword (Blf.primitives StringToNumber) (VString [97; 98; 0; 97; 98])
         (VString h) = Ok true).
Proof.
split; [|split].
- split; [vm_compute; discriminate|].
  intros P SALT_ROUND w Hcost.
  pose proof (log_rounds_ok (@Number P SALT_ROUND)) as Hr.
  eexists _, _. unfold hashPassword, comparePassword. split; [now apply hash_eq|].
  rewrite compare_hash_string by (lia || apply length_drawn).
  rewrite bool_decide_eq_true_2; [reflexivity|].
  unfold hash_string. rewrite (digest_read _ _ (Utf8.encode (Sample.long_password 98))
                                           (Utf8.encode (Sample.long_password 99))).
  + reflexivity.
  + vm_compute. reflexivity.
- intros P SALT_ROUND w Hcost.
  pose proof (log_rounds_ok (@Number P SALT_ROUND)) as Hr.
  destruct (@digests_collide P (log_rounds (@Number P SALT_ROUND)) (drawn w 16))
    as (p & p' & Hne & Hp & Hp' & E).
  apply elem_of_words in Hp as [Hl Hall]. apply elem_of_words in Hp' as [Hl' Hall'].
  assert (forall c : N, c ∈ letters -> 97 <= c <= 112) as Hletter.
  { intros c Hc. unfold letters in Hc.
    apply list_elem_of_In, in_map_iff in Hc as (i & <- & Hi). apply in_seq in Hi. lia. }
  exists p, p'. eexists _, _.
  split; [exact Hne|]. split; [exact Hl|]. split; [exact Hl'|].
  split; [eapply Forall_impl; [exact Hall|exact Hletter]|].
  split; [eapply Forall_impl; [exact Hall'|exact Hletter]|].
  unfold hashPassword, comparePassword. split; [now apply hash_eq|].
  rewrite compare_hash_string by (lia || apply length_drawn).
  rewrite bool_decide_eq_true_2; [reflexivity|].
  unfold hash_string. now rewrite E.
- intros stn SALT_ROUND w Hcost.
  pose proof (log_rounds_ok (@Number (Blf.primitives stn) SALT_ROUND)) as Hr.
  eexists _, _. unfold hashPassword, comparePassword. split; [now apply hash_eq|].
  rewrite compare_hash_string by (lia || apply length_drawn).
  rewrite bool_decide_eq_true_2; [reflexivity|].
  unfold hash_string. now rewrite digest_circle.
Qed.

End Credentials.

(** * The claims about the model, the services and the configuration *)

Module Application.
Import Bytes JS Runtime NodeCrypto Bcrypt HashSecurity EncryptionSecurity UserModel UserService.
Import EncryptionFacts.

Lemma M_bind_inv {A B} (m : M A) (k : A -> M B) (w w' : world) (b : B) :
  (m ≫= k) w = (Ok b, w') -> exists a w1, m w = (Ok a, w1) /\ k a w1 = (Ok b, w').
Proof.
unfold mbind, M_bind. destruct (m w) as [[a|e] w1]; [|discriminate].
intros E. now exists a, w1.
Qed.

Lemma lift_inv {A} (r : result A) (w w' : world) (a : A) :
  lift r w = (Ok a, w') -> r = Ok a /\ w' = w.
Proof. unfold lift. now intros [= -> ->]. Qed.

Lemma result_bind_inv {A B} (r : result A) (k : A -> result B) (b : B) :
  (r ≫= k) = Ok b -> exists a, r = Ok a /\ k a = Ok b.
Proof. destruct r as [a|e]; [|discriminate]. intros E. now exists a. Qed.

Lemma hashPassword_inv `{Primitives} (SALT_ROUND password : value) (w w' : world)
    (h : jsstring) :
  hashPassword SALT_ROUND password w = (Ok h, w') ->
  exists p, password = VString p /\
    h = hash_string (log_rounds (Number SALT_ROUND)) (drawn w 16) (Utf8.encode p).
Proof.
unfold hashPassword. intros E.
apply Credentials.hash_inv in E as (p & -> & _ & -> & _). now exists p.
Qed.


Lemma new_document_password (securityKey : value) (data doc : document)
    (h : jsstring) (w w' : world) :
  data !! "password" = Some (VString h) ->
  new_document securityKey data w = (Ok doc, w') ->
  doc !! "password" = Some (VString h).
Proof.
intros Hp E. unfold new_document in E.
apply M_bind_inv in E as (phone & w1 & _ & E).
apply lift_inv in E as [E _].
apply result_bind_inv in E as (firstName & _ & E).
apply result_bind_inv in E as (lastName & _ & E).
apply result_bind_inv in E as (email & _ & E).
apply result_bind_inv in E as (password & Ep & E).
unfold required_path in Ep. rewrite Hp in Ep.
destruct h as [|c s]; [discriminate|]. injection Ep as <-.
injection E as <-.
destruct phone as [v|]; now repeat (rewrite lookup_insert_ne by discriminate);
  rewrite lookup_insert_eq.
Qed.

Lemma create_inv (securityKey : value) (data : document) (docs : list document)
    (w w' : world) :
  create securityKey data w = (Ok docs, w') ->
  exists doc w1, new_document securityKey data w = (Ok doc, w1) /\ docs = [doc].
Proof.
intros E. unfold create in E.
apply M_bind_inv in E as (doc & w1 & Ed & E).
apply M_bind_inv in E as (taken & w2 & _ & E).
destruct taken as [d|]; [discriminate|].
injection E as <- _. now exists doc, w1.
Qed.

(** C6, as the code has it: the setter of phone returns a falsy value
    as it is and leaves the source of random bytes untouched, so encryptData
    is not called; the getter has no such case: it hands every stored value
    to decryptData and so throws on every falsy value, a TypeError on
    undefined and on null, and on the empty string, under a key of 32 bytes,
    the error of an invalid IV. *)
Theorem phone_transform (securityKey : value) :
  (forall (v : value) (w : world),
      falsy v = true -> phone_set securityKey v w = (Ok v, w)) /\
  (forall v : value,
      falsy v = true -> exists e, phone_get securityKey v = Throw e) /\
  phone_get securityKey VUndefined = Throw TypeError /\
  phone_get securityKey VNull = Throw TypeError /\
  (usable_key securityKey = true ->
   phone_get securityKey (VString []) = Throw InvalidIV).
Proof.
split; [|split; [|split; [|split]]].
- intros v w Hv. unfold phone_set. now rewrite Hv.
- intros v Hv. destruct v as [| |b|n| |s]; try (now eexists).
  destruct s as [|c s]; [|discriminate].
  unfold phone_get, decryptData. cbn [split element lookup].
  destruct securityKey as [| | | | |k]; now eexists.
- reflexivity.
- reflexivity.
- unfold usable_key, phone_get, decryptData.
  destruct securityKey as [| | | | |k]; try discriminate.
  intros _. cbn. unfold createDecipheriv, check_cipher_args.
  now rewrite bool_decide_eq_true_2 by reflexivity.
Qed.

(** The empty string under the sample key: the setter stores it as it is,
    the getter throws on reading it back. *)
Lemma phone_transform_witness :
  phone_set Sample.key (VString []) Sample.world0 = (Ok (VString []), Sample.world0) /\
  phone_get Sample.key (VString []) = Throw InvalidIV.
Proof.
destruct (phone_transform Sample.key) as (Hset & _ & _ & _ & Hget).
split; [apply Hset; reflexivity|apply Hget; reflexivity].
Defined.

(** C10, as the code has it: what login returns has no password field,
    what signup returns is the list of the one created document, whose
    password field is the hash string that was stored. *)
Theorem signup_returns_password_hash `{Primitives} (securityKey SALT_ROUND : value) :
  (forall (inputs userObject : document) (w w' : world),
      login securityKey inputs w = (Ok userObject, w') ->
      userObject !! "password" = None) /\
  (forall (inputs : document) (user : list document) (w w' : world),
      signup securityKey SALT_ROUND inputs w = (Ok user, w') ->
      exists doc p,
        user = [doc] /\ inputs !! "password" = Some (VString p) /\
        doc !! "password" =
          Some (VString (hash_string (log_rounds (Number SALT_ROUND))
                                     (drawn w 16) (Utf8.encode p)))).
Proof.
split.
- intros inputs userObject w w' E. unfold login in E.
  apply M_bind_inv in E as (found & w1 & _ & E).
  destruct found as [user|]; [|discriminate].
  apply M_bind_inv in E as (ok & w2 & _ & E).
  destruct (negb ok); [discriminate|].
  apply M_bind_inv in E as (obj & w3 & _ & E).
  injection E as <- _. apply lookup_delete_eq.
- intros inputs user w w' E. unfold signup in E.
  apply M_bind_inv in E as (found & w1 & Ef & E).
  injection Ef as _ <-.
  apply M_bind_inv in E as (u & w2 & Eu & E).
  destruct found as [d|]; [discriminate|]. injection Eu as _ <-.
  apply M_bind_inv in E as (h & w3 & Eh & E).
  apply hashPassword_inv in Eh as (p & Ep & ->).
  apply M_bind_inv in E as (docs & w4 & Ec & E).
  injection E as <- _.
  apply create_inv in Ec as (doc & w5 & Ed & ->).
  exists doc, p. split; [reflexivity|]. split.
  + unfold prop in Ep. destruct (inputs !! "password") as [v|]; [|discriminate].
    simpl in Ep. now subst v.
  + eapply new_document_password; [|exact Ed]. apply lookup_insert_eq.
Qed.

(** The sample registration: signup succeeds, and the document it
    returns carries the stored hash string. *)
Lemma signup_returns_password_hash_witness :
  exists doc w',
    @signup Sample.primitives Sample.key (VString (js "10"))
      Sample.registration Sample.world0 = (Ok [doc], w') /\
    doc !! "password" =
      Some (VString (js "$2b$10$.umPE/6kJRO5OijOTz3jZ.aE7wYlnQJRO5OijOTz3jZ.KICPedHgy")).
Proof.
assert (match fst (@signup Sample.primitives Sample.key (VString (js "10"))
                     Sample.registration Sample.world0) with
        | Ok _ => true
        | Throw _ => false
        end = true) as T by (vm_compute; reflexivity).
destruct (@signup Sample.primitives Sample.key (VString (js "10"))
            Sample.registration Sample.world0) as [[user|e] w'] eqn:E.
- destruct (proj2 (@signup_returns_password_hash Sample.primitives Sample.key
                     (VString (js "10"))) _ _ _ _ E) as (doc & p & -> & Hp & Hd).
  exists doc, w'. split; [reflexivity|].
  vm_compute in Hp. injection Hp as <-.
  rewrite Hd. vm_compute. reflexivity.
- discriminate T.
Defined.

End Application.

(** * The claim about the configuration *)

Module Startup.
Import JS Runtime Config.

(** C5, for the loading of the configuration as the spec describes it:
    when ENCRYPTION_KEY is absent or is not 64 hexadecimal characters, or
    HASH_COST_FACTOR is absent or is not the numeral of a positive integer,
    initialisation fails with ConfigurationError and no component exists;
    when it succeeds, encryptData and hashPassword are the source functions
    applied to a key that decodes to 32 bytes and to a positive cost. *)
Theorem configuration_fails_closed `{Bcrypt.Primitives} (env : gmap string jsstring) :
  (env !! "ENCRYPTION_KEY" = None -> initialize env = Throw ConfigurationError) /\
  (forall k, env !! "ENCRYPTION_KEY" = Some k ->
             (Hex.is_hex k = false \/ length (Hex.decode k) <> 32%nat) ->
             initialize env = Throw ConfigurationError) /\
  (env !! "HASH_COST_FACTOR" = None -> initialize env = Throw ConfigurationError) /\
  (forall c, env !! "HASH_COST_FACTOR" = Some c -> positive_integer c = None ->
             initialize env = Throw ConfigurationError) /\
  (forall srv, initialize env = Ok srv ->
     exists k n,
       env !! "ENCRYPTION_KEY" = Some k /\
       (exists c, env !! "HASH_COST_FACTOR" = Some c /\ positive_integer c = Some n) /\
       EncryptionSecurity.usable_key (VString k) = true /\ (0 < n)%Z /\
       encrypt srv = EncryptionSecurity.encryptData (VString k) /\
       decrypt srv = EncryptionSecurity.decryptData (VString k) /\
       hash srv = HashSecurity.hashPassword (VNumber n)).
Proof.
unfold initialize, loadConfiguration.
split; [|split; [|split; [|split]]].
- now intros ->.
- intros k -> Hk. destruct (env !! "HASH_COST_FACTOR"); [|reflexivity].
  replace (valid_key k) with false; [reflexivity|].
  unfold valid_key. destruct Hk as [->|Hk]; [reflexivity|].
  apply Nat.eqb_neq in Hk. rewrite Hk. now rewrite andb_false_r.
- intros ->. now destruct (env !! "ENCRYPTION_KEY").
- intros c -> Hc. destruct (env !! "ENCRYPTION_KEY") as [k|]; [|reflexivity].
  destruct (valid_key k); [|reflexivity]. now rewrite Hc.
- intros srv E.
  destruct (env !! "ENCRYPTION_KEY") as [k|]; [|discriminate].
  destruct (env !! "HASH_COST_FACTOR") as [c|]; [|discriminate].
  destruct (valid_key k) eqn:Hk; [|discriminate].
  destruct (positive_integer c) as [n|] eqn:Hc; [|discriminate].
  injection E as <-. exists k, n.
  apply andb_prop in Hk as [_ Hk].
  split; [reflexivity|]. split; [now exists c|].
  split; [exact Hk|]. split; [|now cbn].
  unfold positive_integer in Hc. destruct c; [discriminate|].
  destruct (forallb _ _ && _) eqn:Hd; [|discriminate].
  injection Hc as <-. apply andb_prop in Hd as [_ Hd]. now apply Z.ltb_lt.
Qed.

(** Without any variable nothing is initialised; with the sample
    environment encryption runs under the sample key. *)
Lemma configuration_fails_closed_witness :
  @initialize Sample.primitives ∅ = Throw ConfigurationError /\
  exists srv,
    @initialize Sample.primitives Sample.environment = Ok srv /\
    @encrypt Sample.primitives srv = EncryptionSecurity.encryptData Sample.key /\
    @hash Sample.primitives srv = @HashSecurity.hashPassword Sample.primitives (VNumber 10).
Proof.
split.
- apply (@configuration_fails_closed Sample.primitives ∅). reflexivity.
- assert (loadConfiguration Sample.environment
          = Ok {| securityKey := Sample.key; SALT_ROUND := VNumber 10 |}) as L
    by (vm_compute; reflexivity).
  destruct (@initialize Sample.primitives Sample.environment) as [srv|e] eqn:E.
  + exists srv. split; [reflexivity|].
    destruct (@configuration_fails_closed Sample.primitives Sample.environment)
      as (_ & _ & _ & _ & H).
    destruct (H srv E) as (k & n & Hk & (c & Hc & Hn) & _ & _ & He & _ & Hh).
    vm_compute in Hk. injection Hk as <-.
    vm_compute in Hc. injection Hc as <-.
    vm_compute in Hn. injection Hn as <-.
    split; [exact He|exact Hh].
  + unfold initialize in E. rewrite L in E. discriminate.
Defined.

End Startup.

(** * More about encryptData and decryptData *)

Module CipherEdges.
Import Bytes JS Runtime NodeCrypto EncryptionSecurity Wire Variants.
Import BytesFacts CodecFacts GcmFacts BlockFacts EncryptionFacts.

Lemma not_string_cases (v : value) :
  (forall s, v <> VString s) ->
  v = VUndefined \/ v = VNull \/ (exists b, v = VBool b) \/ (exists n, v = VNumber n) \/ v = VNaN.
Proof.
intros H. destruct v as [| |b|n| |s]; eauto 6. now destruct (H s).
Qed.

Lemma upper_digit_colon (c : N) : upper_digit c = colon <-> c = colon.
Proof.
unfold upper_digit, colon.
destruct ((97 <=? c) && (c <=? 102)) eqn:E; [|tauto].
apply andb_prop in E as [E1 E2]. apply N.leb_le in E1, E2. lia.
Qed.

Lemma unhex_upper_digit (c : N) : Hex.unhex (upper_digit c) = Hex.unhex c.
Proof.
unfold upper_digit.
destruct ((97 <=? c) && (c <=? 102)) eqn:E; [|reflexivity].
apply andb_prop in E as [E1 E2]. apply N.leb_le in E1, E2.
unfold Hex.unhex.
replace ((48 <=? c - 32) && (c - 32 <=? 57)) with false
  by (symmetry; apply andb_false_iff; right; apply N.leb_gt; lia).
replace ((97 <=? c - 32) && (c - 32 <=? 102)) with false
  by (symmetry; apply andb_false_iff; left; apply N.leb_gt; lia).
replace ((65 <=? c - 32) && (c - 32 <=? 70)) with true
  by (symmetry; apply andb_true_iff; split; apply N.leb_le; lia).
replace ((48 <=? c) && (c <=? 57)) with false
  by (symmetry; apply andb_false_iff; right; apply N.leb_gt; lia).
replace ((97 <=? c) && (c <=? 102)) with true
  by (symmetry; apply andb_true_iff; split; apply N.leb_le; lia).
f_equal. lia.
Qed.

Lemma decode_upper_digits (s : jsstring) :
  Hex.decode (upper_digits s) = Hex.decode s.
Proof.
unfold upper_digits.
enough (Hex.decode (map upper_digit s) = Hex.decode s /\
        forall a, Hex.decode (map upper_digit (a :: s)) = Hex.decode (a :: s)) as [H _]
  by exact H.
induction s as [|b rest [IH1 IH2]]; [split; [reflexivity|intros a; reflexivity]|].
split; [apply IH2|].
intros a. cbn [map Hex.decode]. rewrite !unhex_upper_digit.
destruct (Hex.unhex a), (Hex.unhex b); try reflexivity.
now rewrite IH1.
Qed.

Lemma split_cons (sep c : N) (rest : jsstring) :
  split sep (c :: rest) =
  if c =? sep then [] :: split sep rest
  else match split sep rest with
       | seg :: segs => (c :: seg) :: segs
       | [] => [[c]]
       end.
Proof. reflexivity. Qed.

Lemma split_upper_digits (s : jsstring) :
  split colon (upper_digits s) = map upper_digits (split colon s).
Proof.
unfold upper_digits. induction s as [|c rest IH]; [reflexivity|].
cbn [map]. rewrite !split_cons, IH.
destruct (c =? colon) eqn:E.
- apply N.eqb_eq in E. subst c. reflexivity.
- replace (upper_digit c =? colon) with false.
  + pose proof (split_nonempty colon rest) as Hne.
    destruct (split colon rest) as [|seg segs]; [congruence|reflexivity].
  + symmetry. apply N.eqb_neq. rewrite upper_digit_colon. now apply N.eqb_neq.
Qed.

Lemma element_upper (parts : list jsstring) (i : nat) :
  element (map upper_digits parts) i =
  match element parts i with
  | VString s => VString (upper_digits s)
  | v => v
  end.
Proof.
unfold element. rewrite list_lookup_fmap. now destruct (parts !! i).
Qed.

Lemma Buffer_from_hex_upper (parts : list jsstring) (i : nat) :
  Buffer_from_hex (element (map upper_digits parts) i) = Buffer_from_hex (element parts i).
Proof.
rewrite element_upper. unfold element. destruct (parts !! i); [|reflexivity].
cbn. now rewrite decode_upper_digits.
Qed.

Lemma update_upper (d : Decipher) (parts : list jsstring) (i : nat) :
  decipher_update_hex_utf8 d (element (map upper_digits parts) i) =
  decipher_update_hex_utf8 d (element parts i).
Proof.
rewrite element_upper. unfold element. destruct (parts !! i) as [s|]; [|reflexivity].
unfold decipher_update_hex_utf8. rewrite decode_upper_digits.
unfold upper_digits. now rewrite length_map.
Qed.

Lemma split_colon_free (s : jsstring) :
  Forall (Forall (fun c => c <> colon)) (split colon s).
Proof.
induction s as [|c rest IH]; [repeat constructor|].
rewrite split_cons. destruct (c =? colon) eqn:E.
- constructor; [constructor|exact IH].
- apply N.eqb_neq in E. destruct (split colon rest) as [|seg segs].
  + repeat constructor. exact E.
  + inversion IH as [|? ? Hseg Hsegs]; subst. constructor; [|exact Hsegs].
    now constructor.
Qed.

Lemma split_join (segments : list jsstring) :
  segments <> [] -> Forall (Forall (fun c => c <> colon)) segments ->
  split colon (join segments) = segments.
Proof.
induction segments as [|s [|t rest] IH]; [congruence| |].
- intros _ H. inversion H; subst. now apply split_no_sep.
- intros _ H. inversion H as [|? ? Hs Hrest]; subst.
  change (join (s :: t :: rest)) with (s ++ colon :: join (t :: rest)).
  rewrite split_app by exact Hs. f_equal. now apply IH.
Qed.

Lemma element_take (parts : list jsstring) (n i : nat) :
  (i < n)%nat -> element (take n parts) i = element parts i.
Proof. intros Hi. unfold element. now rewrite lookup_take_lt. Qed.

Lemma take_encode (n : nat) (bs : list byte) :
  take (2 * n) (Hex.encode bs) = Hex.encode (take n bs).
Proof.
revert bs. induction n as [|n IH]; intros bs; [reflexivity|].
destruct bs as [|b bs]; [reflexivity|].
rewrite encode_cons. replace (2 * S n)%nat with (S (S (2 * n))) by lia.
cbn [take]. rewrite encode_cons. now rewrite IH.
Qed.

Lemma valid_tag_length_le (n : nat) :
  valid_tag_length n = true -> (4 <= n <= 16)%nat.
Proof.
unfold valid_tag_length. intros H. apply bool_decide_eq_true in H.
repeat (apply elem_of_cons in H as [->|H]; [lia|]). now apply elem_of_nil in H.
Qed.

(** X1: encryptData returns a value exactly when the key is a string
    that hex-decodes to 32 bytes and the data is a string.  In every case it
    has taken 12 bytes from the random source; a string key of another
    length gives the invalid key length error, a key or data that is not a
    string a TypeError. *)
Theorem encryptData_succeeds_iff (securityKey data : value) (w : world) :
  snd (encryptData securityKey data w) = advance w 12 /\
  ((exists c, fst (encryptData securityKey data w) = Ok c) <->
   usable_key securityKey = true /\ exists x, data = VString x) /\
  (forall k, securityKey = VString k -> usable_key securityKey = false ->
             fst (encryptData securityKey data w) = Throw InvalidKeyLength) /\
  ((forall k, securityKey <> VString k) ->
   fst (encryptData securityKey data w) = Throw TypeError) /\
  (usable_key securityKey = true -> (forall x, data <> VString x) ->
   fst (encryptData securityKey data w) = Throw TypeError).
Proof.
assert (forall k, securityKey = VString k -> usable_key securityKey = false ->
          fst (encryptData securityKey data w) = Throw InvalidKeyLength) as Hlen.
{ intros k -> Hk. unfold usable_key in Hk.
  unfold encryptData, randomBytes. unfold mbind at 1. unfold M_bind, lift.
  cbn [fst Buffer_from_hex]. rewrite bind_Ok.
  unfold createCipheriv, check_cipher_args, algorithm.
  rewrite bool_decide_eq_true_2 by reflexivity. now rewrite Hk. }
assert ((forall k, securityKey <> VString k) ->
        fst (encryptData securityKey data w) = Throw TypeError) as Hkey.
{ intros Hk. destruct securityKey as [| | | | |k]; try reflexivity. now destruct (Hk k). }
assert (usable_key securityKey = true -> (forall x, data <> VString x) ->
        fst (encryptData securityKey data w) = Throw TypeError) as Hdata.
{ intros Hk Hd. unfold usable_key in Hk.
  destruct securityKey as [| | | | |k]; try discriminate.
  apply Nat.eqb_eq in Hk.
  unfold encryptData, randomBytes. unfold mbind at 1. unfold M_bind, lift.
  cbn [fst Buffer_from_hex]. rewrite bind_Ok. unfold createCipheriv.
  rewrite check_args_ok; [|exact Hk|rewrite length_drawn; lia].
  rewrite !bind_Ok.
  destruct data as [| | | | |x]; try reflexivity. now destruct (Hd x). }
split; [reflexivity|]. split; [|auto].
split.
- intros [c Hc]. destruct (usable_key securityKey) eqn:Hk.
  + split; [reflexivity|]. destruct data as [| | | | |x]; eauto;
      rewrite Hdata in Hc by (reflexivity || discriminate); discriminate.
  + destruct securityKey as [| | | | |k];
      try (rewrite Hkey in Hc by discriminate; discriminate).
    rewrite (Hlen k) in Hc by (reflexivity || exact Hk). discriminate.
- intros [Hk [x ->]]. unfold usable_key in Hk.
  destruct securityKey as [| | | | |k]; try discriminate.
  rewrite (encryptData_eq k Hk). now eexists.
Qed.

(** X2: decryptData returns nothing unless the key is a string that
    hex-decodes to 32 bytes and the argument is a string: an argument that
    is not a string gives a TypeError, and under any other key every
    argument gives a TypeError, the invalid key length error or the invalid
    IV error. *)
Theorem decryptData_needs_key_and_string (securityKey encryptedData : value) :
  ((forall s, encryptedData <> VString s) ->
   decryptData securityKey encryptedData = Throw TypeError) /\
  (usable_key securityKey = false ->
   exists e, decryptData securityKey encryptedData = Throw e /\
             e ∈ [TypeError; InvalidKeyLength; InvalidIV]) /\
  (forall x, decryptData securityKey encryptedData = Ok x ->
             usable_key securityKey = true /\ exists s, encryptedData = VString s).
Proof.
assert ((forall s, encryptedData <> VString s) ->
        decryptData securityKey encryptedData = Throw TypeError) as Hdata.
{ intros Hd. destruct encryptedData as [| | | | |s]; try reflexivity. now destruct (Hd s). }
assert (usable_key securityKey = false ->
        exists e, decryptData securityKey encryptedData = Throw e /\
                  e ∈ [TypeError; InvalidKeyLength; InvalidIV]) as Hkey.
{ intros Hk. destruct encryptedData as [| | | | |s];
    try (exists TypeError; split; [reflexivity|set_solver]).
  unfold decryptData.
  destruct securityKey as [| | | | |k];
    try (exists TypeError; split; [reflexivity|set_solver]).
  unfold usable_key in Hk. cbn [Buffer_from_hex]. rewrite bind_Ok.
  pose proof (split_nonempty colon s) as Hne.
  destruct (split colon s) as [|ivh rest]; [congruence|].
  cbn [element lookup list_lookup Buffer_from_hex]. rewrite bind_Ok.
  unfold createDecipheriv, check_cipher_args, algorithm.
  rewrite bool_decide_eq_true_2 by reflexivity. rewrite Hk. cbn [negb].
  destruct (length (Hex.decode ivh) =? 0)%nat.
  - exists InvalidIV. split; [reflexivity|set_solver].
  - exists InvalidKeyLength. split; [reflexivity|set_solver]. }
split; [exact Hdata|]. split; [exact Hkey|].
intros x E. destruct (usable_key securityKey) eqn:Hk.
- split; [reflexivity|]. destruct encryptedData as [| | | | |s]; try discriminate.
  now exists s.
- destruct (Hkey eq_refl) as (e & He & _). congruence.
Qed.

(** X3: decryptData reads the hexadecimal digits of its argument in
    either case: writing a to f as A to F anywhere in the argument changes
    neither the value returned nor the error thrown. *)
Theorem decryptData_ignores_case (securityKey : value) (s : jsstring) :
  decryptData securityKey (VString (upper_digits s)) = decryptData securityKey (VString s).
Proof.
unfold decryptData. rewrite split_upper_digits.
destruct (Buffer_from_hex securityKey) as [key|e]; [|reflexivity].
rewrite !bind_Ok. rewrite !Buffer_from_hex_upper.
destruct (Buffer_from_hex (element (split colon s) 0)) as [ivb|e]; [|reflexivity].
rewrite !bind_Ok.
destruct (createDecipheriv algorithm key ivb) as [d|e]; [|reflexivity].
rewrite !bind_Ok.
destruct (Buffer_from_hex (element (split colon s) 1)) as [tagb|e]; [|reflexivity].
rewrite !bind_Ok.
destruct (setAuthTag d tagb) as [d'|e]; [|reflexivity].
rewrite !bind_Ok. now rewrite update_upper.
Qed.

(** X4: decryptData looks at the first three segments of its argument
    only: what follows a third colon changes neither the value returned nor
    the error thrown. *)
Theorem decryptData_first_three_segments (securityKey : value) (s : jsstring) :
  decryptData securityKey (VString (join (take 3 (split colon s))))
  = decryptData securityKey (VString s).
Proof.
unfold decryptData. rewrite split_join.
- now rewrite !element_take by lia.
- pose proof (split_nonempty colon s). now destruct (split colon s).
- apply Forall_take, split_colon_free.
Qed.

(** X5: decryptData accepts a tag that was cut short: with the tag
    segment of an encoded string reduced to its first 4, 8 or 12 to 16 bytes
    it still returns the plain text. *)
Theorem decryptData_accepts_short_tag (securityKey : value) (x c : jsstring)
    (w w' : world) (n : nat) :
  usable_key securityKey = true -> Utf8.well_formed x = true ->
  encryptData securityKey (VString x) w = (Ok c, w') ->
  valid_tag_length n = true ->
  decryptData securityKey (VString (shorten_tag n c)) = Ok x.
Proof.
intros Hk Hx E Hn. unfold usable_key in Hk.
destruct securityKey as [| | | | |k]; try discriminate.
rewrite (encryptData_eq k Hk) in E. injection E as <- _.
set (key := Hex.decode k). set (iv := drawn w 12).
set (ct := ciphertext key iv x).
assert (length iv = 12%nat) as Hiv by apply length_drawn.
pose proof (valid_tag_length_le n Hn) as Hle.
unfold shorten_tag, encoded. fold key iv ct.
rewrite Cipher.split_segments by apply encode_no_colon.
rewrite take_encode.
change (join [Hex.encode iv; Hex.encode (take n (GCM.auth_tag key iv ct)); Hex.encode ct])
  with (Hex.encode iv ++ [colon] ++ Hex.encode (take n (GCM.auth_tag key iv ct))
          ++ [colon] ++ Hex.encode ct).
rewrite (decryptData_segments k Hk); rewrite ?hex_decode_encode;
  try apply encode_no_colon.
- fold key. rewrite length_take, length_auth_tag.
  replace (n `min` 16)%nat with n by lia.
  rewrite bool_decide_eq_true_2 by reflexivity.
  unfold ct, ciphertext. rewrite gctr_involutive.
  now rewrite Utf8Facts.utf8_decode_encode.
- lia.
- rewrite length_take, length_auth_tag. now replace (n `min` 16)%nat with n by lia.
- apply Cipher.even_encode.
Qed.

(** The sample phone number under the sample key, the tag cut to 4 bytes. *)
Lemma decryptData_accepts_short_tag_witness :
  decryptData Sample.key
    (VString (js "030a11181f262d343b424950:ca59b663:b403c40972fa2a772c8bfb7d"))
  = Ok Sample.phone.
Proof.
apply (decryptData_accepts_short_tag Sample.key Sample.phone Sample.encoded_phone
         Sample.world0 (advance Sample.world0 12) 4);
  vm_compute; reflexivity.
Defined.

End CipherEdges.

(** * More about hashPassword and comparePassword *)

Module HashEdges.
Import Bytes JS Runtime Bcrypt HashSecurity.
Import BytesFacts EncryptionFacts BcryptFacts.

Lemma take_hash_string `{Primitives} (logr : N) (seed key : list byte) :
  take 7 (hash_string logr seed key) = js "$2b$" ++ two_digits logr ++ js "$".
Proof. reflexivity. Qed.

Lemma drop_hash_string `{Primitives} (logr : N) (seed key : list byte) :
  drop 7 (hash_string logr seed key)
  = encode_base64 seed ++ encode_base64 (digest logr seed key).
Proof. reflexivity. Qed.

(** X6: for a SALT_ROUND that gives a cost of at most 30 and every
    password string, hashPassword returns a hash and takes 16 bytes from the
    random source.  The hash starts with $2b$, the cost in two digits, which
    is between 04 and 30, and another $; the 22 characters after that are
    the 16 random bytes, which can be read back from them; and the hash has
    the structure that comparePassword looks for.  With a cost of 31
    hashPassword returns no hash. *)
Theorem hashPassword_shape `{Primitives} (SALT_ROUND : value) (p : jsstring) (w : world) :
  (log_rounds (Number SALT_ROUND) <= 30 ->
   exists h cost,
     hashPassword SALT_ROUND (VString p) w = (Ok h, advance w 16) /\
     4 <= cost <= 30 /\
     take 7 h = js "$2b$" ++ two_digits cost ++ js "$" /\
     take 22 (drop 7 h) = encode_base64 (drawn w 16) /\
     take 16 (decode_base64 16 (drop 7 h) ++ replicate 16 x00) = drawn w 16 /\
     valid_salt (c_str h) = true) /\
  (log_rounds (Number SALT_ROUND) = 31 ->
   forall h w', hashPassword SALT_ROUND (VString p) w <> (Ok h, w')).
Proof.
pose proof (Credentials.log_rounds_ok (Number SALT_ROUND)) as Hr.
split.
- intros Hcost.
  exists (hash_string (log_rounds (Number SALT_ROUND)) (drawn w 16) (Utf8.encode p)),
         (log_rounds (Number SALT_ROUND)).
  destruct (salt_read_back (drawn w 16)
              (encode_base64 (digest (log_rounds (Number SALT_ROUND)) (drawn w 16)
                                     (Utf8.encode p)))
              (length_drawn w 16)) as [Hback Hlen].
  split; [now apply Credentials.hash_eq|]. split; [lia|].
  split; [apply take_hash_string|]. rewrite drop_hash_string.
  split; [now rewrite take_app_length' by exact Hlen|].
  split; [exact Hback|].
  rewrite c_str_ascii by (apply Credentials.hash_string_ascii; lia).
  unfold valid_salt, hash_string.
  rewrite parse_salt_2b; [reflexivity|lia|].
  rewrite length_app, Hlen. lia.
- intros Hcost h w' E. unfold hashPassword in E.
  apply Credentials.hash_inv in E as (_ & _ & Hle & _). lia.
Qed.

(** X7: the cost hashPassword works with.  When Number(SALT_ROUND) is
    not a number or is 0, as for a SALT_ROUND that is undefined or null, the
    cost is 10; a number from 1 to 3 gives 4 and a number from 4 to 30
    itself; with a number from 31 to 255 hashPassword returns no hash. *)
Theorem hashPassword_cost `{Primitives} (SALT_ROUND : value) (p : jsstring) (w : world) :
  (falsy (Number SALT_ROUND) = true ->
   exists h, hashPassword SALT_ROUND (VString p) w = (Ok h, advance w 16) /\
             take 7 h = js "$2b$10$") /\
  (forall n, Number SALT_ROUND = VNumber n -> (1 <= n <= 3)%Z ->
   exists h, hashPassword SALT_ROUND (VString p) w = (Ok h, advance w 16) /\
             take 7 h = js "$2b$04$") /\
  (forall n, Number SALT_ROUND = VNumber n -> (4 <= n <= 30)%Z ->
   exists h, hashPassword SALT_ROUND (VString p) w = (Ok h, advance w 16) /\
             take 7 h = js "$2b$" ++ two_digits (Z.to_N n) ++ js "$") /\
  (forall n, Number SALT_ROUND = VNumber n -> (31 <= n <= 255)%Z ->
   forall h w', hashPassword SALT_ROUND (VString p) w <> (Ok h, w')).
Proof.
assert (forall cost, log_rounds (Number SALT_ROUND) = cost -> cost <= 30 ->
          exists h, hashPassword SALT_ROUND (VString p) w = (Ok h, advance w 16) /\
                    take 7 h = js "$2b$" ++ two_digits cost ++ js "$") as G.
{ intros cost <- Hle. eexists. split; [now apply Credentials.hash_eq|].
  apply take_hash_string. }
split; [|split; [|split]].
- intros Hf. apply (G 10); [|lia].
  unfold log_rounds. destruct (Number SALT_ROUND) as [| |b|n| |s]; try reflexivity.
  cbn in Hf. now rewrite Hf.
- intros n Hn Hr. apply (G 4); [|lia]. rewrite Hn.
  unfold log_rounds. destruct (Z.eqb_spec n 0); [lia|].
  rewrite Z.mod_small by lia. lia.
- intros n Hn Hr. apply (G (Z.to_N n)); [|lia]. rewrite Hn.
  unfold log_rounds. destruct (Z.eqb_spec n 0); [lia|].
  rewrite Z.mod_small by lia. lia.
- intros n Hn Hr h w' E. unfold hashPassword in E.
  apply Credentials.hash_inv in E as (_ & _ & Hle & _). rewrite Hn in Hle.
  unfold log_rounds in Hle. destruct (Z.eqb_spec n 0); [lia|].
  rewrite Z.mod_small in Hle by lia. lia.
Qed.

(** X8: hashPassword of a password that is not a string (undefined
    when the request has none) throws the error of bcrypt and takes nothing
    from the random source. *)
Theorem hashPassword_rejects_non_string `{Primitives} (SALT_ROUND password : value)
    (w : world) :
  (forall p, password <> VString p) ->
  exists message, hashPassword SALT_ROUND password w = (Throw (BcryptError message), w).
Proof.
intros Hp. unfold hashPassword, Bcrypt.hash, throw.
destruct password as [| | | | |p]; try (now eexists). now destruct (Hp p).
Qed.

(** A request without a password. *)
Lemma hashPassword_rejects_non_string_witness :
  exists message,
    @hashPassword Sample.primitives (VString (js "10")) VUndefined Sample.world0
    = (Throw (BcryptError message), Sample.world0).
Proof.
apply (@hashPassword_rejects_non_string Sample.primitives). discriminate.
Defined.

(** X9: comparePassword returns an answer exactly when both arguments
    are strings; when one of them is not, it throws the error of bcrypt. *)
Theorem comparePassword_answers_iff `{Primitives} (password hashedPassword : value) :
  ((exists answer, comparePassword password hashedPassword = Ok answer) <->
   exists p h, password = VString p /\ hashedPassword = VString h) /\
  ((exists message, comparePassword password hashedPassword = Throw (BcryptError message)) <->
   ~ exists p h, password = VString p /\ hashedPassword = VString h).
Proof.
unfold comparePassword, Bcrypt.compare.
destruct password as [| |b|n| |p], hashedPassword as [| |b'|n'| |h];
  try (split; split;
       [intros [a Ha]; discriminate
       |intros (p0 & h0 & Hp0 & Hh0); discriminate
       |intros _ (p0 & h0 & Hp0 & Hh0); discriminate
       |intros _; now eexists]).
split; split.
- intros _. now exists p, h.
- intros _. destruct (bcrypt (Utf8.encode p) (c_str h)); now eexists.
- intros [m Hm]. destruct (bcrypt (Utf8.encode p) (c_str h)); discriminate.
- intros Hn. destruct Hn. now exists p, h.
Qed.

End HashEdges.

(** * More about the phone field of the schema *)

Module PhoneField.
Import Bytes JS Runtime NodeCrypto EncryptionSecurity Wire UserModel.
Import BytesFacts CodecFacts EncryptionFacts.

Lemma length_encode_cp (cp : N) : (1 <= length (Utf8.encode_cp cp))%nat.
Proof.
unfold Utf8.encode_cp.
destruct (cp <? 128); [cbn; lia|]. destruct (cp <? 2048); [cbn; lia|].
destruct (cp <? 65536); cbn; lia.
Qed.

Lemma length_encode_cp_pair (cp : N) :
  0x10000 <= cp -> length (Utf8.encode_cp cp) = 4%nat.
Proof.
intros H. unfold Utf8.encode_cp.
destruct (N.ltb_spec cp 128); [lia|]. destruct (N.ltb_spec cp 2048); [lia|].
destruct (N.ltb_spec cp 65536); [lia|]. reflexivity.
Qed.

(** The UTF-8 encoding has at least as many bytes as the string has code
    units. *)
Lemma length_encode_units (s : jsstring) :
  (length s <= length (Utf8.encode_units s))%nat.
Proof.
enough ((length s <= length (Utf8.encode_units s))%nat /\
        forall c, (length (c :: s) <= length (Utf8.encode_units (c :: s)))%nat)
  as [H _] by exact H.
induction s as [|d rest [IH1 IH2]].
- split; [cbn; lia|]. intros c. cbn [Utf8.encode_units].
  pose proof (length_encode_cp c). pose proof (length_encode_cp 0xFFFD).
  destruct (Utf8.is_high c); [cbn [length] in *; lia|].
  destruct (Utf8.is_low c); rewrite length_app; cbn [length] in *; lia.
- split; [apply IH2|]. intros c.
  specialize (IH2 d). cbn [length] in *.
  change (Utf8.encode_units (c :: d :: rest)) with
    (if Utf8.is_high c then
       if Utf8.is_low d then
         Utf8.encode_cp (0x10000 + (c - 0xD800) * 0x400 + (d - 0xDC00))
           ++ Utf8.encode_units rest
       else Utf8.encode_cp 0xFFFD ++ Utf8.encode_units (d :: rest)
     else if Utf8.is_low c then Utf8.encode_cp 0xFFFD ++ Utf8.encode_units (d :: rest)
     else Utf8.encode_cp c ++ Utf8.encode_units (d :: rest)).
  pose proof (length_encode_cp c). pose proof (length_encode_cp 0xFFFD).
  pose proof (length_encode_cp_pair (0x10000 + (c - 0xD800) * 0x400 + (d - 0xDC00))
                ltac:(lia)).
  destruct (Utf8.is_high c); [destruct (Utf8.is_low d)|destruct (Utf8.is_low c)];
    rewrite length_app; lia.
Qed.

(** X10: a phone number that is a string, not empty and without lone
    surrogates, goes through the setter and the getter of the schema
    unchanged.  What the setter stores is not the number itself: it is the
    encoded string, of 58 characters and two for each byte of the number. *)
Theorem phone_round_trip (securityKey : value) (phone : jsstring) (w : world) :
  usable_key securityKey = true -> Utf8.well_formed phone = true -> phone <> [] ->
  exists stored,
    phone_set securityKey (VString phone) w = (Ok (VString stored), advance w 12) /\
    phone_get securityKey (VString stored) = Ok (VString phone) /\
    length stored = (58 + 2 * length (Utf8.encode phone))%nat /\
    stored <> phone.
Proof.
intros Hk Hx Hne. unfold usable_key in Hk.
destruct securityKey as [| | | | |k]; try discriminate.
exists (encoded (Hex.decode k) (drawn w 12) phone).
assert (length (encoded (Hex.decode k) (drawn w 12) phone)
        = (58 + 2 * length (Utf8.encode phone))%nat) as Hlen.
{ unfold encoded, ciphertext. rewrite !length_app, !length_encode.
  rewrite BlockFacts.length_auth_tag, GcmFacts.length_gctr, length_drawn.
  cbn [length]. lia. }
split; [|split; [|split; [exact Hlen|]]].
- unfold phone_set. destruct phone as [|c s]; [congruence|]. cbn [falsy].
  unfold mbind at 1. unfold M_bind. now rewrite (encryptData_eq k Hk).
- unfold phone_get.
  rewrite (Cipher.decrypt_encoded k (drawn w 12) phone Hk (length_drawn w 12)).
  now rewrite Utf8Facts.utf8_decode_encode.
- intros E. rewrite E in Hlen at 1.
  pose proof (length_encode_units phone) as Hu.
  unfold Utf8.encode in Hlen. rewrite length_map in Hlen. lia.
Qed.

(** The sample phone number under the sample key. *)
Lemma phone_round_trip_witness :
  exists stored,
    phone_set Sample.key (VString Sample.phone) Sample.world0
      = (Ok (VString stored), advance Sample.world0 12) /\
    phone_get Sample.key (VString stored) = Ok (VString Sample.phone) /\
    length stored = (58 + 2 * length (Utf8.encode Sample.phone))%nat /\
    stored <> Sample.phone.
Proof.
apply (phone_round_trip Sample.key Sample.phone Sample.world0);
  [reflexivity|reflexivity|discriminate].
Defined.

End PhoneField.

(** * More about signup and login *)

Module Services.
Import Bytes JS Runtime Bcrypt HashSecurity EncryptionSecurity Wire UserModel UserService.
Import EncryptionFacts Effects.


Lemma M_bind_Throw {A B} (m : M A) (k : A -> M B) (w w1 : world) (e : exn) :
  m w = (Throw e, w1) -> (m ≫= k) w = (Throw e, w1).
Proof. intros E. unfold mbind, M_bind. now rewrite E. Qed.






Lemma find_email_none_inv (email : value) (l : list document) :
  List.find (fun d => bool_decide (prop d "email" = email)) l = None ->
  Forall (fun d => prop d "email" <> email) l.
Proof.
induction l as [|d l IH]; [constructor|]. cbn [List.find].
destruct (bool_decide_reflect (prop d "email" = email)); [discriminate|].
intros E. constructor; auto.
Qed.




Lemma keeps_ret {A} (a : A) : keeps_users (mret a : M A).
Proof. intros w. now split. Qed.

Lemma keeps_lift {A} (r : result A) : keeps_users (lift r).
Proof. intros w. now split. Qed.

Lemma keeps_throw {A} (e : exn) : keeps_users (throw e : M A).
Proof. intros w. now split. Qed.

Lemma keeps_bind {A B} (m : M A) (k : A -> M B) :
  keeps_users m -> (forall a, keeps_users (k a)) -> keeps_users (m ≫= k).
Proof.
intros Hm Hk w. unfold mbind, M_bind. specialize (Hm w).
destruct (m w) as [[a|e] w1]; cbn [snd] in *; [|exact Hm].
destruct (Hk a w1) as [H1 H2]. destruct Hm as [H3 H4]. split; congruence.
Qed.

Lemma keeps_randomBytes (n : nat) : keeps_users (randomBytes n).
Proof. intros w. now split. Qed.

Lemma keeps_encryptData (securityKey data : value) :
  keeps_users (encryptData securityKey data).
Proof.
unfold encryptData. apply keeps_bind; [apply keeps_randomBytes|].
intros iv. apply keeps_lift.
Qed.

Lemma keeps_phone_set (securityKey v : value) : keeps_users (phone_set securityKey v).
Proof.
unfold phone_set. destruct (falsy v); [apply keeps_ret|].
apply keeps_bind; [apply keeps_encryptData|]. intros c. apply keeps_ret.
Qed.

Lemma keeps_hashPassword `{Primitives} (SALT_ROUND password : value) :
  keeps_users (hashPassword SALT_ROUND password).
Proof.
unfold hashPassword, Bcrypt.hash.
destruct password as [| | | | |p]; try apply keeps_throw.
apply keeps_bind.
- unfold genSalt. apply keeps_bind; [apply keeps_randomBytes|].
  intros seed. apply keeps_ret.
- intros salt. destruct (bcrypt _ _); [apply keeps_ret|apply keeps_throw].
Qed.

Lemma keeps_new_document (securityKey : value) (data : document) :
  keeps_users (new_document securityKey data).
Proof.
unfold new_document. apply keeps_bind.
- destruct (data !! "phone") as [v|]; [|apply keeps_ret].
  apply keeps_bind; [apply keeps_phone_set|]. intros v'. apply keeps_ret.
- intros phone. apply keeps_lift.
Qed.

Lemma new_document_email (securityKey : value) (data doc : document) (w w' : world) :
  new_document securityKey data w = (Ok doc, w') ->
  exists email, data !! "email" = Some (VString email) /\ email <> [] /\
                doc !! "email" = Some (VString email).
Proof.
intros E. unfold new_document in E.
apply Application.M_bind_inv in E as (phone & w1 & _ & E).
apply Application.lift_inv in E as [E _].
apply Application.result_bind_inv in E as (fn & _ & E).
apply Application.result_bind_inv in E as (ln & _ & E).
apply Application.result_bind_inv in E as (em & Ee & E).
apply Application.result_bind_inv in E as (pw & _ & E).
injection E as <-. unfold required_path in Ee.
destruct (data !! "email") as [[| | | | |[|c s]]|]; try discriminate.
injection Ee as <-. exists (c :: s). split; [reflexivity|]. split; [discriminate|].
destruct phone as [v|]; now repeat (rewrite lookup_insert_ne by discriminate);
  rewrite lookup_insert_eq.
Qed.

Lemma M_bind_cases {A B} (m : M A) (k : A -> M B) (w w' : world) (r : result B) :
  (m ≫= k) w = (r, w') ->
  (exists a w1, m w = (Ok a, w1) /\ k a w1 = (r, w')) \/
  (exists e, m w = (Throw e, w') /\ r = Throw e).
Proof.
unfold mbind, M_bind. destruct (m w) as [[a|e] w1].
- intros E. left. now exists a, w1.
- intros [= <- <-]. right. now exists e.
Qed.

Lemma keeps_at {A} (m : M A) (w w' : world) (r : result A) :
  keeps_users m -> m w = (r, w') -> pool w' = pool w /\ users w' = users w.
Proof. intros Hm E. specialize (Hm w). now rewrite E in Hm. Qed.

(** What create does to the world, by cases on its result. *)
Lemma create_effect (securityKey : value) (data : document) (w w' : world)
    (r : result (list document)) :
  create securityKey data w = (r, w') ->
  pool w' = pool w /\
  match r with
  | Throw _ => users w' = users w
  | Ok docs =>
    exists doc email,
      docs = [doc] /\ users w' = users w ++ [doc] /\
      data !! "email" = Some (VString email) /\ email <> [] /\
      doc !! "email" = Some (VString email)
  end.
Proof.
intros E. unfold create in E.
apply M_bind_cases in E as [(doc & w1 & Ed & E)|(e & Ed & ->)].
2:{ now apply keeps_at in Ed; [|apply keeps_new_document]. }
pose proof (keeps_at _ _ _ _ (keeps_new_document securityKey data) Ed) as [Hp Hu].
apply new_document_email in Ed as (email & E1 & E2 & E3).
apply M_bind_cases in E as [(taken & w2 & Et & E)|(e & Et & ->)]; [|discriminate].
injection Et as <- <-.
destruct (List.find _ (users w1)).
- injection E as <- <-. now split.
- injection E as <- <-. cbn [pool users]. split; [exact Hp|].
  exists doc, email. rewrite Hu. auto.
Qed.

(** What signup does to the world, by cases on its result. *)
Lemma signup_effect `{Primitives} (securityKey SALT_ROUND : value) (inputs : document)
    (w w' : world) (r : result (list document)) :
  signup securityKey SALT_ROUND inputs w = (r, w') ->
  pool w' = pool w /\
  match r with
  | Throw _ => users w' = users w
  | Ok user =>
    exists doc email,
      user = [doc] /\ users w' = users w ++ [doc] /\
      inputs !! "email" = Some (VString email) /\ email <> [] /\
      doc !! "email" = Some (VString email) /\
      Forall (fun d => prop d "email" <> VString email) (users w)
  end.
Proof.
intros E. unfold signup in E.
apply M_bind_cases in E as [(found & w1 & Ef & E)|(e & Ef & ->)]; [|discriminate].
injection Ef as <- <-.
apply M_bind_cases in E as [([] & w1 & Ef & E)|(e & Ef & ->)].
2:{ destruct (List.find _ (users w)); [|discriminate]. injection Ef as _ <-. now split. }
destruct (List.find _ (users w)) as [d|] eqn:Enone; [discriminate|].
injection Ef as <-. apply find_email_none_inv in Enone.
apply M_bind_cases in E as [(h & w1 & Eh & E)|(e & Eh & ->)].
2:{ now apply keeps_at in Eh; [|apply keeps_hashPassword]. }
apply keeps_at in Eh as [Hp Hu]; [|apply keeps_hashPassword].
apply M_bind_cases in E as [(user & w2 & Ec & E)|(e & Ec & ->)].
2:{ apply create_effect in Ec as [Hp' Hu']. split; congruence. }
injection E as <- <-.
apply create_effect in Ec as (Hp' & doc & email & -> & Hu' & E1 & E2 & E3).
split; [congruence|].
rewrite lookup_insert_ne in E1 by discriminate.
exists doc, email. rewrite Hu', Hu. repeat split; auto.
unfold prop in Enone. now rewrite E1 in Enone.
Qed.

Lemma prop_lookup (d : document) (name : string) (v : value) :
  d !! name = Some v -> prop d name = v.
Proof. intros E. unfold prop. now rewrite E. Qed.










(** X14: signup keeps the emails of the stored users distinct: when no
    two stored users have the same email before a call of signup, none have
    after it, whatever the request and whether signup returns or throws. *)
Theorem signup_keeps_emails_distinct `{Primitives} (securityKey SALT_ROUND : value)
    (inputs : document) (w : world) :
  NoDup (emails w) ->
  NoDup (emails (snd (signup securityKey SALT_ROUND inputs w))).
Proof.
intros Hnd.
destruct (signup securityKey SALT_ROUND inputs w) as [r w'] eqn:E.
apply signup_effect in E as [_ Hr]. cbn [snd]. unfold emails in *.
destruct r as [user|e]; [|now rewrite Hr].
destruct Hr as (doc & email & -> & -> & _ & _ & Hd & Hnew).
rewrite map_app. apply NoDup_app. split; [exact Hnd|]. split.
- intros v Hv Hin. cbn [map] in Hin. apply list_elem_of_singleton in Hin. subst v.
  apply list_elem_of_In, in_map_iff in Hv as (d & Hd' & Hin).
  apply list_elem_of_In in Hin.
  rewrite Forall_forall in Hnew. apply (Hnew d Hin).
  rewrite Hd'. now apply prop_lookup.
- apply NoDup_singleton.
Qed.

(** Somebody else signs up after the sample registration. *)
Lemma signup_keeps_emails_distinct_witness :
  NoDup (emails (snd (@signup Sample.primitives Sample.key (VString (js "10"))
                        Scenario.other_registration Scenario.registered))).
Proof.
apply (@signup_keeps_emails_distinct Sample.primitives).
apply NoDup_singleton.
Defined.




End Services.

(** * The repository functions *)

Module RepositoryFacts.
Import JS Runtime Repository.

Lemma find_head_filter {A} (f : A -> bool) (l : list A) :
  List.find f l = head (List.filter f l).
Proof.
induction l as [|x l IH]; [reflexivity|]. cbn [List.find List.filter].
now destruct (f x).
Qed.

Lemma ceil_div_spec (t l : nat) :
  (0 < l)%nat ->
  (t <= (t + l - 1) / l * l < t + l)%nat.
Proof.
intros Hl. pose proof (Nat.div_mod_eq (t + l - 1) l) as E.
pose proof (Nat.mod_upper_bound (t + l - 1) l ltac:(lia)) as Hm.
nia.
Qed.

Lemma lt_pages (p t l : nat) :
  (0 < l)%nat -> (p < (t + l - 1) / l <-> p * l < t)%nat.
Proof.
intros Hl. pose proof (ceil_div_spec t l Hl) as [H1 H2]. split; intros H; nia.
Qed.

(** The pages of a list: n pages of size l hold a list of at most n * l
    elements. *)
Lemma pages_concat {A} (l : nat) (n : nat) (xs : list A) :
  (length xs <= n * l)%nat ->
  concat (map (fun i => take l (drop (i * l) xs)) (seq 0 n)) = xs.
Proof.
revert xs. induction n as [|n IH]; intros xs Hlen.
- destruct xs; [reflexivity|cbn in Hlen; lia].
- cbn [seq map concat]. rewrite <- seq_shift, map_map.
  change (drop (0 * l) xs) with xs.
  transitivity (take l xs ++ drop l xs); [|apply take_drop].
  f_equal. rewrite <- (IH (drop l xs)) by (rewrite length_drop; lia).
  f_equal. apply map_ext. intros i. now rewrite drop_drop.
Qed.

(** X16: a page of paginate, for a page number and a page size that are
    positive.  The page holds at most limit documents, in the order of the
    collection, all matching the query; totalDocs counts the documents that
    match; totalPages pages of limit documents hold them all and
    totalPages - 1 pages do not; hasNextPage says that the page is before
    the last one, and then the page is full; hasPrevPage says that the page
    is not the first; the page is empty exactly when its number is beyond
    totalPages. *)
Theorem paginate_page (query : document -> bool) (page limit : positive) (w : world) :
  exists r,
    paginate query page limit w = (Ok r, w) /\
    docs r = take (Pos.to_nat limit)
                  (drop ((Pos.to_nat page - 1) * Pos.to_nat limit)
                        (List.filter query (users w))) /\
    (length (docs r) <= Pos.to_nat limit)%nat /\
    Forall (fun d => query d = true) (docs r) /\
    totalDocs r = length (List.filter query (users w)) /\
    (totalDocs r <= totalPages r * Pos.to_nat limit < totalDocs r + Pos.to_nat limit)%nat /\
    (hasNextPage r = true <-> (Pos.to_nat page < totalPages r)%nat) /\
    (hasNextPage r = true -> length (docs r) = Pos.to_nat limit) /\
    (hasPrevPage r = true <-> (1 < Pos.to_nat page)%nat) /\
    (docs r = [] <-> (totalPages r < Pos.to_nat page)%nat).
Proof.
eexists. split; [reflexivity|]. cbn [docs totalDocs totalPages hasNextPage hasPrevPage].
set (l := Pos.to_nat limit). set (p := Pos.to_nat page).
set (found := List.filter query (users w)).
assert (0 < l)%nat as Hl by (unfold l; lia).
assert (1 <= p)%nat as Hp by (unfold p; lia).
pose proof (ceil_div_spec (length found) l Hl) as Hc.
split; [reflexivity|]. split; [rewrite length_take; lia|].
split.
{ apply Forall_take, Forall_drop. unfold found. apply List.Forall_forall.
  intros d Hd. now apply filter_In in Hd. }
split; [reflexivity|]. split; [exact Hc|]. split.
{ rewrite Nat.ltb_lt. symmetry. now apply lt_pages. }
split.
{ rewrite Nat.ltb_lt. intros Hn. rewrite length_take, length_drop. nia. }
split; [now rewrite Nat.ltb_lt|].
split.
- intros E. apply (f_equal length) in E. rewrite length_take, length_drop in E.
  cbn [length] in E.
  assert (length found <= (p - 1) * l)%nat as Hle by lia.
  destruct (Nat.le_gt_cases p ((length found + l - 1) / l)) as [Hpage|]; [|assumption].
  exfalso.
  assert ((p - 1) < (length found + l - 1) / l)%nat as Hlt by lia.
  apply lt_pages in Hlt; [lia|exact Hl].
- intros Hlt. apply length_zero_iff_nil. rewrite length_take, length_drop.
  assert (~ (p - 1 < (length found + l - 1) / l)%nat) as Hn by lia.
  rewrite lt_pages in Hn by exact Hl. lia.
Qed.

(** X17: the pages of paginate, from the first to the last one, put one
    after the other are the documents that match the query, each one once
    and in the order of the collection. *)
Theorem paginate_covers (query : document -> bool) (limit : positive) (w : world) :
  concat (map (fun i => page_docs query (Pos.of_succ_nat i) limit w)
              (seq 0 (page_count query limit w)))
  = List.filter query (users w).
Proof.
unfold page_docs, page_count, paginate. cbn [fst docs totalPages].
set (l := Pos.to_nat limit). set (found := List.filter query (users w)).
assert (0 < l)%nat as Hl by (unfold l; lia).
rewrite <- (pages_concat l ((length found + l - 1) / l) found) at 2.
- f_equal. apply map_ext. intros i. rewrite SuccNat2Pos.id_succ.
  now replace (S i - 1)%nat with i by lia.
- apply ceil_div_spec. exact Hl.
Qed.

Lemma sublist_filter_bool {A} (f : A -> bool) (l : list A) :
  sublist (List.filter f l) l.
Proof.
induction l as [|x l IH]; [constructor|]. cbn [List.filter].
destruct (f x); now constructor.
Qed.

(** X18: the query functions agree.  findAll without limit and skip
    returns exactly the stored documents that match the query: each
    document of the collection that matches is among them, as often as it is
    in the collection and in the order of the collection, and nothing else
    is.  count returns their number, findOne the first of them, or nothing
    when there is none, and exists whether there is one.  None of them
    changes the world. *)
Theorem queries_agree (query : document -> bool) (w : world) :
  exists found,
    findAll query 0 0 w = (Ok found, w) /\
    found = List.filter query (users w) /\
    sublist found (users w) /\
    (forall d, d ∈ found <-> d ∈ users w /\ query d = true) /\
    count query w = (Ok (length found), w) /\
    findOne query w = (Ok (head found), w) /\
    exists_ query w = (Ok (bool_decide (found <> [])), w).
Proof.
exists (List.filter query (users w)).
split; [reflexivity|]. split; [reflexivity|].
split; [apply sublist_filter_bool|]. split.
{ intros d. rewrite !list_elem_of_In. apply filter_In. }
split; [reflexivity|].
unfold findOne, exists_. rewrite find_head_filter.
split; [reflexivity|].
destruct (List.filter query (users w)); reflexivity.
Qed.

End RepositoryFacts.

(** * The virtual userName *)

Module UserNameFacts.
Import JS Runtime UserName.
Import CodecFacts.

Lemma trim_start_clean (s : jsstring) :
  Forall (fun c => white_space c = false) s -> trim_start s = s.
Proof. intros H. destruct H as [|c s Hc _]; [reflexivity|]. cbn. now rewrite Hc. Qed.

Lemma trim_clean (s : jsstring) :
  Forall (fun c => white_space c = false) s -> trim s = s.
Proof.
intros H. unfold trim. rewrite (trim_start_clean s H).
rewrite trim_start_clean by now apply Forall_reverse.
apply reverse_involutive.
Qed.

Lemma clean_no_space (s : jsstring) :
  Forall (fun c => white_space c = false) s -> Forall (fun c => c <> space) s.
Proof.
apply List.Forall_impl. intros c Hc ->. discriminate.
Qed.

Lemma names_two (first last : jsstring) (more : list jsstring) (s : jsstring) :
  split space s = first :: last :: more ->
  names (VString s) = Ok (VString first, VString last).
Proof. intros E. unfold names. now rewrite E. Qed.

Lemma get_set_names (first last : jsstring) (doc : document) :
  get_userName (set_name "lastName" (VString last)
                  (set_name "firstName" (VString first) doc))
  = trim first ++ [space] ++ trim last.
Proof.
unfold get_userName, set_name, UserModel.prop.
rewrite lookup_insert_ne by discriminate. now rewrite !lookup_insert_eq.
Qed.

(** X19: the virtual userName, for a first and a last name without
    white space.  Setting it to the two names with a space between them and
    reading it gives the same string back, and the document has the two
    names; words after the second are dropped; with one word only, the last
    name has no value and userName reads as that word followed by
    " undefined". *)
Theorem userName_set_get (doc : document) (first last : jsstring) :
  Forall (fun c => white_space c = false) first ->
  Forall (fun c => white_space c = false) last ->
  (exists doc',
     set_userName (VString (first ++ [space] ++ last)) doc = Ok doc' /\
     UserModel.prop doc' "firstName" = VString first /\
     UserModel.prop doc' "lastName" = VString last /\
     get_userName doc' = first ++ [space] ++ last) /\
  (forall rest, exists doc',
     set_userName (VString (first ++ [space] ++ last ++ [space] ++ rest)) doc = Ok doc' /\
     get_userName doc' = first ++ [space] ++ last) /\
  (exists doc',
     set_userName (VString first) doc = Ok doc' /\
     UserModel.prop doc' "lastName" = VUndefined /\
     get_userName doc' = first ++ js " undefined").
Proof.
intros Hf Hl.
pose proof (clean_no_space first Hf) as Hfs. pose proof (clean_no_space last Hl) as Hls.
split; [|split].
- eexists. split.
  + unfold set_userName.
    rewrite (names_two first last [] _); [reflexivity|].
    cbn [app]. rewrite split_app by exact Hfs. now rewrite split_no_sep.
  + rewrite get_set_names. unfold set_name, UserModel.prop.
    rewrite lookup_insert_ne by discriminate. rewrite !lookup_insert_eq.
    rewrite !trim_clean by assumption. auto.
- intros rest. eexists. split.
  + unfold set_userName.
    rewrite (names_two first last (split space rest) _); [reflexivity|].
    cbn [app]. rewrite split_app by exact Hfs. now rewrite split_app by exact Hls.
  + now rewrite get_set_names, !trim_clean by assumption.
- eexists. split.
  + unfold set_userName, names. rewrite split_no_sep by exact Hfs. reflexivity.
  + unfold get_userName, set_name, UserModel.prop. cbn [EncryptionSecurity.element lookup list_lookup].
    rewrite lookup_delete_eq, lookup_delete_ne, lookup_insert_eq by discriminate.
    rewrite trim_clean by exact Hf. auto.
Qed.

(** The names of the sample registration. *)
Lemma userName_set_get_witness :
  (exists doc',
     set_userName (VString (js "Mina Nasr")) ∅ = Ok doc' /\
     get_userName doc' = js "Mina Nasr") /\
  (exists doc',
     set_userName (VString (js "Mina Nasr Fahmy")) ∅ = Ok doc' /\
     get_userName doc' = js "Mina Nasr") /\
  (exists doc',
     set_userName (VString (js "Mina")) ∅ = Ok doc' /\
     get_userName doc' = js "Mina undefined").
Proof.
assert (Forall (fun c => white_space c = false) (js "Mina")) as Hf
  by (repeat constructor).
assert (Forall (fun c => white_space c = false) (js "Nasr")) as Hl
  by (repeat constructor).
destruct (userName_set_get ∅ (js "Mina") (js "Nasr") Hf Hl) as (H1 & H2 & H3).
split; [|split].
- destruct H1 as (doc' & E & _ & _ & G). now exists doc'.
- destruct (H2 (js "Fahmy")) as (doc' & E & G). now exists doc'.
- destruct H3 as (doc' & E & _ & G). now exists doc'.
Defined.

End UserNameFacts.

(** * Strings with lone surrogates through encryptData and decryptData *)

Module Surrogates.
Import Bytes JS Runtime EncryptionSecurity Wire WellFormed.
Import EncryptionFacts.

Lemma encode_units_pair (c d : N) (t : jsstring) :
  Utf8.is_high c = true -> Utf8.is_low d = true ->
  Utf8.encode_units (c :: d :: t)
  = Utf8.encode_cp (0x10000 + (c - 0xD800) * 0x400 + (d - 0xDC00)) ++ Utf8.encode_units t.
Proof. intros Hc Hd. cbn [Utf8.encode_units]. now rewrite Hc, Hd. Qed.

Lemma encode_units_plain (c : N) (t : jsstring) :
  Utf8.is_high c = false -> Utf8.is_low c = false ->
  Utf8.encode_units (c :: t) = Utf8.encode_cp c ++ Utf8.encode_units t.
Proof. intros Hc Hd. cbn [Utf8.encode_units]. now rewrite Hc, Hd. Qed.

Lemma encode_units_lone_low (c : N) (t : jsstring) :
  Utf8.is_high c = false -> Utf8.is_low c = true ->
  Utf8.encode_units (c :: t) = Utf8.encode_cp 0xFFFD ++ Utf8.encode_units t.
Proof. intros Hc Hd. cbn [Utf8.encode_units]. now rewrite Hc, Hd. Qed.

Lemma encode_units_lone_high (c d : N) (t : jsstring) :
  Utf8.is_high c = true -> Utf8.is_low d = false ->
  Utf8.encode_units (c :: d :: t) = Utf8.encode_cp 0xFFFD ++ Utf8.encode_units (d :: t).
Proof. intros Hc Hd. cbn [Utf8.encode_units]. now rewrite Hc, Hd. Qed.

Lemma encode_units_replacement (t : jsstring) :
  Utf8.encode_units (0xFFFD :: t) = Utf8.encode_cp 0xFFFD ++ Utf8.encode_units t.
Proof. now apply encode_units_plain. Qed.

Lemma well_formed_plain (c : N) (t : jsstring) :
  Utf8.is_high c = false -> Utf8.is_low c = false ->
  Utf8.well_formed (c :: t) = (c <? 0x10000) && Utf8.well_formed t.
Proof. intros Hc Hd. cbn [Utf8.well_formed]. now rewrite Hc, Hd. Qed.

Lemma well_formed_pair (c d : N) (t : jsstring) :
  Utf8.is_high c = true -> Utf8.is_low d = true ->
  Utf8.well_formed (c :: d :: t) = Utf8.well_formed t.
Proof. intros Hc Hd. cbn [Utf8.well_formed]. now rewrite Hc, Hd. Qed.

Lemma toWellFormed_cons2 (c d : N) (t : jsstring) :
  toWellFormed (c :: d :: t) =
  if Utf8.is_high c then
    if Utf8.is_low d then c :: d :: toWellFormed t
    else 0xFFFD :: toWellFormed (d :: t)
  else if Utf8.is_low c then 0xFFFD :: toWellFormed (d :: t)
  else c :: toWellFormed (d :: t).
Proof. reflexivity. Qed.

Lemma toWellFormed_one (c : N) :
  toWellFormed [c] = if Utf8.is_high c || Utf8.is_low c then [0xFFFD] else [c].
Proof. cbn. now destruct (Utf8.is_high c), (Utf8.is_low c). Qed.

(** The encoder does not tell a string from its well-formed version. *)
Lemma encode_units_toWellFormed (s : jsstring) :
  Utf8.encode_units (toWellFormed s) = Utf8.encode_units s.
Proof.
enough (Utf8.encode_units (toWellFormed s) = Utf8.encode_units s /\
        forall c, Utf8.encode_units (toWellFormed (c :: s)) = Utf8.encode_units (c :: s))
  as [H _] by exact H.
induction s as [|d t [IH1 IH2]].
- split; [reflexivity|]. intros c. rewrite toWellFormed_one.
  cbn [Utf8.encode_units].
  destruct (Utf8.is_high c) eqn:Hh; [reflexivity|].
  destruct (Utf8.is_low c) eqn:Hl; [reflexivity|].
  cbn [orb Utf8.encode_units]. now rewrite Hh, Hl.
- split; [apply IH2|]. intros c. rewrite toWellFormed_cons2.
  destruct (Utf8.is_high c) eqn:Hh; [destruct (Utf8.is_low d) eqn:Hd|
                                     destruct (Utf8.is_low c) eqn:Hl].
  + now rewrite !encode_units_pair, IH1 by assumption.
  + now rewrite encode_units_replacement, encode_units_lone_high, IH2 by assumption.
  + now rewrite encode_units_replacement, encode_units_lone_low, IH2 by assumption.
  + now rewrite !encode_units_plain, IH2 by assumption.
Qed.

Lemma well_formed_toWellFormed (s : jsstring) :
  code_units s -> Utf8.well_formed (toWellFormed s) = true.
Proof.
enough ((code_units s -> Utf8.well_formed (toWellFormed s) = true) /\
        forall c, code_units (c :: s) -> Utf8.well_formed (toWellFormed (c :: s)) = true)
  as [H _] by exact H.
unfold code_units. induction s as [|d t [IH1 IH2]].
- split; [reflexivity|]. intros c Hc. inversion Hc as [|? ? Hlt _]; subst.
  rewrite toWellFormed_one.
  destruct (Utf8.is_high c) eqn:Hh; [reflexivity|].
  destruct (Utf8.is_low c) eqn:Hl; [reflexivity|]. cbn [orb].
  rewrite well_formed_plain by assumption.
  apply N.ltb_lt in Hlt. now rewrite Hlt.
- split; [apply IH2|]. intros c Hc.
  inversion Hc as [|? ? Hlt Hrest]; subst. inversion Hrest as [|? ? _ Ht]; subst.
  rewrite toWellFormed_cons2.
  destruct (Utf8.is_high c) eqn:Hh; [destruct (Utf8.is_low d) eqn:Hd|
                                     destruct (Utf8.is_low c) eqn:Hl].
  + rewrite well_formed_pair by assumption. now apply IH1.
  + rewrite well_formed_plain by reflexivity. now apply IH2.
  + rewrite well_formed_plain by reflexivity. now apply IH2.
  + rewrite well_formed_plain by assumption.
    apply N.ltb_lt in Hlt. rewrite Hlt. now apply IH2.
Qed.

Lemma toWellFormed_well_formed (s : jsstring) :
  Utf8.well_formed s = true -> toWellFormed s = s.
Proof.
enough ((Utf8.well_formed s = true -> toWellFormed s = s) /\
        forall c, Utf8.well_formed (c :: s) = true -> toWellFormed (c :: s) = c :: s)
  as [H _] by exact H.
induction s as [|d t [IH1 IH2]].
- split; [reflexivity|]. intros c. cbn.
  destruct (Utf8.is_high c); [discriminate|]. now destruct (Utf8.is_low c).
- split; [apply IH2|]. intros c. rewrite toWellFormed_cons2.
  destruct (Utf8.is_high c) eqn:Hh; [destruct (Utf8.is_low d) eqn:Hd|
                                     destruct (Utf8.is_low c) eqn:Hl].
  + rewrite well_formed_pair by assumption. intros Hw. now rewrite IH1.
  + cbn [Utf8.well_formed]. now rewrite Hh, Hd.
  + cbn [Utf8.well_formed]. now rewrite Hh, Hl.
  + rewrite well_formed_plain by assumption. intros Hw.
    apply andb_prop in Hw as [_ Hw]. now rewrite IH2.
Qed.

(** X21: what comes back of a string with lone surrogates.  Under a key
    of 32 bytes, for every string, decryptData of what encryptData returns
    is the string with each lone surrogate replaced by U+FFFD, as
    toWellFormed gives it; that is the string itself exactly when it has no
    lone surrogate. *)
Theorem round_trip_toWellFormed (securityKey : value) (x : jsstring) (w : world) :
  usable_key securityKey = true -> code_units x ->
  exists c,
    encryptData securityKey (VString x) w = (Ok c, advance w 12) /\
    decryptData securityKey (VString c) = Ok (toWellFormed x) /\
    (toWellFormed x = x <-> Utf8.well_formed x = true).
Proof.
intros Hk Hx. destruct (Cipher.usable_key_string securityKey Hk) as (k & -> & _).
exists (encoded (Hex.decode k) (drawn w 12) x).
split; [apply (encryptData_eq k Hk)|]. split.
- rewrite (Cipher.decrypt_encoded k _ x Hk (length_drawn w 12)).
  unfold Utf8.encode. rewrite <- encode_units_toWellFormed.
  fold (Utf8.encode (toWellFormed x)).
  now rewrite Utf8Facts.utf8_decode_encode by now apply well_formed_toWellFormed.
- split; [|apply toWellFormed_well_formed].
  intros E. rewrite <- E. now apply well_formed_toWellFormed.
Qed.

(** A string with a lone surrogate under the sample key. *)
Lemma round_trip_toWellFormed_witness :
  exists c,
    encryptData Sample.key (VString Scenario.lone_surrogate) Sample.world0
      = (Ok c, advance Sample.world0 12) /\
    decryptData Sample.key (VString c) = Ok [65; 0xFFFD; 66].
Proof.
destruct (round_trip_toWellFormed Sample.key Scenario.lone_surrogate Sample.world0)
  as (c & E & D & _).
- reflexivity.
- repeat constructor.
- exists c. split; [exact E|exact D].
Defined.

End Surrogates.

(** * One user's signup and another user's login *)

Module Isolation.
Import JS Runtime Bcrypt HashSecurity UserModel UserService.
Import Services.





End Isolation.

(** * What signup stores *)

Module Stored.
Import Bytes JS Runtime NodeCrypto Bcrypt HashSecurity EncryptionSecurity Wire.
Import UserModel UserService.
Import EncryptionFacts Services.








End Stored.
